(** * job-snipper: resume field extraction and job aggregation

    A shallow embedding of [services/resume_parser.py] and
    [services/real_job_search.py] (with the wrapper of
    [services/job_scraper.py] and the legacy search of
    [agents/jobsearch_agent.py]), the properties of the two components
    that the specification states about them, and further properties of
    the code.

    Conventions of the embedding:
    - a Python [str] is a list of Unicode code points ([N]);
    - a Python [float] is a rational number, every float operation being the
      exact operation followed by a rounding (class [Float64], of which
      [binary64] is the rounding to the nearest double);
    - a computation that may raise returns an exception or a value;
    - dictionaries used as maps are [gmap]s, the [set] of [uniq] is a [gset];
    - the instance of [RealJobSearch] is passed in and returned; the clock,
      the answers of the providers and the local date are inputs of the
      functions that read them, and the requests sent are returned in a
      list;
    - [str.lower], [str.title], the classes [\d] and [\w] of [re], the
      date parsers and the hash of a query belong to the interpreter and
      are parameters, at which concrete calls are run with ASCII
      instances. *)

From Stdlib Require Import ZArith NArith QArith Qround Bool Ascii String List Lia.
From Stdlib Require Import DecimalString Qpower Qabs Lqa.
From Stdlib Require Import DecimalZ DecimalPos.
From stdpp Require Import gmap strings list fin_maps.

Local Open Scope N_scope.

(** * The model *)

(** ** Python strings *)

Module PyStr.

Definition char := N.
Definition str := list char.

(** ASCII literals of the source, as code points. *)
Fixpoint u (s : string) : str :=
  match s with
  | EmptyString => []
  | String a r => N_of_ascii a :: u r
  end.

Definition nl : char := 10.
Definition colon : char := 58.
Definition comma : char := 44.

(** [str.isspace] on one character, which is also the regular expression
    class [\s] of a [str] pattern. *)
Definition is_space (c : char) : bool :=
  ((9 <=? c) && (c <=? 13)) || ((28 <=? c) && (c <=? 32))
  || (c =? 0x85) || (c =? 0xa0) || (c =? 0x1680)
  || ((0x2000 <=? c) && (c <=? 0x200a))
  || (c =? 0x2028) || (c =? 0x2029) || (c =? 0x202f) || (c =? 0x205f)
  || (c =? 0x3000).

Definition mem_char (cs : str) (c : char) : bool := existsb (N.eqb c) cs.

Fixpoint lstrip_by (p : char -> bool) (s : str) : str :=
  match s with
  | [] => []
  | c :: r => if p c then lstrip_by p r else s
  end.

Definition rstrip_by (p : char -> bool) (s : str) : str :=
  rev (lstrip_by p (rev s)).

Definition strip_by (p : char -> bool) (s : str) : str :=
  rstrip_by p (lstrip_by p s).

(** [s.strip()] *)
Definition strip (s : str) : str := strip_by is_space s.

(** [s.strip(chars)] *)
Definition strip_chars (cs : str) (s : str) : str := strip_by (mem_char cs) s.

Fixpoint starts_with (p s : str) : bool :=
  match p, s with
  | [], _ => true
  | _ :: _, [] => false
  | a :: p', b :: s' => (a =? b) && starts_with p' s'
  end.

(** [needle in hay] *)
Fixpoint contains (needle hay : str) : bool :=
  starts_with needle hay ||
  match hay with
  | [] => false
  | _ :: r => contains needle r
  end.

(** [sep.join(l)] *)
Fixpoint join (sep : str) (l : list str) : str :=
  match l with
  | [] => []
  | [x] => x
  | x :: r => x ++ sep ++ join sep r
  end.

(** [re.split] with a pattern that is one character class. *)
Fixpoint split_on (p : char -> bool) (s : str) : list str :=
  match s with
  | [] => [[]]
  | c :: r =>
      if p c then [] :: split_on p r
      else match split_on p r with
           | h :: t => (c :: h) :: t
           | [] => [[c]]
           end
  end.

(** [l[:n]] for an integer [n] of either sign. *)
Definition slice_to {A} (n : Z) (l : list A) : list A :=
  if (0 <=? n)%Z then firstn (Z.to_nat n) l
  else firstn (length l - Z.to_nat (- n)) l.

Definition nonempty {A} (l : list A) : bool :=
  match l with [] => false | _ => true end.

End PyStr.
Import PyStr.


(** ** Regular expressions, as [re] matches them

    Only the operators of the patterns of [resume_parser.py] that are
    modelled: concatenation, ordered alternation, the greedy [?] and the
    greedy [*] and [+] of a character class. [rmatch r s] lists, in the
    order in which the backtracking matcher of [re] tries them, the rests
    of [s] after each way of matching [r] at the start of [s]. *)

Module Re.

Inductive regex :=
| Eps
| Chr (p : char -> bool)
| Cat (r1 r2 : regex)
| Alt (r1 r2 : regex)
| Opt (r : regex)
| Star (p : char -> bool)
| Plus (p : char -> bool).

(** Greedy repetition of a class: the longest run first. *)
Fixpoint star_rests (p : char -> bool) (s : str) : list str :=
  match s with
  | [] => [[]]
  | c :: r => if p c then star_rests p r ++ [s] else [s]
  end.

Fixpoint rmatch (r : regex) (s : str) : list str :=
  match r with
  | Eps => [s]
  | Chr p => match s with
             | c :: s' => if p c then [s'] else []
             | [] => []
             end
  | Cat a b => flat_map (rmatch b) (rmatch a s)
  | Alt a b => rmatch a s ++ rmatch b s
  | Opt a => rmatch a s ++ [s]
  | Star p => star_rests p s
  | Plus p => match s with
              | c :: s' => if p c then star_rests p s' else []
              | [] => []
              end
  end.

(** The words a pattern denotes. *)
Fixpoint lang (r : regex) (w : str) : Prop :=
  match r with
  | Eps => w = []
  | Chr p => exists c, w = [c] /\ p c = true
  | Cat a b => exists x y, w = x ++ y /\ lang a x /\ lang b y
  | Alt a b => lang a w \/ lang b w
  | Opt a => w = [] \/ lang a w
  | Star p => Forall (fun c => p c = true) w
  | Plus p => w <> [] /\ Forall (fun c => p c = true) w
  end.

(** The first alternative that succeeds, as backtracking finds it. *)
Fixpoint first_some {A B} (f : A -> option B) (l : list A) : option B :=
  match l with
  | [] => None
  | x :: r => match f x with
              | Some y => Some y
              | None => first_some f r
              end
  end.

(** A lazy [(.*?)] under [re.DOTALL] followed by a condition on the rest:
    the shortest prefix after which the condition holds. *)
Fixpoint lazy_until (stop : str -> bool) (s : str) : option str :=
  if stop s then Some []
  else match s with
       | [] => None
       | c :: r => option_map (cons c) (lazy_until stop r)
       end.

(** [$] without [re.MULTILINE]: the end, or just before a final newline. *)
Definition at_dollar (s : str) : bool :=
  match s with
  | [] => true
  | [c] => c =? nl
  | _ => false
  end.

(** *** [re.IGNORECASE] on a [str] pattern

    [sre] lowers the subject character with the simple Unicode mapping and
    compares it with the pattern letter and its fixed equivalents. The
    patterns below only hold letters [a]-[z]; the code points outside
    [a]-[z] that the mapping sends into [a]-[z] are [A]-[Z], U+0130 and
    U+212A, and the equivalents of [i] and [s] are U+0131 and U+017F. On
    every other code point the mapping is immaterial here, and is taken to
    be the identity. *)
Definition sre_lower_unicode (c : char) : char :=
  if (65 <=? c) && (c <=? 90) then c + 32
  else if c =? 0x130 then 105
  else if c =? 0x212a then 107
  else c.

Definition ignorecase_fixes (l : char) : list char :=
  if l =? 105 then [0x131] else if l =? 115 then [0x17f] else [].

(** A pattern letter under [(?i)]. *)
Definition ci (l : char) (c : char) : bool :=
  existsb (N.eqb (sre_lower_unicode c)) (l :: ignorecase_fixes l).

(** The class [[A-Z]] under [(?i)]. *)
Definition ci_letter (c : char) : bool :=
  let l := sre_lower_unicode c in
  ((97 <=? l) && (l <=? 122)) || (l =? 0x131) || (l =? 0x17f).

(** A literal word of the pattern under [(?i)]. *)
Fixpoint lit_ci (w : str) : regex :=
  match w with
  | [] => Eps
  | l :: r => Cat (Chr (ci l)) (lit_ci r)
  end.

End Re.
Import Re.

(** ** [services/resume_parser.py] *)

Module ResumeParser.

(** [(skills?|technical\s+skills?|core\s+competenc(?:y|ies)|expertise|proficiencies?)]
    under [(?i)] *)
Definition skills_re : regex := Cat (lit_ci (u "skill")) (Opt (Chr (ci 115))).

Definition header_re : regex :=
  Alt skills_re
 (Alt (Cat (lit_ci (u "technical")) (Cat (Plus is_space) skills_re))
 (Alt (Cat (lit_ci (u "core")) (Cat (Plus is_space)
        (Cat (lit_ci (u "competenc")) (Alt (lit_ci (u "y")) (lit_ci (u "ies"))))))
 (Alt (lit_ci (u "expertise"))
      (Cat (lit_ci (u "proficiencie")) (Opt (Chr (ci 115))))))).

Definition space_or_colon (c : char) : bool := is_space c || (c =? colon).

(** The header and [[\s:]*\n]: what precedes the captured section. *)
Definition lead_re : regex :=
  Cat header_re (Cat (Star space_or_colon) (Chr (N.eqb nl))).

(** [\n\n|\n[A-Z][A-Z\s]+:] of the lookahead, under [(?i)]. *)
Definition ahead_re : regex :=
  Alt (Cat (Chr (N.eqb nl)) (Chr (N.eqb nl)))
      (Cat (Chr (N.eqb nl))
        (Cat (Chr ci_letter)
          (Cat (Plus (fun c => ci_letter c || is_space c)) (Chr (N.eqb colon))))).

(** [(?=\n\n|\n[A-Z][A-Z\s]+:|\Z)] *)
Definition section_end (s : str) : bool :=
  nonempty (rmatch ahead_re s) || negb (nonempty s).

(** The pattern at one start position: group 2 of the first way to match. *)
Definition match_at (s : str) : option str :=
  first_some (lazy_until section_end) (rmatch lead_re s).

(** [re.search(skills_section_pattern, raw_text, re.DOTALL)], projected on
    [group(2)]: the leftmost start position at which the pattern matches. *)
Fixpoint skills_section_match (s : str) : option str :=
  match match_at s with
  | Some g => Some g
  | None => match s with
            | [] => None
            | _ :: r => skills_section_match r
            end
  end.

(** [[,|•·\n;]] *)
Definition skill_delims : str := [comma; 124; 0x2022; 0xb7; nl; 59].

(** ['•·-*→◦■□'] *)
Definition bullet_glyphs : str :=
  [0x2022; 0xb7; 45; 42; 0x2192; 0x25e6; 0x25a0; 0x25a1].

(** [[a-zA-Z]], no flag. *)
Definition is_ascii_letter (c : char) : bool :=
  ((97 <=? c) && (c <=? 122)) || ((65 <=? c) && (c <=? 90)).

(** [(and|or|the|with|including|such as|etc)] under [re.I] *)
Definition noise_re : regex :=
  Alt (lit_ci (u "and")) (Alt (lit_ci (u "or")) (Alt (lit_ci (u "the"))
 (Alt (lit_ci (u "with")) (Alt (lit_ci (u "including"))
 (Alt (lit_ci (u "such as")) (lit_ci (u "etc"))))))).

(** [re.match(r'^(and|...|etc)$', skill, re.I)]: [re.match] starts at
    position 0, where [^] holds. *)
Definition is_noise_word (skill : str) : bool :=
  existsb at_dollar (rmatch noise_re skill).

(** [item.strip().strip('•·-*→◦■□')] *)
Definition clean_item (item : str) : str :=
  strip_chars bullet_glyphs (strip item).

(** The two tests of the loop body. *)
Definition keep_skill (skill : str) : bool :=
  nonempty skill
  && (2 <=? length skill)%nat && (length skill <=? 50)%nat
  && existsb is_ascii_letter skill
  && negb (is_noise_word skill).

Definition _extract_skills_from_text (raw_text : str) : list str :=
  let skills :=
    match skills_section_match raw_text with
    | Some skills_text =>
        List.filter keep_skill
          (map clean_item (split_on (mem_char skill_delims) skills_text))
    | None => []
    end in
  firstn 100 skills.

(** [uniq], the closure of [parse_resume_to_json]. [lower] is [str.lower],
    the full Unicode lowercasing of Python, of which nothing is assumed. *)
Section Uniq.
Context (lower : str -> str).

Fixpoint uniq_loop (seen : gset str) (seq : list str) : list str :=
  match seq with
  | [] => []
  | x :: rest =>
      let k := lower (strip x) in
      if nonempty k && negb (bool_decide (k ∈ seen))
      then strip x :: uniq_loop ({[k]} ∪ seen) rest
      else uniq_loop seen rest
  end.

Definition uniq (seq : list str) : list str := uniq_loop ∅ seq.

End Uniq.

End ResumeParser.
Import ResumeParser.

(** [str.lower] on texts whose cased characters are ASCII. *)
Definition ascii_lower (s : str) : str :=
  map (fun c => if (65 <=? c) && (c <=? 90) then c + 32 else c) s.

(** [str.title] on such texts: a letter is upper-cased after a character
    that is not a letter and lower-cased after a letter. *)
Fixpoint ascii_title_loop (after_letter : bool) (s : str) : str :=
  match s with
  | [] => []
  | c :: r =>
      let up := (65 <=? c) && (c <=? 90) in
      let low := (97 <=? c) && (c <=? 122) in
      (if after_letter then (if up then c + 32 else c)
       else (if low then c - 32 else c))
      :: ascii_title_loop (up || low) r
  end.

Definition ascii_title (s : str) : str := ascii_title_loop false s.

Definition scenario_text : str :=
  u "SKILLS" ++ [nl] ++ u "Python, SQL, Docker" ++ [nl; nl] ++ u "EXPERIENCE"
  ++ [nl] ++ u "5 years senior engineer".

(** ** Python values, exceptions and the parsed resume *)

Module Py.

(** The values that reach [parse_resume_to_json] and that its result holds. *)
Inductive pyval :=
| VNone
| VInt (z : Z)
| VBytes (b : list N)
| VStr (s : str)
| VList (l : list str).

(** The exceptions of the model, all of them subclasses of [Exception]. *)
Inductive exn :=
| TypeError (msg : string)
| KeyError (key : string)
| OtherException (name : string).

(** A computation that returns or raises. *)
Definition result (A : Type) : Type := exn + A.

Definition ret {A} (a : A) : result A := inr a.
Definition raise {A} (e : exn) : result A := inl e.

Definition bind {A B} (m : result A) (k : A -> result B) : result B :=
  match m with
  | inl e => inl e
  | inr a => k a
  end.

(** [try: body except Exception as e: handler] *)
Definition try_except {A} (body : result A) (handler : exn -> result A) : result A :=
  match body with
  | inl e => handler e
  | inr a => inr a
  end.

(** [d[key]] *)
Definition getitem (d : gmap string pyval) (key : string) : result pyval :=
  match d !! key with
  | Some v => ret v
  | None => raise (KeyError key)
  end.

(** [str.lower] and [str.title], which depend on the Unicode tables of the
    interpreter; nothing is assumed of them. *)
Class PyUnicode := { lower : str -> str; title : str -> str }.

End Py.
Import Py.

Notation "x <- m ;; k" := (bind m (fun x => k))
  (at level 100, m at next level, right associativity).

Module ResumeJson.

(** The patterns of [parse_resume_to_json] other than the skills section,
    each as the computation on the text that the [re] calls make: the two
    [re.findall], the first match of the email and phone patterns (or the
    empty string), and the name and location heuristics. Nothing is assumed
    of them, not even that they return. *)
Record field_patterns := {
  findall_education : str -> result (list str);
  findall_experience : str -> result (list str);
  search_email : str -> result str;
  search_phone : str -> result str;
  name_heuristic : str -> result str;
  location_heuristic : str -> result str
}.

Section Parse.
Context {U : PyUnicode} (fp : field_patterns).

(** [re.search(pattern, raw_text, ...)] accepts a [str] only. *)
Definition as_text (raw_text : pyval) : result str :=
  match raw_text with
  | VStr s => ret s
  | VBytes _ => raise (TypeError "cannot use a string pattern on a bytes-like object")
  | _ => raise (TypeError "expected string or bytes-like object")
  end.

(** The body of the [try]. The first statement that touches [raw_text] is
    the [re.search] of [_extract_skills_from_text]. *)
Definition try_block (raw_text : pyval) : result (gmap string pyval) :=
  text <- as_text raw_text ;;
  let skills := _extract_skills_from_text text in
  education <- findall_education fp text ;;
  experience <- findall_experience fp text ;;
  email <- search_email fp text ;;
  phone <- search_phone fp text ;;
  name <- name_heuristic fp text ;;
  loc <- location_heuristic fp text ;;
  ret (<["name" := VStr name]> (<["email" := VStr email]>
      (<["phone" := VStr phone]> (<["location" := VStr loc]>
      (<["skills" := VList (uniq lower skills)]>
      (<["education" := VList (uniq lower education)]>
      (<["experience" := VList (uniq lower experience)]>
      (<["raw_text" := raw_text]> ∅)))))))).

(** The [except] branch; its [print] is not modelled. *)
Definition on_error (raw_text : pyval) (e : exn) : result (gmap string pyval) :=
  ret (<["skills" := VList []]> (<["education" := VList []]>
      (<["experience" := VList []]> (<["raw_text" := raw_text]> ∅)))).

Definition parse_resume_to_json (raw_text : pyval) : result (gmap string pyval) :=
  try_except (try_block raw_text) (on_error raw_text).

(** The [skills] entry of a parsed text: the spec's [extractSkills]
    followed by its [dedupe]. *)
Definition extractSkills (text : str) : list str :=
  uniq lower (_extract_skills_from_text text).

End Parse.
End ResumeJson.
Import ResumeJson.

(** The interpreter on ASCII texts, and patterns that find nothing: the
    instances at which statements are run on concrete inputs. *)
Definition ascii_unicode : PyUnicode :=
  {| lower := ascii_lower; title := ascii_title |}.

Definition blank_patterns : field_patterns :=
  {| findall_education := fun _ => ret [];
     findall_experience := fun _ => ret [];
     search_email := fun _ => ret [];
     search_phone := fun _ => ret [];
     name_heuristic := fun _ => ret [];
     location_heuristic := fun _ => ret [] |}.

(** ** Skills-section headers *)

(** A text contains a skills-section header when some part of it is a word
    of the header pattern followed by whitespace or colons and a newline. *)
Definition contains_skills_header (text : str) : Prop :=
  exists pre w post, text = pre ++ w ++ post /\ lang lead_re w.

(** ** Python numbers

    A [float] is a rational; [rnd] is the rounding to a double that follows
    every float operation. The statements below only use that it is
    monotone and leaves the integers up to [2^53] alone; [binary64] is the
    rounding of the interpreter. *)

Module PyNum.

Class Float64 := {
  rnd : Q -> Q;
  rnd_proper : forall x y, (x == y)%Q -> (rnd x == rnd y)%Q;
  rnd_mono : forall x y, (x <= y)%Q -> (rnd x <= rnd y)%Q;
  rnd_int : forall z : Z, (Z.abs z <= 2 ^ 53)%Z -> (rnd (inject_Z z) == inject_Z z)%Q
}.

(** An [int] or a [float]. *)
Inductive pynum :=
| PInt (z : Z)
| PFloat (q : Q).

(** The exact value, which comparisons use. *)
Definition value (n : pynum) : Q :=
  match n with
  | PInt z => inject_Z z
  | PFloat q => q
  end.

Section Arith.
Context {F : Float64}.

(** [float(n)] *)
Definition to_float (n : pynum) : Q :=
  match n with
  | PInt z => rnd (inject_Z z)
  | PFloat q => q
  end.

(** [a + b] *)
Definition num_add (a b : pynum) : pynum :=
  match a, b with
  | PInt x, PInt y => PInt (x + y)
  | _, _ => PFloat (rnd (to_float a + to_float b)%Q)
  end.

(** [a * b] *)
Definition num_mul (a b : pynum) : pynum :=
  match a, b with
  | PInt x, PInt y => PInt (x * y)
  | _, _ => PFloat (rnd (to_float a * to_float b)%Q)
  end.

(** [a / b] on two [int]s, [b] not zero. *)
Definition true_div (a b : Z) : pynum :=
  PFloat (rnd (inject_Z a / inject_Z b)%Q).

(** [x + y] and [x - y] on two floats. *)
Definition fadd (x y : Q) : Q := rnd (x + y)%Q.
Definition fsub (x y : Q) : Q := rnd (x - y)%Q.

End Arith.

(** [min(a, b)]: [a] unless [b < a]. *)
Definition num_min (a b : pynum) : pynum :=
  if Qlt_le_dec (value b) (value a) then b else a.

(** [int(n)]: truncation toward zero. *)
Definition py_int (n : pynum) : Z :=
  match n with
  | PInt z => z
  | PFloat q => Z.quot (Qnum q) (Zpos (Qden q))
  end.

(** [x < y] and [x > y] on numbers. *)
Definition qlt (x y : Q) : bool := if Qlt_le_dec x y then true else false.

(** *** IEEE 754 double precision *)

Module Binary64.
Local Open Scope Q_scope.

Definition pow2 (e : Z) : Q := 2 ^ e.

(** Rounding to the nearest integer, a tie to the even one. *)
Definition round_half_even (q : Q) : Z :=
  let f := Qfloor q in
  match Qcompare (q - inject_Z f) (1 # 2) with
  | Lt => f
  | Gt => (f + 1)%Z
  | Eq => if Z.even f then f else (f + 1)%Z
  end.

(** The exponent of a positive rational: [2^e <= q < 2^(e+1)]. *)
Definition ilog2 (q : Q) : Z :=
  let e := (Z.log2 (Qnum q) - Z.log2 (Zpos (Qden q)))%Z in
  if Qle_bool (pow2 e) q then e else (e - 1)%Z.

(** A positive rational on the grid of its binade: 53 significant bits,
    and the grid of the subnormals below [2^-1022]. *)
Definition round_pos (q : Q) : Q :=
  let g := Z.max (ilog2 q - 52) (-1074) in
  inject_Z (round_half_even (q / pow2 g)) * pow2 g.

(** Rounding to the nearest double, a tie to the even one. The overflow to
    an infinity, past about [1.8e308], is not modelled. *)
Definition round_binary64 (q : Q) : Q :=
  match Qcompare q 0 with
  | Eq => 0
  | Gt => round_pos q
  | Lt => - round_pos (- q)
  end.

Lemma pow2_pos e : 0 < pow2 e.
Proof. apply Qpower_0_lt. reflexivity. Qed.

Lemma pow2_le a b : (a <= b)%Z -> pow2 a <= pow2 b.
Proof. intros H. apply Qpower_le_compat_l; [exact H|discriminate]. Qed.

Lemma pow2_lt a b : (a < b)%Z -> pow2 a < pow2 b.
Proof. intros H. apply Qpower_lt_compat_l; [exact H|reflexivity]. Qed.

Lemma pow2_lt_inv a b : pow2 a < pow2 b -> (a < b)%Z.
Proof. intros H. apply (Qpower_lt_compat_l_inv 2); [exact H|reflexivity]. Qed.

Lemma pow2_plus a b : pow2 (a + b) == pow2 a * pow2 b.
Proof. apply Qpower_plus. discriminate. Qed.

Lemma pow2_Z e : (0 <= e)%Z -> pow2 e == inject_Z (2 ^ e).
Proof. intros H. unfold pow2. now rewrite Zpower_Qpower. Qed.

Lemma ilog2_spec q : 0 < q -> pow2 (ilog2 q) <= q /\ q < pow2 (ilog2 q + 1).
Proof.
  intros Hq. destruct q as [n d]. unfold ilog2. cbn [Qnum Qden].
  assert (Hn : (0 < n)%Z) by (unfold Qlt in Hq; cbn in Hq; lia).
  set (a := Z.log2 n). set (b := Z.log2 (Z.pos d)).
  destruct (Z.log2_spec n Hn) as [Ha1 Ha2]. fold a in Ha1, Ha2.
  destruct (Z.log2_spec (Z.pos d) eq_refl) as [Hb1 Hb2]. fold b in Hb1, Hb2.
  assert (Ha0 : (0 <= a)%Z) by apply Z.log2_nonneg.
  assert (Hb0 : (0 <= b)%Z) by apply Z.log2_nonneg.
  assert (Hd : 0 < inject_Z (Z.pos d)) by reflexivity.
  assert (Hnd : n # d == inject_Z n / inject_Z (Z.pos d)) by apply Qmake_Qdiv.
  assert (Hup : n # d < pow2 (a - b + 1)).
  { rewrite Hnd. apply Qlt_shift_div_r; [exact Hd|].
    apply Qlt_le_trans with (pow2 (a + 1)).
    - rewrite pow2_Z by lia. rewrite <- Zlt_Qlt. replace (a + 1)%Z with (Z.succ a) by lia. exact Ha2.
    - replace (a + 1)%Z with ((a - b + 1) + b)%Z by lia. rewrite pow2_plus.
      apply Qmult_le_l; [apply pow2_pos|].
      rewrite pow2_Z by lia. rewrite <- Zle_Qle. exact Hb1. }
  assert (Hlow : pow2 (a - b - 1) <= n # d).
  { rewrite Hnd. apply Qle_shift_div_l; [exact Hd|].
    apply Qle_trans with (pow2 a).
    - replace a with ((a - b - 1) + (b + 1))%Z at 2 by lia. rewrite pow2_plus.
      apply Qmult_le_l; [apply pow2_pos|].
      rewrite pow2_Z by lia. rewrite <- Zle_Qle. replace (b + 1)%Z with (Z.succ b) by lia. lia.
    - rewrite pow2_Z by lia. rewrite <- Zle_Qle. exact Ha1. }
  destruct (Qle_bool (pow2 (a - b)) (n # d)) eqn:Hle.
  - apply Qle_bool_iff in Hle. split; [exact Hle|exact Hup].
  - split; [exact Hlow|]. replace (a - b - 1 + 1)%Z with (a - b)%Z by lia.
    apply Qnot_le_lt. intros H. apply Qle_bool_iff in H. congruence.
Qed.

Lemma ilog2_unique q e : pow2 e <= q -> q < pow2 (e + 1) -> ilog2 q = e.
Proof.
  intros H1 H2.
  assert (Hq : 0 < q) by (eapply Qlt_le_trans; [apply pow2_pos|exact H1]).
  destruct (ilog2_spec q Hq) as [H3 H4].
  assert (ilog2 q < e + 1)%Z by (apply pow2_lt_inv; eapply Qle_lt_trans; eassumption).
  assert (e < ilog2 q + 1)%Z by (apply pow2_lt_inv; eapply Qle_lt_trans; eassumption).
  lia.
Qed.

Lemma ilog2_proper x y : 0 < x -> x == y -> ilog2 x = ilog2 y.
Proof.
  intros Hx Hxy. symmetry. destruct (ilog2_spec x Hx) as [H1 H2].
  apply ilog2_unique; now rewrite <- Hxy.
Qed.

Lemma ilog2_mono x y : 0 < x -> x <= y -> (ilog2 x <= ilog2 y)%Z.
Proof.
  intros Hx Hxy.
  assert (Hy : 0 < y) by (eapply Qlt_le_trans; eassumption).
  destruct (ilog2_spec x Hx) as [H1 _]. destruct (ilog2_spec y Hy) as [_ H2].
  assert (ilog2 x < ilog2 y + 1)%Z; [|lia].
  apply pow2_lt_inv. eapply Qle_lt_trans; [exact H1|].
  eapply Qle_lt_trans; eassumption.
Qed.

Lemma round_half_even_bounds q :
  (Qfloor q <= round_half_even q <= Qfloor q + 1)%Z.
Proof.
  unfold round_half_even. destruct (Qcompare _ _); [destruct (Z.even _)| |]; lia.
Qed.

Lemma round_half_even_Z z : round_half_even (inject_Z z) = z.
Proof.
  unfold round_half_even. rewrite Qfloor_Z.
  assert (H : Qcompare (inject_Z z - inject_Z z) (1 # 2) = Lt).
  { apply Qlt_alt. assert (inject_Z z - inject_Z z == 0) as -> by ring. reflexivity. }
  now rewrite H.
Qed.

Lemma round_half_even_proper x y : x == y -> round_half_even x = round_half_even y.
Proof.
  intros H. unfold round_half_even.
  rewrite (Qfloor_comp _ _ H).
  assert (Hc : Qcompare (x - inject_Z (Qfloor y)) (1 # 2)
               = Qcompare (y - inject_Z (Qfloor y)) (1 # 2)).
  { apply Qcompare_comp; [now rewrite H|reflexivity]. }
  now rewrite Hc.
Qed.

Lemma round_half_even_mono x y : x <= y -> (round_half_even x <= round_half_even y)%Z.
Proof.
  intros H. pose proof (Qfloor_resp_le _ _ H) as Hf.
  pose proof (round_half_even_bounds x) as Bx.
  pose proof (round_half_even_bounds y) as By.
  destruct (Z.eq_dec (Qfloor x) (Qfloor y)) as [E|E]; [|lia].
  unfold round_half_even in *. rewrite <- E in *.
  destruct (Qcompare (x - inject_Z (Qfloor x)) (1 # 2)) eqn:Cx;
    destruct (Qcompare (y - inject_Z (Qfloor x)) (1 # 2)) eqn:Cy;
    try (destruct (Z.even (Qfloor x))); try lia; exfalso;
    repeat match goal with
    | H : Qcompare _ _ = Eq |- _ => apply Qeq_alt in H
    | H : Qcompare _ _ = Lt |- _ => apply Qlt_alt in H
    | H : Qcompare _ _ = Gt |- _ => apply Qgt_alt in H
    end; lra.
Qed.

Lemma round_half_even_ge z q : inject_Z z <= q -> (z <= round_half_even q)%Z.
Proof. intros H. rewrite <- (round_half_even_Z z). now apply round_half_even_mono. Qed.

Lemma round_half_even_le z q : q <= inject_Z z -> (round_half_even q <= z)%Z.
Proof. intros H. rewrite <- (round_half_even_Z z). now apply round_half_even_mono. Qed.

Definition grid (q : Q) : Z := Z.max (ilog2 q - 52) (-1074).

Lemma round_pos_eq q : round_pos q = inject_Z (round_half_even (q / pow2 (grid q))) * pow2 (grid q).
Proof. reflexivity. Qed.

Lemma grid_mono x y : 0 < x -> x <= y -> (grid x <= grid y)%Z.
Proof. intros Hx H. unfold grid. pose proof (ilog2_mono x y Hx H). lia. Qed.

Lemma round_pos_proper x y : 0 < x -> x == y -> round_pos x == round_pos y.
Proof.
  intros Hx H. rewrite !round_pos_eq. unfold grid.
  rewrite (ilog2_proper x y Hx H).
  set (g := Z.max (ilog2 y - 52) (-1074)).
  assert (Hr : round_half_even (x / pow2 g) = round_half_even (y / pow2 g)).
  { apply round_half_even_proper. now rewrite H. }
  now rewrite Hr.
Qed.

Lemma round_pos_nonneg q : 0 < q -> 0 <= round_pos q.
Proof.
  intros Hq. rewrite round_pos_eq. apply Qmult_le_0_compat; [|apply Qlt_le_weak, pow2_pos].
  change 0 with (inject_Z 0). rewrite <- Zle_Qle. apply round_half_even_ge.
  apply Qle_shift_div_l; [apply pow2_pos|]. rewrite Qmult_0_l. now apply Qlt_le_weak.
Qed.

(** On one grid the rounding is monotone. *)
Lemma scaled_mono g x y :
  x <= y ->
  inject_Z (round_half_even (x / pow2 g)) * pow2 g
  <= inject_Z (round_half_even (y / pow2 g)) * pow2 g.
Proof.
  intros H. apply Qmult_le_compat_r; [|apply Qlt_le_weak, pow2_pos].
  rewrite <- Zle_Qle. apply round_half_even_mono.
  apply Qmult_le_compat_r; [exact H|]. apply Qlt_le_weak, Qinv_lt_0_compat, pow2_pos.
Qed.

Lemma pow2_minus_mult a b : pow2 (a - b) * pow2 b == pow2 a.
Proof. rewrite <- pow2_plus. now replace (a - b + b)%Z with a by lia. Qed.

Lemma div_pow2_le x a g : x <= pow2 a -> x / pow2 g <= pow2 (a - g).
Proof.
  intros H. apply Qle_shift_div_r; [apply pow2_pos|]. now rewrite pow2_minus_mult.
Qed.

Lemma div_pow2_ge x a g : pow2 a <= x -> pow2 (a - g) <= x / pow2 g.
Proof.
  intros H. apply Qle_shift_div_l; [apply pow2_pos|]. now rewrite pow2_minus_mult.
Qed.

Lemma round_pos_mono x y : 0 < x -> x <= y -> round_pos x <= round_pos y.
Proof.
  intros Hx H.
  assert (Hy : 0 < y) by (eapply Qlt_le_trans; eassumption).
  pose proof (grid_mono x y Hx H) as Hg.
  destruct (Z.eq_dec (grid x) (grid y)) as [E|E].
  - rewrite !round_pos_eq, E. now apply scaled_mono.
  - assert (Hlt : (grid x < grid y)%Z) by lia. clear Hg E.
    destruct (ilog2_spec x Hx) as [_ Hx2]. destruct (ilog2_spec y Hy) as [Hy1 _].
    assert (Hgy : grid y = (ilog2 y - 52)%Z) by (unfold grid in *; lia).
    assert (Hex : (ilog2 x + 1 <= ilog2 y)%Z) by (unfold grid in *; lia).
    apply Qle_trans with (pow2 (ilog2 y)).
    + rewrite round_pos_eq.
      rewrite <- (pow2_minus_mult (ilog2 y) (grid x)).
      apply Qmult_le_compat_r; [|apply Qlt_le_weak, pow2_pos].
      rewrite (pow2_Z (ilog2 y - grid x)) by lia. rewrite <- Zle_Qle.
      apply round_half_even_le.
      rewrite <- pow2_Z by lia. apply div_pow2_le.
      apply Qlt_le_weak. eapply Qlt_le_trans; [exact Hx2|]. now apply pow2_le.
    + rewrite round_pos_eq.
      rewrite <- (pow2_minus_mult (ilog2 y) (grid y)) at 1.
      apply Qmult_le_compat_r; [|apply Qlt_le_weak, pow2_pos].
      rewrite (pow2_Z (ilog2 y - grid y)) by lia. rewrite <- Zle_Qle.
      apply round_half_even_ge.
      rewrite <- pow2_Z by lia. now apply div_pow2_ge.
Qed.

Lemma round_pos_Z z : (0 < z <= 2 ^ 53)%Z -> round_pos (inject_Z z) == inject_Z z.
Proof.
  intros [Hz0 Hz1].
  assert (Hq : 0 < inject_Z z) by (change 0 with (inject_Z 0); now rewrite <- Zlt_Qlt).
  destruct (ilog2_spec _ Hq) as [H1 H2].
  set (e := ilog2 (inject_Z z)) in *.
  assert (He0 : (0 <= e)%Z).
  { assert (0 < e + 1)%Z; [|lia]. apply pow2_lt_inv. eapply Qle_lt_trans; [|exact H2].
    change (pow2 0) with (inject_Z 1). rewrite <- Zle_Qle. lia. }
  assert (He1 : (e <= 53)%Z).
  { assert (e < 54)%Z; [|lia]. apply pow2_lt_inv. eapply Qle_lt_trans; [exact H1|].
    rewrite (pow2_Z 54) by lia. rewrite <- Zlt_Qlt. lia. }
  rewrite round_pos_eq. unfold grid. fold e.
  replace (Z.max (e - 52) (-1074)) with (e - 52)%Z by lia.
  destruct (Z_le_gt_dec (e - 52) 0) as [Hg|Hg].
  - assert (Hs : inject_Z z / pow2 (e - 52) == inject_Z (z * 2 ^ (52 - e))).
    { rewrite inject_Z_mult, <- pow2_Z by lia.
      apply Qeq_sym. unfold Qdiv. apply Qmult_comp; [reflexivity|].
      unfold pow2. rewrite <- Qpower_opp. now replace (- (e - 52))%Z with (52 - e)%Z by lia. }
    rewrite (round_half_even_proper _ _ Hs), round_half_even_Z.
    rewrite inject_Z_mult, <- pow2_Z by lia. rewrite <- Qmult_assoc, <- pow2_plus.
    replace (52 - e + (e - 52))%Z with 0%Z by lia. change (pow2 0) with 1. ring.
  - assert (e = 53)%Z by lia. subst e. rewrite H in *. clear Hg.
    assert (Hz : z = (2 ^ 53)%Z).
    { rewrite (pow2_Z 53) in H1 by lia. rewrite <- Zle_Qle in H1. lia. }
    rewrite Hz. vm_compute. reflexivity.
Qed.

Lemma round_binary64_proper x y : x == y -> round_binary64 x == round_binary64 y.
Proof.
  intros H. unfold round_binary64.
  assert (Hc : Qcompare x 0 = Qcompare y 0) by (apply Qcompare_comp; [exact H|reflexivity]).
  rewrite <- Hc. destruct (Qcompare x 0) eqn:C.
  - reflexivity.
  - apply Qlt_alt in C. apply Qopp_comp. apply round_pos_proper; [lra|now rewrite H].
  - apply Qgt_alt in C. now apply round_pos_proper.
Qed.

Lemma round_binary64_mono x y : x <= y -> round_binary64 x <= round_binary64 y.
Proof.
  intros H. unfold round_binary64.
  destruct (Qcompare x 0) eqn:Cx; destruct (Qcompare y 0) eqn:Cy;
    repeat match goal with
    | H : Qcompare _ _ = Eq |- _ => apply Qeq_alt in H
    | H : Qcompare _ _ = Lt |- _ => apply Qlt_alt in H
    | H : Qcompare _ _ = Gt |- _ => apply Qgt_alt in H
    end; try lra.
  - apply round_pos_nonneg. exact Cy.
  - assert (0 <= round_pos (- x)) by (apply round_pos_nonneg; lra). lra.
  - assert (round_pos (- y) <= round_pos (- x)) by (apply round_pos_mono; lra). lra.
  - assert (0 <= round_pos (- x)) by (apply round_pos_nonneg; lra).
    assert (0 <= round_pos y) by (apply round_pos_nonneg; lra). lra.
  - now apply round_pos_mono.
Qed.

Lemma round_binary64_Z z : (Z.abs z <= 2 ^ 53)%Z -> round_binary64 (inject_Z z) == inject_Z z.
Proof.
  intros H. unfold round_binary64. destruct (Qcompare (inject_Z z) 0) eqn:C.
  - apply Qeq_alt in C. now rewrite C.
  - apply Qlt_alt in C.
    assert (Hn : - inject_Z z == inject_Z (- z)) by (now rewrite inject_Z_opp).
    assert (Hp : 0 < - inject_Z z) by lra.
    rewrite (round_pos_proper _ _ Hp Hn).
    change 0 with (inject_Z 0) in C. rewrite <- Zlt_Qlt in C.
    rewrite round_pos_Z by lia. rewrite inject_Z_opp. ring.
  - apply Qgt_alt in C. change 0 with (inject_Z 0) in C. rewrite <- Zlt_Qlt in C.
    apply round_pos_Z. lia.
Qed.

End Binary64.

(** The floats of Python. *)
Definition binary64 : Float64 :=
  {| rnd := Binary64.round_binary64;
     rnd_proper := Binary64.round_binary64_proper;
     rnd_mono := Binary64.round_binary64_mono;
     rnd_int := Binary64.round_binary64_Z |}.

(** [str(n)] of an [int]. *)
Definition str_of_Z (z : Z) : str := u (NilZero.string_of_int (Z.to_int z)).

(** [f"{n:,}"] of an [int]: the digits in groups of three. *)
Fixpoint group3 (rev_digits : str) : str :=
  match rev_digits with
  | a :: b :: c :: (_ :: _) as r => a :: b :: c :: comma :: group3 r
  | _ => rev_digits
  end.

Definition format_commas (z : Z) : str :=
  (if (z <? 0)%Z then [45] else []) ++ rev (group3 (rev (str_of_Z (Z.abs z)))).

End PyNum.
Import PyNum.

(** ** Dates

    A [datetime] is a count of microseconds, naive or aware of its offset.
    [datetime.fromisoformat] and [datetime.strptime(_, '%Y-%m-%d')] belong
    to the interpreter: each is the function of the string that it
    computes, [None] standing for [ValueError]. *)

Module PyDate.

Inductive datetime :=
| Naive (us : Z)
| Aware (us : Z).

Class DateLib := {
  fromisoformat : str -> option datetime;
  strptime_ymd : str -> option Z
}.

Definition us_per_day : Z := 86400000000.

(** [s.replace(c, by)] for a one-character [c]. *)
Definition replace_char (c : char) (by_ : str) (s : str) : str :=
  flat_map (fun x => if x =? c then by_ else [x]) s.

(** Days from 1970-01-01 to a date of the proleptic Gregorian calendar. *)
Definition days_from_civil (y m d : Z) : Z :=
  let y' := (if m <=? 2 then y - 1 else y)%Z in
  let era := (y' / 400)%Z in
  let yoe := (y' - era * 400)%Z in
  let mp := ((m + 9) mod 12)%Z in
  let doy := ((153 * mp + 2) / 5 + d - 1)%Z in
  let doe := (yoe * 365 + yoe / 4 - yoe / 100 + doy)%Z in
  (era * 146097 + doe - 719468)%Z.

Definition is_leap (y : Z) : bool :=
  ((y mod 4 =? 0) && negb (y mod 100 =? 0) || (y mod 400 =? 0))%Z.

Definition days_in_month (y m : Z) : Z :=
  (if m =? 2 then (if is_leap y then 29 else 28)
   else if (m =? 4) || (m =? 6) || (m =? 9) || (m =? 11) then 30 else 31)%Z.

Fixpoint digits_value (acc : Z) (s : str) : option Z :=
  match s with
  | [] => Some acc
  | c :: r => if (48 <=? c) && (c <=? 57)
              then digits_value (acc * 10 + Z.of_N (c - 48)) r
              else None
  end.

(** [datetime.strptime(s, '%Y-%m-%d')] on dates written with ASCII digits
    as four, two and two digits. *)
Definition ascii_strptime_ymd (s : str) : option Z :=
  match split_on (N.eqb 45) s with
  | [ys; ms; ds] =>
      match digits_value 0 ys, digits_value 0 ms, digits_value 0 ds with
      | Some y, Some m, Some d =>
          if ((length ys =? 4) && (length ms =? 2) && (length ds =? 2))%nat
             && ((1 <=? y) && (1 <=? m) && (m <=? 12) && (1 <=? d)
                 && (d <=? days_in_month y m))%Z
          then Some (days_from_civil y m d * us_per_day)%Z
          else None
      | _, _, _ => None
      end
  | _ => None
  end.

(** A library for date-only strings: the instance at which the date
    computation is run on them. *)
Definition date_only_lib : DateLib :=
  {| fromisoformat := fun _ => None; strptime_ymd := ascii_strptime_ymd |}.

End PyDate.
Import PyDate.

(** ** [services/real_job_search.py] *)

Module RealJobSearch.

(** A job dictionary; the two keys that [_calculate_match_scores] adds are
    absent before it. *)
Record JobListing := {
  title_ : str;
  company : str;
  location : str;
  description : str;
  url : str;
  salary : str;
  remote : bool;
  hybrid : bool;
  days_ago : Z;
  source : str;
  match_score : option Z;
  matched_skills : option (list str)
}.

(** What the aggregator reads of the parsed resume, each [get] with its
    default applied. *)
Record ParsedResume := {
  skills : list str;
  experience : list str;
  resume_location : str
}.

Record SearchQuery := {
  keywords : str;
  query_location : str;
  experience_level : str
}.

(** A record of the [results] of Adzuna and of the [data] of JSearch, each
    [get] with its default applied; a salary is an integer or absent. *)
Record AdzunaJob := {
  az_title : str;
  az_company : str;
  az_location : str;
  az_description : str;
  az_redirect_url : str;
  az_salary_min : option Z;
  az_salary_max : option Z;
  az_created : option str
}.

Record JSearchJob := {
  js_title : str;
  js_employer : str;
  js_location : str;
  js_description : str;
  js_apply_link : str;
  js_salary_min : option Z;
  js_salary_max : option Z;
  js_is_remote : bool;
  js_posted_at : option str
}.

(** What a request gives: an exception before the counter is touched (no
    connection, a status that is not 2xx, a body that is not JSON), the
    records of the answer, or an answer with a record of another shape, on
    which the loop over the records raises. *)
Inductive http_outcome (A : Type) :=
| HttpFailed
| HttpRecords (records : list A)
| HttpMisshapen.
Arguments HttpFailed {A}.
Arguments HttpRecords {A} records.
Arguments HttpMisshapen {A}.

(** The requests sent, with the parameters that depend on the call. *)
Inductive request :=
| GetAdzuna (results_per_page : Z) (what where_ : str) (category : option str)
| GetJSearch (query : str) (location_ : option str).

Record rate_info := { calls : Z; reset_time : Q }.

(** The instance: the cache, keyed by the hash of the query and the
    requested count, the rate limits by provider name, and the two flags. *)
Record service := {
  cache : gmap (Z * Z) (list JobListing * Q);
  rate_limits : gmap string rate_info;
  has_adzuna : bool;
  has_rapidapi : bool
}.

(** What one call of [search_jobs] reads from outside, at the place where
    it reads it: [time.time()] at the cache check, in the two rate-limit
    checks and at the cache write, the outcome of each request, and
    [datetime.now()] for the i-th record of an answer. *)
Record call_env := {
  t_check : Q;
  t_adzuna : Q;
  t_rapidapi : Q;
  t_store : Q;
  adzuna_http : http_outcome AdzunaJob;
  rapidapi_http : http_outcome JSearchJob;
  local_now : nat -> Z
}.

Definition set_rate_limits (rl : gmap string rate_info) (s : service) : service :=
  {| cache := cache s; rate_limits := rl;
     has_adzuna := has_adzuna s; has_rapidapi := has_rapidapi s |}.

Definition set_cache (c : gmap (Z * Z) (list JobListing * Q)) (s : service) : service :=
  {| cache := c; rate_limits := rate_limits s;
     has_adzuna := has_adzuna s; has_rapidapi := has_rapidapi s |}.

(** A template of [_generate_enhanced_mock_jobs]: a job dictionary before
    [url], [days_ago] and [source] are set. *)
Record template := {
  tp_title : str;
  tp_company : str;
  tp_location : str;
  tp_description : str;
  tp_salary : str;
  tp_remote : bool;
  tp_hybrid : bool
}.

Definition seniority_words : list str := [u "senior"; u "lead"; u "principal"].

Definition company_words : list str := [u "startup"; u "tech"; u "software"].

(** [any(w in text for w in words)] *)
Definition any_in (words : list str) (text : str) : bool :=
  existsb (fun w => contains w text) words.

Section Service.
Context {F : Float64} {U : PyUnicode} {D : DateLib}.
(** [hash(str(search_query))] *)
Context (query_hash : SearchQuery -> Z).

(** [__init__], from the three environment variables and [time.time()]
    read twice. *)
Definition init (app_id app_key rapid_key : option str) (t1 t2 : Q) : service :=
  let truthy (v : option str) := match v with Some (_ :: _) => true | _ => false end in
  {| cache := ∅;
     rate_limits :=
       <["adzuna" := {| calls := 0; reset_time := fadd t1 (to_float (PInt 3600)) |}]>
       (<["rapidapi" := {| calls := 0; reset_time := fadd t2 (to_float (PInt 3600)) |}]> ∅);
     has_adzuna := truthy app_id && truthy app_key;
     has_rapidapi := truthy rapid_key |}.

Definition _is_rate_limited (api : string) (current_time : Q)
    (rl : gmap string rate_info) : bool * gmap string rate_info :=
  match rl !! api with
  | None => (false, rl)
  | Some rate =>
      let '(rate, rl) :=
        if qlt (reset_time rate) current_time
        then let fresh := {| calls := 0;
                             reset_time := fadd current_time (to_float (PInt 3600)) |} in
             (fresh, <[api := fresh]> rl)
        else (rate, rl) in
      if String.eqb api "adzuna" then ((100 <=? calls rate)%Z, rl)
      else if String.eqb api "rapidapi" then ((50 <=? calls rate)%Z, rl)
      else (false, rl)
  end.

Definition _map_experience_to_adzuna (experience_level : str) : str :=
  if decide (experience_level = u "Entry Level") then u "entry-level"
  else if decide (experience_level = u "Mid Level") then u "mid-level"
  else if decide (experience_level = u "Senior Level") then u "senior-level"
  else if decide (experience_level = u "Executive") then u "executive"
  else [].

Definition falsy (v : option Z) : bool :=
  match v with
  | None | Some 0%Z => true
  | _ => false
  end.

Definition _format_salary (min_sal max_sal : option Z) : str :=
  let num v := format_commas (default 0%Z v) in
  if falsy min_sal && falsy max_sal then u "Not specified"
  else if negb (falsy min_sal) && negb (falsy max_sal)
       then u "$" ++ num min_sal ++ u " - $" ++ num max_sal
  else if negb (falsy min_sal) then u "$" ++ num min_sal ++ u "+"
  else u "Up to $" ++ num max_sal.

(** [_calculate_days_ago]; [now] is [datetime.now()], naive. The bare
    [except] turns the [ValueError] of a parser and the [TypeError] of a
    naive minus an aware datetime into 0. [timedelta.days] is the floor of
    the difference in days. *)
Definition _calculate_days_ago (now : Z) (date_str : option str) : Z :=
  match date_str with
  | None | Some [] => 0
  | Some date_str =>
      let job_date :=
        if contains (u "T") date_str
        then fromisoformat (replace_char 90 (u "+00:00") date_str)
        else option_map Naive (strptime_ymd date_str) in
      match job_date with
      | Some (Naive t) => ((now - t) / us_per_day)%Z
      | Some (Aware _) => 0
      | None => 0
      end
  end.

(** The increment of [rate_limits[api]['calls']]. *)
Definition count_call (api : string) (rl : gmap string rate_info) : gmap string rate_info :=
  match rl !! api with
  | Some rate => <[api := {| calls := calls rate + 1; reset_time := reset_time rate |}]> rl
  | None => rl
  end.

Definition adzuna_listing (now : Z) (job : AdzunaJob) : JobListing :=
  {| title_ := az_title job;
     company := az_company job;
     location := az_location job;
     description := az_description job;
     url := az_redirect_url job;
     salary := _format_salary (az_salary_min job) (az_salary_max job);
     remote := contains (u "remote") (lower (az_description job));
     hybrid := contains (u "hybrid") (lower (az_description job));
     days_ago := _calculate_days_ago now (az_created job);
     source := u "Adzuna";
     match_score := None;
     matched_skills := None |}.

Definition jsearch_listing (now : Z) (job : JSearchJob) : JobListing :=
  {| title_ := js_title job;
     company := js_employer job;
     location := js_location job;
     description := js_description job;
     url := js_apply_link job;
     salary := _format_salary (js_salary_min job) (js_salary_max job);
     remote := js_is_remote job;
     hybrid := contains (u "hybrid") (lower (js_description job));
     days_ago := _calculate_days_ago now (js_posted_at job);
     source := u "JSearch";
     match_score := None;
     matched_skills := None |}.

(** The provider functions return the listings, the instance as they
    leave it and the requests they sent. *)
Definition _search_adzuna (s : service) (env : call_env)
    (search_query : SearchQuery) (max_results : Z)
  : list JobListing * service * list request :=
  if negb (has_adzuna s) then ([], s, [])
  else
    let '(limited, rl) := _is_rate_limited "adzuna" (t_adzuna env) (rate_limits s) in
    let s := set_rate_limits rl s in
    if limited then ([], s, [])
    else
      let sent :=
        [GetAdzuna (Z.min max_results 50) (keywords search_query)
           (query_location search_query)
           (if nonempty (experience_level search_query)
            then Some (_map_experience_to_adzuna (experience_level search_query))
            else None)] in
      match adzuna_http env with
      | HttpFailed => ([], s, sent)
      | HttpRecords records =>
          (imap (fun i job => adzuna_listing (local_now env i) job) records,
           set_rate_limits (count_call "adzuna" rl) s, sent)
      | HttpMisshapen => ([], set_rate_limits (count_call "adzuna" rl) s, sent)
      end.

Definition _search_rapidapi (s : service) (env : call_env)
    (search_query : SearchQuery) (max_results : Z)
  : list JobListing * service * list request :=
  if negb (has_rapidapi s) then ([], s, [])
  else
    let '(limited, rl) := _is_rate_limited "rapidapi" (t_rapidapi env) (rate_limits s) in
    let s := set_rate_limits rl s in
    if limited then ([], s, [])
    else
      let sent :=
        [GetJSearch (keywords search_query)
           (if nonempty (query_location search_query)
            then Some (query_location search_query) else None)] in
      match rapidapi_http env with
      | HttpFailed => ([], s, sent)
      | HttpRecords records =>
          (imap (fun i job => jsearch_listing (local_now env i) job) records,
           set_rate_limits (count_call "rapidapi" rl) s, sent)
      | HttpMisshapen => ([], set_rate_limits (count_call "rapidapi" rl) s, sent)
      end.


Definition job_templates (search_query : SearchQuery) : list template :=
  let keywords := lower (keywords search_query) in
  let location := lower (query_location search_query) in
  let role (otherwise : str) := if nonempty keywords then title keywords else otherwise in
  let place (otherwise : str) := if nonempty location then title location else otherwise in
  [ {| tp_title := u "Senior " ++ role (u "Software Engineer");
       tp_company := u "TechCorp Inc.";
       tp_location := place (u "San Francisco, CA");
       tp_description :=
         u "Join our team as a Senior " ++ role (u "Software Engineer")
         ++ u ". We're looking for passionate developers to build innovative solutions.";
       tp_salary := u "$120,000 - $150,000";
       tp_remote := true;
       tp_hybrid := false |};
    {| tp_title := role (u "Software Engineer") ++ u " - Remote";
       tp_company := u "StartupXYZ";
       tp_location := u "Remote";
       tp_description :=
         u "Fully remote position for a " ++ role (u "Software Engineer")
         ++ u ". Work with cutting-edge technologies.";
       tp_salary := u "$90,000 - $130,000";
       tp_remote := true;
       tp_hybrid := false |};
    {| tp_title := u "Lead " ++ role (u "Developer");
       tp_company := u "Enterprise Solutions";
       tp_location := place (u "New York, NY");
       tp_description :=
         u "Lead a team of " ++ role (u "developers")
         ++ u " in building scalable applications.";
       tp_salary := u "$140,000 - $180,000";
       tp_remote := false;
       tp_hybrid := true |} ].

(** The body of the loop over [range(max_results)]. *)
Definition mock_job (templates : list template) (i : nat) : option JobListing :=
  tp ← templates !! (i mod length templates)%nat;
  let numbered (s : str) :=
    if (2 <? i)%nat then s ++ u " " ++ str_of_Z (Z.of_nat i + 1) else s in
  Some {| title_ := numbered (tp_title tp);
          company := numbered (tp_company tp);
          location := tp_location tp;
          description := tp_description tp;
          url := u "https://example.com/job/" ++ str_of_Z (Z.of_nat i + 1);
          salary := tp_salary tp;
          remote := tp_remote tp;
          hybrid := tp_hybrid tp;
          days_ago := Z.of_nat i mod 7;
          source := u "Mock Data";
          match_score := None;
          matched_skills := None |}.

Definition _generate_enhanced_mock_jobs (search_query : SearchQuery)
    (max_results : Z) (parsed_resume : ParsedResume) : list JobListing :=
  omap (mock_job (job_templates search_query)) (seq 0 (Z.to_nat max_results)).

(** The text of a listing that the skills and the seniority words are
    looked up in, and the text of the resume's experience. *)
Definition job_text (job : JobListing) : str :=
  lower (title_ job ++ u " " ++ description job).

Definition experience_text (parsed_resume : ParsedResume) : str :=
  lower (join (u " ") (experience parsed_resume)).

Definition matched (parsed_resume : ParsedResume) (job : JobListing) : list str :=
  List.filter (fun skill => contains skill (job_text job))
    (map lower (skills parsed_resume)).

(** The four parts of the score, each from the score so far. *)
Definition add_skills (parsed_resume : ParsedResume) (job : JobListing)
    (score : pynum) : pynum :=
  let resume_skills := map lower (skills parsed_resume) in
  if nonempty resume_skills then
    let skill_score :=
      num_mul (true_div (Z.of_nat (length (matched parsed_resume job)))
                        (Z.of_nat (length resume_skills)))
              (PInt 40) in
    num_add score (num_min skill_score (PInt 40))
  else score.

Definition add_seniority (parsed_resume : ParsedResume) (job : JobListing)
    (score : pynum) : pynum :=
  if any_in seniority_words (job_text job) then
    if any_in seniority_words (experience_text parsed_resume)
    then num_add score (PInt 30)
    else score
  else num_add score (PInt 20).

Definition add_location (parsed_resume : ParsedResume) (job : JobListing)
    (score : pynum) : pynum :=
  if remote job then num_add score (PInt 20)
  else if contains (lower (resume_location parsed_resume)) (lower (location job))
       then num_add score (PInt 20)
  else score.

Definition add_company (job : JobListing) (score : pynum) : pynum :=
  if any_in company_words (lower (company job)) then num_add score (PInt 10)
  else score.

Definition job_score (parsed_resume : ParsedResume) (job : JobListing) : pynum :=
  add_company job
    (add_location parsed_resume job
      (add_seniority parsed_resume job
        (add_skills parsed_resume job (PInt 0)))).

Definition with_score (parsed_resume : ParsedResume) (job : JobListing) : JobListing :=
  {| title_ := title_ job;
     company := company job;
     location := location job;
     description := description job;
     url := url job;
     salary := salary job;
     remote := remote job;
     hybrid := hybrid job;
     days_ago := days_ago job;
     source := source job;
     match_score := Some (Z.min (py_int (job_score parsed_resume job)) 100);
     matched_skills := Some (firstn 5 (matched parsed_resume job)) |}.

Definition _calculate_match_scores (jobs : list JobListing)
    (parsed_resume : ParsedResume) : list JobListing :=
  map (with_score parsed_resume) jobs.

Definition cache_duration : pynum := PInt 3600.

(** The body of [search_jobs] between the cache check and the cache
    write: the providers in order, the synthetic listings when they gave
    nothing, and the scores. *)
Definition fetch_jobs (s : service) (env : call_env)
    (parsed_resume : ParsedResume) (search_query : SearchQuery) (max_results : Z)
  : list JobListing * service * list request :=
  let '(jobs, s, sent) :=
    if has_adzuna s && (0 <? max_results)%Z
    then _search_adzuna s env search_query max_results
    else ([], s, []) in
  let '(jobs, s, sent) :=
    if has_rapidapi s && (Z.of_nat (length jobs) <? max_results)%Z
    then let '(more, s, sent') :=
           _search_rapidapi s env search_query
             (max_results - Z.of_nat (length jobs)) in
         (jobs ++ more, s, sent ++ sent')
    else (jobs, s, sent) in
  let jobs :=
    if nonempty jobs then jobs
    else _generate_enhanced_mock_jobs search_query max_results parsed_resume in
  (_calculate_match_scores jobs parsed_resume, s, sent).

(** The cache check: the entry of the key when it is younger than
    [cache_duration]. *)
Definition cached (s : service) (env : call_env)
    (search_query : SearchQuery) (max_results : Z) : option (list JobListing) :=
  match cache s !! (query_hash search_query, max_results) with
  | Some (cached_data, timestamp) =>
      if qlt (fsub (t_check env) timestamp) (value cache_duration)
      then Some cached_data else None
  | None => None
  end.

(** [search_jobs]: the listings returned, the instance after the call and
    the requests sent. *)
Definition search_jobs (s : service) (env : call_env)
    (parsed_resume : ParsedResume) (search_query : SearchQuery) (max_results : Z)
  : list JobListing * service * list request :=
  match cached s env search_query max_results with
  | Some cached_data => (cached_data, s, [])
  | None =>
      let '(jobs, s, sent) :=
        fetch_jobs s env parsed_resume search_query max_results in
      let s := set_cache (<[(query_hash search_query, max_results)
                            := (jobs, t_store env)]> (cache s)) s in
      (slice_to max_results jobs, s, sent)
  end.

End Service.
End RealJobSearch.

(** ** [services/job_scraper.py] *)

Module JobScraper.
Import RealJobSearch.

(** [job_scraper.search_jobs]: the call of the instance inside a [try],
    given as what it does; an exception gives the one fallback listing. *)
Definition fallback_listing : JobListing :=
  {| title_ := u "Software Engineer";
     company := u "Tech Company";
     location := u "Remote";
     description := u "Software engineering position";
     url := u "#";
     salary := u "Not specified";
     remote := true;
     hybrid := false;
     days_ago := 1;
     source := u "Fallback";
     match_score := Some 50%Z;
     matched_skills := None |}.

Definition scraper_search_jobs (attempt : result (list JobListing)) : list JobListing :=
  match attempt with
  | inr jobs => jobs
  | inl _ => [fallback_listing]
  end.

End JobScraper.
Import RealJobSearch JobScraper.

(** ** What the statements speak of *)

Definition in_range (lo hi : Z) (n : pynum) : Prop :=
  (inject_Z lo <= value n)%Q /\ (value n <= inject_Z hi)%Q.

Definition score_in_range (job : JobListing) : Prop :=
  exists z, match_score job = Some z /\ (0 <= z <= 100)%Z.

Definition cache_scored (s : service) : Prop :=
  forall key jobs t, cache s !! key = Some (jobs, t) -> Forall score_in_range jobs.

(** The instances that calls of [search_jobs] lead to from [__init__]. *)
Inductive reachable {F : Float64} {U : PyUnicode} {D : DateLib}
    (query_hash : SearchQuery -> Z) : service -> Prop :=
| reach_init app_id app_key rapid_key t1 t2 :
    reachable query_hash (init app_id app_key rapid_key t1 t2)
| reach_search s env parsed_resume search_query max_results :
    reachable query_hash s ->
    reachable query_hash
      (search_jobs query_hash s env parsed_resume search_query max_results).1.2.

(** One of the words occurs in the text. *)
Definition mentions (words : list str) (text : str) : Prop :=
  exists w pre post, In w words /\ text = pre ++ w ++ post.

(** *** The two providers, side by side *)

Inductive provider := Adzuna | RapidAPI.

Definition api_name (p : provider) : string :=
  match p with Adzuna => "adzuna" | RapidAPI => "rapidapi" end.

Definition ceiling (p : provider) : Z :=
  match p with Adzuna => 100 | RapidAPI => 50 end.

Definition provider_time (p : provider) (env : call_env) : Q :=
  match p with Adzuna => t_adzuna env | RapidAPI => t_rapidapi env end.

Definition configured (p : provider) (s : service) : bool :=
  match p with Adzuna => has_adzuna s | RapidAPI => has_rapidapi s end.

Definition provider_search {F : Float64} {U : PyUnicode} {D : DateLib}
    (p : provider) (s : service) (env : call_env) (q : SearchQuery) (n : Z)
  : list JobListing * service * list request :=
  match p with
  | Adzuna => _search_adzuna s env q n
  | RapidAPI => _search_rapidapi s env q n
  end.

(** Calls of one provider in a row: what each returns and sends, and the
    instance at the end. *)
Fixpoint provider_calls {F : Float64} {U : PyUnicode} {D : DateLib}
    (p : provider) (s : service) (cs : list (call_env * SearchQuery * Z))
  : list (list JobListing * list request) * service :=
  match cs with
  | [] => ([], s)
  | (env, q, n) :: rest =>
      let '(jobs, s, sent) := provider_search p s env q n in
      let '(outs, s) := provider_calls p s rest in
      ((jobs, sent) :: outs, s)
  end.

Definition fresh_window {F : Float64} (now : Q) : rate_info :=
  {| calls := 0; reset_time := fadd now (to_float (PInt 3600)) |}.

(** *** Concrete calls *)

Definition sample_query : SearchQuery :=
  {| keywords := u "python"; query_location := []; experience_level := u "Any" |}.

Definition sample_resume : ParsedResume :=
  {| skills := [u "Python"; u "SQL"];
     experience := [u "5 years"; u "senior engineer"];
     resume_location := u "Boston, MA" |}.

Definition no_credentials : service := @init binary64 None None None 0 0.

Definition quiet_env : call_env :=
  {| t_check := 10; t_adzuna := 10; t_rapidapi := 10; t_store := 11;
     adzuna_http := HttpFailed; rapidapi_http := HttpFailed;
     local_now := fun _ => 0%Z |}.

Definition sample_hash (q : SearchQuery) : Z := 7.

Definition senior_listing : JobListing :=
  {| title_ := u "Senior Python Developer";
     company := u "Initech";
     location := u "Austin, TX";
     description := u "Build data pipelines.";
     url := u "https://example.com/1";
     salary := u "Not specified";
     remote := false;
     hybrid := false;
     days_ago := 2;
     source := u "Adzuna";
     match_score := None;
     matched_skills := None |}.

Definition at_ceiling : service :=
  {| cache := ∅;
     rate_limits := <["adzuna" := {| calls := 100; reset_time := 5000 |}]>
                    (<["rapidapi" := {| calls := 0; reset_time := 5000 |}]> ∅);
     has_adzuna := true;
     has_rapidapi := true |}.

Definition env_at (t : Q) (az : http_outcome AdzunaJob) : call_env :=
  {| t_check := t; t_adzuna := t; t_rapidapi := t; t_store := t;
     adzuna_http := az; rapidapi_http := HttpFailed;
     local_now := fun _ => 0%Z |}.

Definition rapid_only : service := @init binary64 None None (Some (u "key")) 0 0.

Definition adzuna_only : service :=
  @init binary64 (Some (u "id")) (Some (u "key")) None 0 0.

Definition record_a : JSearchJob :=
  {| js_title := u "Python Developer";
     js_employer := u "Initech";
     js_location := u "Austin, TX";
     js_description := u "Build data pipelines.";
     js_apply_link := u "https://example.com/a";
     js_salary_min := None;
     js_salary_max := None;
     js_is_remote := false;
     js_posted_at := None |}.

Definition record_b : JSearchJob :=
  {| js_title := u "Data Engineer";
     js_employer := u "Globex";
     js_location := u "Remote";
     js_description := u "Maintain the warehouse.";
     js_apply_link := u "https://example.com/b";
     js_salary_min := Some 90000%Z;
     js_salary_max := Some 120000%Z;
     js_is_remote := true;
     js_posted_at := None |}.

Definition first_call_env : call_env :=
  {| t_check := 1000; t_adzuna := 1000; t_rapidapi := 1000; t_store := 1001;
     adzuna_http := HttpFailed;
     rapidapi_http := HttpRecords [record_a; record_b];
     local_now := fun _ => 0%Z |}.

Definition second_call_env : call_env :=
  {| t_check := 1002; t_adzuna := 1002; t_rapidapi := 1002; t_store := 1003;
     adzuna_http := HttpFailed;
     rapidapi_http := HttpRecords [record_a; record_b];
     local_now := fun _ => 0%Z |}.

Definition no_skills_resume : ParsedResume :=
  {| skills := []; experience := []; resume_location := [] |}.

Definition tomorrow_record : AdzunaJob :=
  {| az_title := u "Python Developer";
     az_company := u "Initech";
     az_location := u "Austin, TX";
     az_description := u "Build data pipelines.";
     az_redirect_url := u "https://example.com/a";
     az_salary_min := None;
     az_salary_max := None;
     az_created := Some (u "2026-11-04") |}.

(** 2026-11-03 23:00:00, local time. *)
Definition late_evening : Z :=
  (days_from_civil 2026 11 3 * us_per_day + 23 * 3600 * 1000000)%Z.

Definition future_env : call_env :=
  {| t_check := 1000; t_adzuna := 1000; t_rapidapi := 1000; t_store := 1001;
     adzuna_http := HttpRecords [tomorrow_record];
     rapidapi_http := HttpFailed;
     local_now := fun _ => late_evening |}.


(** *** Texts with a skills section

    The header names of the specification, in any letter case; a list of
    items joined by commas, none of which holds a delimiter of the split;
    and what may follow the list. *)
Fixpoint ci_eqb (name h : str) : bool :=
  match name, h with
  | [], [] => true
  | l :: n', c :: h' => ci l c && ci_eqb n' h'
  | _, _ => false
  end.

Definition header_names : list str :=
  [u "skills"; u "technical skills"; u "core competencies"; u "expertise"; u "proficiencies"].

Definition is_header_name (hdr : str) : bool :=
  existsb (fun n => ci_eqb n hdr) header_names.

Definition is_lower_letter (l : char) : bool := (97 <=? l) && (l <=? 122).

(** An occurrence of a word in a text, in any letter case. *)
Definition ci_occurs (word text : str) : Prop :=
  exists pre h post, text = pre ++ h ++ post /\ ci_eqb word h = true.

(** The words of which every header holds one. *)
Definition header_stems : list str :=
  [u "skill"; u "competenc"; u "expertise"; u "proficiencie"].

(** *** The first way to match *)
Definition first_rest (r : regex) (s X : str) : Prop :=
  exists extras, rmatch r s = X :: extras.

Definition delimiter_free (item : str) : bool :=
  forallb (fun c => negb (mem_char skill_delims c)) item.

Definition blank (s : str) : bool := forallb space_or_colon s.

Definition ends_section (tail : str) : Prop :=
  tail = [] \/ exists rest, tail = nl :: nl :: rest.

Definition skills_section_text (hdr sep : str) (items : list str) (tail : str) : str :=
  hdr ++ sep ++ nl :: join [comma] items ++ tail.

Definition newline_free (s : str) : Prop := Forall (fun c => c <> nl) s.

(** No skills-section header begins within the first [n] characters. *)
Definition no_header_within (n : nat) (text : str) : Prop :=
  forall p w r, text = p ++ w ++ r -> lang lead_re w -> (n <= length p)%nat.

(** The same, by running the pattern at each of these positions. *)
Fixpoint no_match_within (n : nat) (text : str) : bool :=
  match n with
  | O => true
  | S n' =>
      match rmatch lead_re text, text with
      | [], _ :: r => no_match_within n' r
      | [], [] => true
      | _ :: _, _ => false
      end
  end.

Definition nl_after_run (B : str) : list str :=
  flat_map (rmatch (Chr (N.eqb nl))) (star_rests space_or_colon B).

Definition keyword_text : str :=
  u "Built services in Python, Java, SQL and Docker; Python expert, skilled in Kubernetes.".

Definition error_keys : gset string :=
  {["skills"; "education"; "experience"; "raw_text"]}.

Definition contact_keys : list string := ["name"; "email"; "phone"; "location"].

Definition sample_items : list str :=
  [u "Python"; u " SQL"; u " and"; u " C"; u " python"; u " * Go *"].

Definition sample_tail : str := [nl; nl] ++ u "EXPERIENCE".

Definition short_items : list str := [u "C"; u " Python"].

(** The first resume of [scripts/test_skills_extraction.py]. *)
Definition test_resume_1 : str :=
  [nl] ++ u "John Doe" ++ [nl] ++ u "john.doe@email.com | (555) 123-4567" ++ [nl]
  ++ u "New York, NY" ++ [nl; nl]
  ++ u "SKILLS" ++ [nl]
  ++ u "Python, JavaScript, React, Node.js, SQL, MongoDB, Docker, AWS, Git, Machine Learning"
  ++ [nl; nl]
  ++ u "EXPERIENCE" ++ [nl] ++ u "Senior Developer at Tech Corp" ++ [nl]
  ++ u "- Built scalable applications" ++ [nl] ++ u "- 5 years experience" ++ [nl; nl]
  ++ u "EDUCATION" ++ [nl] ++ u "B.Tech in Computer Science" ++ [nl].

(** The lines before the skills section in the first resume of
    [scripts/test_skills_extraction.py]. *)
Definition sample_preamble : str :=
  [nl] ++ u "John Doe" ++ [nl] ++ u "john.doe@email.com | (555) 123-4567" ++ [nl]
  ++ u "New York, NY" ++ [nl; nl].

(** ** [services/resume_parser.py], the other fields

    The two [re.findall] calls, the two [re.search] calls and the name
    heuristic of [parse_resume_to_json]. *)

Module ResumeFields.

(** The classes [\d] and [\w] of a [str] pattern: the decimal digits and
    the word characters of Unicode, which are those of the tables of the
    interpreter; below 128 they are [0]-[9], and the letters, the digits
    and the underscore. *)
Class PyRe := {
  is_decimal : char -> bool;
  is_word : char -> bool;
  is_decimal_ascii : forall c, c < 128 -> is_decimal c = (48 <=? c) && (c <=? 57);
  is_word_ascii : forall c, c < 128 ->
    is_word c = is_ascii_letter c || ((48 <=? c) && (c <=? 57)) || (c =? 95)
}.

(** [(B\.Sc|M\.Sc|B\.Tech|M\.Tech|PhD|MBA|Bachelor|Master|Associate)] under
    [re.I] *)
Definition education_re : regex :=
  Alt (lit_ci (u "b.sc")) (Alt (lit_ci (u "m.sc")) (Alt (lit_ci (u "b.tech"))
 (Alt (lit_ci (u "m.tech")) (Alt (lit_ci (u "phd")) (Alt (lit_ci (u "mba"))
 (Alt (lit_ci (u "bachelor")) (Alt (lit_ci (u "master"))
      (lit_ci (u "associate"))))))))).

(** [(\d+\+?\s?years|internship|project|worked at|experience)] under [re.I] *)
Definition experience_re {R : PyRe} : regex :=
  Alt (Cat (Plus is_decimal)
        (Cat (Opt (Chr (N.eqb 43))) (Cat (Opt (Chr is_space)) (lit_ci (u "years")))))
 (Alt (lit_ci (u "internship")) (Alt (lit_ci (u "project"))
 (Alt (lit_ci (u "worked at")) (lit_ci (u "experience"))))).

(** [re.findall(pattern, text)] for a pattern that is one group: the
    matches from left to right, each search starting where the last match
    ended. [skip] counts the characters of the last match that are still
    ahead; after a match of no character the search moves on by one. *)
Fixpoint findall_from (r : regex) (skip : nat) (s : str) {struct s} : list str :=
  match skip with
  | S k => match s with
           | [] => []
           | _ :: s' => findall_from r k s'
           end
  | O =>
      match rmatch r s with
      | rest :: _ =>
          let n := (length s - length rest)%nat in
          firstn n s :: match s with
                        | [] => []
                        | _ :: s' => findall_from r (pred n) s'
                        end
      | [] => match s with
              | [] => []
              | _ :: s' => findall_from r 0 s'
              end
      end
  end.

Definition findall (r : regex) (s : str) : list str := findall_from r 0 s.

(** [re.search(pattern, text)], projected on [group(0)]: the first way to
    match at the leftmost position where there is one. *)
Fixpoint search (r : regex) (s : str) : option str :=
  match rmatch r s with
  | rest :: _ => Some (firstn (length s - length rest) s)
  | [] => match s with
          | [] => None
          | _ :: s' => search r s'
          end
  end.

Section Patterns.
Context {R : PyRe}.

(** [[\w\.-]] *)
Definition email_char (c : char) : bool := is_word c || (c =? 46) || (c =? 45).

(** [[\w\.-]+@[\w\.-]+\.\w+] *)
Definition email_re : regex :=
  Cat (Plus email_char) (Cat (Chr (N.eqb 64))
    (Cat (Plus email_char) (Cat (Chr (N.eqb 46)) (Plus is_word)))).

(** [email_match.group(0) if email_match else ""] *)
Definition find_email (raw_text : str) : str :=
  match search email_re raw_text with
  | Some email => email
  | None => []
  end.

(** [[-.\s]?] *)
Definition phone_sep_char (c : char) : bool := (c =? 45) || (c =? 46) || is_space c.
Definition phone_sep : regex := Opt (Chr phone_sep_char).

(** [\d{3}], [\d{4}] and the greedy [\d{1,3}] *)
Definition digits3 : regex := Cat (Chr is_decimal) (Cat (Chr is_decimal) (Chr is_decimal)).
Definition digits4 : regex := Cat (Chr is_decimal) digits3.
Definition digits1to3 : regex :=
  Cat (Chr is_decimal) (Opt (Cat (Chr is_decimal) (Opt (Chr is_decimal)))).

(** [(\+?\d{1,3}[-.\s]?)?(\(?\d{3}\)?[-.\s]?)?\d{3}[-.\s]?\d{4}] *)
Definition phone_re : regex :=
  Cat (Opt (Cat (Opt (Chr (N.eqb 43))) (Cat digits1to3 phone_sep)))
 (Cat (Opt (Cat (Opt (Chr (N.eqb 40)))
                (Cat digits3 (Cat (Opt (Chr (N.eqb 41))) phone_sep))))
      (Cat digits3 (Cat phone_sep digits4))).

Definition find_phone (raw_text : str) : str :=
  match search phone_re raw_text with
  | Some phone => phone
  | None => []
  end.

End Patterns.

(** The line boundaries of [str.splitlines]. *)
Definition is_linebreak (c : char) : bool :=
  ((10 <=? c) && (c <=? 13)) || ((0x1c <=? c) && (c <=? 0x1e))
  || (c =? 0x85) || (c =? 0x2028) || (c =? 0x2029).

(** [s.splitlines()]: a carriage return and the line feed after it are one
    boundary, and a boundary at the end starts no line. *)
Fixpoint splitlines (s : str) : list str :=
  match s with
  | [] => []
  | c :: r =>
      if is_linebreak c then
        [] :: match r with
              | d :: r' => if (c =? 13) && (d =? 10) then splitlines r' else splitlines r
              | [] => []
              end
      else match splitlines r with
           | h :: t => (c :: h) :: t
           | [] => [[c]]
           end
  end.

(** [[l.strip() for l in raw_text.splitlines() if l.strip()]] *)
Definition stripped_lines (raw_text : str) : list str :=
  List.filter nonempty (map strip (splitlines raw_text)).

(** [name[:\-]\s*] under [(?i)], what precedes group 1 of the label
    pattern, and [.], any character but the line feed. *)
Definition name_label_re : regex :=
  Cat (lit_ci (u "name")) (Cat (Chr (fun c => (c =? colon) || (c =? 45))) (Star is_space)).

Definition not_newline (c : char) : bool := negb (c =? nl).

Fixpoint run_of (p : char -> bool) (s : str) : str :=
  match s with
  | c :: r => if p c then c :: run_of p r else []
  | [] => []
  end.

(** Group 1 of [re.match(r"(?i)name[:\-]\s*(.+)", l)]. *)
Definition name_label (l : str) : option str :=
  first_some (fun rest => let g := run_of not_newline rest in
                          if nonempty g then Some g else None)
    (rmatch name_label_re l).

(** [len(l.split())] *)
Fixpoint count_tokens (in_token : bool) (s : str) : nat :=
  match s with
  | [] => 0
  | c :: r => if is_space c then count_tokens false r
              else ((if in_token then 0 else 1) + count_tokens true r)%nat
  end.

(** The test of the second loop. *)
Definition plain_line {R : PyRe} (l : str) : bool :=
  negb (contains (u "@") l || existsb is_decimal l)
  && (1 <=? count_tokens false l)%nat && (count_tokens false l <=? 4)%nat.

(** The name heuristic: the first of the first eight lines with a name
    label, or else the first plain line of the first six. *)
Definition find_name {R : PyRe} (raw_text : str) : str :=
  let lines := stripped_lines raw_text in
  let name := match first_some name_label (firstn 8 lines) with
              | Some g => strip g
              | None => []
              end in
  if nonempty name then name
  else match List.find plain_line (firstn 6 lines) with
       | Some l => l
       | None => []
       end.

End ResumeFields.
Import ResumeFields.

(** The two classes on ASCII texts. *)
Definition ascii_re : PyRe :=
  {| is_decimal := fun c => (48 <=? c) && (c <=? 57);
     is_word := fun c => is_ascii_letter c || ((48 <=? c) && (c <=? 57)) || (c =? 95);
     is_decimal_ascii := fun _ _ => eq_refl;
     is_word_ascii := fun _ _ => eq_refl |}.

(** The degree names of the education pattern. *)
Definition degree_names : list str :=
  [u "b.sc"; u "m.sc"; u "b.tech"; u "m.tech"; u "phd"; u "mba";
   u "bachelor"; u "master"; u "associate"].

(** The patterns of the parser; the location heuristic, whose second
    pattern holds word boundaries, is left as a computation on the text. *)
Definition parser_patterns {R : PyRe} (location_of : str -> result str) : field_patterns :=
  {| findall_education := fun text => ret (findall education_re text);
     findall_experience := fun text => ret (findall experience_re text);
     search_email := fun text => ret (find_email text);
     search_phone := fun text => ret (find_phone text);
     name_heuristic := fun text => ret (find_name text);
     location_heuristic := location_of |}.

(** What [_calculate_match_scores] reads in a mapping that the parser
    returned: [get] with its defaults. *)
Definition resume_of (d : gmap string pyval) : ParsedResume :=
  {| skills := match d !! "skills" with Some (VList l) => l | _ => [] end;
     experience := match d !! "experience" with Some (VList l) => l | _ => [] end;
     resume_location := match d !! "location" with Some (VStr s) => s | _ => [] end |}.

Definition ascii_text (s : str) : Prop := Forall (fun c => c < 128) s.

(** The pairs of letters [se], [le] and [ci], of which each seniority
    word holds one, and the texts that hold none of them. *)
Definition seniority_pair (a b : char) : bool :=
  ((a =? 115) && (b =? 101)) || ((a =? 108) && (b =? 101))
  || ((a =? 99) && (b =? 105)).

Fixpoint pair_free (s : str) : bool :=
  match s with
  | a :: (b :: _) as r => negb (seniority_pair a b) && pair_free r
  | _ => true
  end.

(** A character that is in no such pair. *)
Definition neutral (c : char) : bool :=
  negb ((c =? 115) || (c =? 108) || (c =? 99) || (c =? 101) || (c =? 105)).

(** A part of a text: what [x in s] tests. *)
Definition part_of (x s : str) : Prop := exists a b, s = a ++ x ++ b.


(** The characters of a telephone number. *)
Definition phone_char {R : PyRe} (c : char) : bool :=
  (c =? 43) || (c =? 40) || (c =? 41) || phone_sep_char c || is_decimal c.

(** The sequence fields of the parsed resume. *)
Definition sequence_keys : list string := ["skills"; "education"; "experience"].

(** What [uniq] leaves: entries that are trimmed, whose lowered forms are
    not empty and differ from one another. *)
Definition deduplicated {U : PyUnicode} (l : list str) : Prop :=
  NoDup (map lower l) /\ Forall (fun y => strip y = y /\ lower y <> []) l.

(** ** [agents/jobsearch_agent.py] *)

Module JobSearchAgent.

(** The query and the resume that [search_jobs_legacy] makes of a job
    description. *)
Definition legacy_query (jd_text : str) : SearchQuery :=
  {| keywords := slice_to 100 jd_text;
     query_location := [];
     experience_level := u "Any" |}.

Definition legacy_resume : ParsedResume :=
  {| skills := []; experience := []; resume_location := [] |}.

Section Agent.
Context {F : Float64} {U : PyUnicode} {D : DateLib}.
Context (query_hash : SearchQuery -> Z).

(** [search_jobs_legacy(jd_text)] on a [str]: the wrapper of
    [job_scraper.py] around the call of the instance, with the default
    count of the wrapper. *)
Definition search_jobs_legacy (s : service) (env : call_env) (jd_text : str)
  : list JobListing * service * list request :=
  let '(jobs, s, sent) :=
    search_jobs query_hash s env legacy_resume (legacy_query jd_text) 20 in
  (scraper_search_jobs (ret jobs), s, sent).

End Agent.
End JobSearchAgent.
Import JobSearchAgent.

(** ** Dates with a time

    A library that reads the timestamps of the providers, for concrete
    calls. *)

Module IsoDate.

(** Two ASCII digits. *)
Definition two_digits (s : str) : option Z :=
  if (length s =? 2)%nat then digits_value 0 s else None.

(** [HH:MM:SS], in microseconds. *)
Definition ascii_time (s : str) : option Z :=
  match split_on (N.eqb colon) s with
  | [hs; ms; ss] =>
      match two_digits hs, two_digits ms, two_digits ss with
      | Some h, Some m, Some sec =>
          if ((h <? 24) && (m <? 60) && (sec <? 60))%Z
          then Some ((h * 3600 + m * 60 + sec) * 1000000)%Z else None
      | _, _, _ => None
      end
  | _ => None
  end.

(** [+HH:MM] or [-HH:MM], in microseconds: an offset of less than a
    day. *)
Definition ascii_offset (s : str) : option Z :=
  match s with
  | sign :: r =>
      match split_on (N.eqb colon) r with
      | [hs; ms] =>
          match two_digits hs, two_digits ms with
          | Some h, Some m =>
              if (h * 3600 + m * 60 <? 86400)%Z
              then if sign =? 43 then Some ((h * 3600 + m * 60) * 1000000)%Z
                   else if sign =? 45 then Some (- ((h * 3600 + m * 60) * 1000000))%Z
                   else None
              else None
          | _, _ => None
          end
      | _ => None
      end
  | [] => None
  end.

(** [datetime.fromisoformat] on date-times written with ASCII digits as
    [YYYY-MM-DD], any one character, and [HH:MM:SS], naive, or followed by
    an offset [+HH:MM] or [-HH:MM], aware.  The other forms that Python
    reads (a date alone, a shorter time, fractions of a second) are not
    read here. *)
Definition ascii_fromisoformat (s : str) : option datetime :=
  match skipn 10 s with
  | _ :: rest =>
      match ascii_strptime_ymd (firstn 10 s), ascii_time (firstn 8 rest) with
      | Some d, Some t =>
          match skipn 8 rest with
          | [] => Some (Naive (d + t))
          | off => option_map (fun o => Aware (d + t - o)) (ascii_offset off)
          end
      | _, _ => None
      end
  | [] => None
  end.

(** A library for such date-times and for date-only strings. *)
Definition iso_lib : DateLib :=
  {| fromisoformat := ascii_fromisoformat; strptime_ymd := ascii_strptime_ymd |}.

End IsoDate.
Import IsoDate.

(** The date-time that [_calculate_days_ago] makes of a text. *)
Definition job_date {D : DateLib} (date_str : str) : option datetime :=
  if contains (u "T") date_str
  then fromisoformat (replace_char 90 (u "+00:00") date_str)
  else option_map Naive (strptime_ymd date_str).

(** *** What the further statements speak of *)

(** The request of a provider for a query and a count. *)
Definition provider_request (p : provider) (q : SearchQuery) (n : Z) : request :=
  match p with
  | Adzuna =>
      GetAdzuna (Z.min n 50) (keywords q) (query_location q)
        (if nonempty (experience_level q)
         then Some (_map_experience_to_adzuna (experience_level q)) else None)
  | RapidAPI =>
      GetJSearch (keywords q)
        (if nonempty (query_location q) then Some (query_location q) else None)
  end.

(** What a request brought: nothing when it failed, the listings of the
    answer otherwise (none when the answer is misshapen). *)
Definition provider_answer {U : PyUnicode} {D : DateLib}
    (p : provider) (env : call_env) : option (list JobListing) :=
  match p with
  | Adzuna =>
      match adzuna_http env with
      | HttpFailed => None
      | HttpRecords records =>
          Some (imap (fun i job => adzuna_listing (local_now env i) job) records)
      | HttpMisshapen => Some []
      end
  | RapidAPI =>
      match rapidapi_http env with
      | HttpFailed => None
      | HttpRecords records =>
          Some (imap (fun i job => jsearch_listing (local_now env i) job) records)
      | HttpMisshapen => Some []
      end
  end.

Definition counter_bounded (p : provider) (s : service) : Prop :=
  exists rate, rate_limits s !! api_name p = Some rate
               /\ (0 <= calls rate <= ceiling p)%Z.

Definition other_provider (p : provider) : provider :=
  match p with Adzuna => RapidAPI | RapidAPI => Adzuna end.

Definition provider_failed (p : provider) (env : call_env) : Prop :=
  match p with
  | Adzuna => adzuna_http env = HttpFailed
  | RapidAPI => rapidapi_http env = HttpFailed
  end.

Definition is_mock (job : JobListing) : Prop := source job = u "Mock Data".

Definition provider_source (p : provider) : str :=
  match p with Adzuna => u "Adzuna" | RapidAPI => u "JSearch" end.

Definition from_provider (p : provider) (job : JobListing) : Prop :=
  source job = provider_source p.

(** All synthetic, or the listings of Adzuna followed by those of JSearch. *)
Definition sources_in_order (jobs : list JobListing) : Prop :=
  Forall is_mock jobs
  \/ exists a j, jobs = a ++ j
       /\ Forall (from_provider Adzuna) a /\ Forall (from_provider RapidAPI) j.

(** The listing before the scores were added. *)
Definition same_listing (job job' : JobListing) : Prop :=
  title_ job' = title_ job /\ company job' = company job
  /\ location job' = location job /\ description job' = description job
  /\ url job' = url job /\ salary job' = salary job
  /\ remote job' = remote job /\ hybrid job' = hybrid job
  /\ days_ago job' = days_ago job /\ source job' = source job.

(** The score of a listing for a resume that holds nothing. *)
Definition bare_score {U : PyUnicode} (job : JobListing) : Z :=
  ((if any_in seniority_words (job_text job) then 0 else 20)
   + 20
   + (if any_in company_words (lower (company job)) then 10 else 0))%Z.

(** *** Further concrete calls *)

Definition both_configured : service :=
  @init binary64 (Some (u "id")) (Some (u "key")) (Some (u "key")) 0 0.

Definition failing_calls : list (call_env * SearchQuery * Z) :=
  [(env_at 10 HttpFailed, sample_query, 5%Z);
   (env_at 20 HttpFailed, sample_query, 5%Z);
   (env_at 3600 HttpFailed, sample_query, 5%Z)].

Definition after_first_call : service :=
  (@search_jobs binary64 ascii_unicode date_only_lib sample_hash
     rapid_only first_call_env sample_resume sample_query 1).1.2.

Definition first_fetch : list JobListing :=
  (@fetch_jobs binary64 ascii_unicode date_only_lib
     rapid_only first_call_env sample_resume sample_query 1).1.1.

Definition case_variants : list str :=
  [u " Python "; u "SQL"; u "python"; u "  "; u "sql "].

(** * Properties *)

Example strip_ex : strip (u "  a b " ++ [nl]) = u "a b".
Proof. reflexivity. Qed.

Example scenario_skills :
  uniq ascii_lower (_extract_skills_from_text scenario_text)
  = [u "Python"; u "SQL"; u "Docker"].
Proof. vm_compute. reflexivity. Qed.

Example test_resume_1_skills :
  uniq ascii_lower (_extract_skills_from_text test_resume_1)
  = [u "Python"; u "JavaScript"; u "React"; u "Node.js"; u "SQL"; u "MongoDB";
     u "Docker"; u "AWS"; u "Git"; u "Machine Learning"].
Proof. vm_compute. reflexivity. Qed.

(** ** The matcher against the language of a pattern *)

Section Matcher.

Lemma star_rests_self p s : In s (star_rests p s).
Proof.
  induction s as [|c r IH]; simpl; [now left|].
  destruct (p c); [apply in_or_app; right|]; now left.
Qed.

Lemma star_rests_sound p s rest :
  In rest (star_rests p s) ->
  exists w, s = w ++ rest /\ Forall (fun c => p c = true) w.
Proof.
  revert rest. induction s as [|c r IH]; simpl; intros rest Hin.
  - destruct Hin as [<-|[]]. now exists [].
  - destruct (p c) eqn:Hc.
    + apply in_app_or in Hin. destruct Hin as [Hin|[<-|[]]].
      * destruct (IH _ Hin) as (w & -> & Hw).
        exists (c :: w). split; [reflexivity|now constructor].
      * now exists [].
    + destruct Hin as [<-|[]]. now exists [].
Qed.

Lemma star_rests_complete p w rest :
  Forall (fun c => p c = true) w -> In rest (star_rests p (w ++ rest)).
Proof.
  induction 1 as [|c w Hc _ IH]; simpl.
  - apply star_rests_self.
  - rewrite Hc. apply in_or_app. now left.
Qed.

Theorem rmatch_sound r : forall s rest,
  In rest (rmatch r s) -> exists w, s = w ++ rest /\ lang r w.
Proof.
  induction r as [|p|a IHa b IHb|a IHa b IHb|a IHa|p|p]; simpl; intros s rest Hin.
  - destruct Hin as [<-|[]]. now exists [].
  - destruct s as [|c s']; [destruct Hin|].
    destruct (p c) eqn:Hc; [|destruct Hin].
    destruct Hin as [<-|[]]. exists [c]. split; [reflexivity|]. now exists c.
  - apply in_flat_map in Hin. destruct Hin as (mid & Hmid & Hrest).
    destruct (IHa _ _ Hmid) as (x & -> & Hx).
    destruct (IHb _ _ Hrest) as (y & -> & Hy).
    exists (x ++ y). split; [now rewrite <- app_assoc|]. now exists x, y.
  - apply in_app_or in Hin. destruct Hin as [Hin|Hin].
    + destruct (IHa _ _ Hin) as (w & -> & Hw). exists w. auto.
    + destruct (IHb _ _ Hin) as (w & -> & Hw). exists w. auto.
  - apply in_app_or in Hin. destruct Hin as [Hin|[<-|[]]].
    + destruct (IHa _ _ Hin) as (w & -> & Hw). exists w. auto.
    + exists []. auto.
  - now apply star_rests_sound.
  - destruct s as [|c s']; [destruct Hin|].
    destruct (p c) eqn:Hc; [|destruct Hin].
    destruct (star_rests_sound _ _ _ Hin) as (w & -> & Hw).
    exists (c :: w). repeat split; [discriminate|now constructor].
Qed.

Theorem rmatch_complete r : forall w rest,
  lang r w -> In rest (rmatch r (w ++ rest)).
Proof.
  induction r as [|p|a IHa b IHb|a IHa b IHb|a IHa|p|p]; simpl; intros w rest Hw.
  - subst w. now left.
  - destruct Hw as (c & -> & Hc). simpl. rewrite Hc. now left.
  - destruct Hw as (x & y & -> & Hx & Hy). apply in_flat_map.
    exists (y ++ rest). split.
    + rewrite <- app_assoc. now apply IHa.
    + now apply IHb.
  - apply in_or_app. destruct Hw; [left; now apply IHa|right; now apply IHb].
  - apply in_or_app. destruct Hw as [->|Hw]; [right; now left|left; now apply IHa].
  - now apply star_rests_complete.
  - destruct Hw as [Hne Hw]. destruct Hw as [|c w Hc Hw]; [congruence|].
    simpl. rewrite Hc. now apply star_rests_complete.
Qed.

Lemma first_some_cons {A B} (f : A -> option B) x l y :
  f x = Some y -> first_some f (x :: l) = Some y.
Proof. intros H. simpl. now rewrite H. Qed.

Lemma first_some_None {A B} (f : A -> option B) l :
  first_some f l = None <-> forall x, In x l -> f x = None.
Proof.
  induction l as [|x l IH]; simpl.
  - split; [intros _ ? []|reflexivity].
  - destruct (f x) eqn:Hx.
    + split; [discriminate|]. intros H. rewrite <- Hx. apply H. now left.
    + rewrite IH. split.
      * intros H y [<-|Hy]; auto.
      * intros H y Hy. apply H. now right.
Qed.

(** A lazy group before a condition that holds at the end always matches. *)
Lemma lazy_until_total stop : stop [] = true ->
  forall s, exists g, lazy_until stop s = Some g.
Proof.
  intros Hend s. induction s as [|c r [g IH]]; simpl.
  - rewrite Hend. eauto.
  - destruct (stop (c :: r)); [eauto|]. rewrite IH. simpl. eauto.
Qed.

Lemma lazy_until_app stop body tail :
  stop tail = true ->
  (forall b1 c b2, body = b1 ++ c :: b2 -> stop (c :: b2 ++ tail) = false) ->
  lazy_until stop (body ++ tail) = Some body.
Proof.
  intros Htail. induction body as [|c b IH]; intros Hbody.
  - simpl. destruct tail; simpl; now rewrite Htail.
  - simpl. rewrite (Hbody [] c b eq_refl). rewrite IH; [reflexivity|].
    intros b1 c' b2 ->. apply (Hbody (c :: b1)). reflexivity.
Qed.

End Matcher.

Lemma section_end_nil : section_end [] = true.
Proof. reflexivity. Qed.

Lemma match_at_None s : match_at s = None <-> rmatch lead_re s = [].
Proof.
  unfold match_at. split.
  - intros H. destruct (rmatch lead_re s) as [|x l]; [reflexivity|].
    simpl in H. destruct (lazy_until_total _ section_end_nil x) as [g Hg].
    now rewrite Hg in H.
  - now intros ->.
Qed.

Lemma skills_section_match_None s :
  skills_section_match s = None <-> ~ contains_skills_header s.
Proof.
  induction s as [|c r IH].
  - simpl. split.
    + intros _ (pre & w & post & Heq & Hw).
      symmetry in Heq. apply app_eq_nil in Heq as [-> Heq].
      apply app_eq_nil in Heq as [-> ->].
      pose proof (rmatch_complete lead_re [] [] Hw) as Hin. destruct Hin.
    + reflexivity.
  - cbn [skills_section_match]. destruct (match_at (c :: r)) eqn:Hm.
    + split; [discriminate|]. intros Hno. exfalso. apply Hno.
      assert (Hne : rmatch lead_re (c :: r) <> []).
      { intros Hnil. apply match_at_None in Hnil. congruence. }
      destruct (rmatch lead_re (c :: r)) as [|rest l] eqn:Hr; [congruence|].
      destruct (rmatch_sound lead_re (c :: r) rest) as (w & Heq & Hw).
      { rewrite Hr. now left. }
      exists [], w, rest. now split.
    + rewrite IH. apply match_at_None in Hm. split.
      * intros Hno (pre & w & post & Heq & Hw). destruct pre as [|c' pre].
        -- simpl in Heq. pose proof (rmatch_complete lead_re w post Hw) as Hin.
           rewrite <- Heq, Hm in Hin. destruct Hin.
        -- injection Heq as -> ->. apply Hno. now exists pre, w, post.
      * intros Hno (pre & w & post & -> & Hw). apply Hno.
        now exists (c :: pre), w, post.
Qed.


(** ** [str.strip] *)

Section Strip.
Variable p : char -> bool.

Lemma lstrip_by_idem s : lstrip_by p (lstrip_by p s) = lstrip_by p s.
Proof.
  induction s as [|c r IH]; simpl; [reflexivity|].
  destruct (p c) eqn:Hc; [exact IH|]. simpl. now rewrite Hc.
Qed.

Lemma lstrip_by_app_stop l c m :
  p c = false -> lstrip_by p (l ++ c :: m) = lstrip_by p l ++ c :: m.
Proof.
  intros Hc. induction l as [|a l IH]; simpl.
  - now rewrite Hc.
  - destruct (p a); [exact IH|reflexivity].
Qed.

Lemma rstrip_by_cons_stop c t :
  p c = false -> rstrip_by p (c :: t) = c :: rstrip_by p t.
Proof.
  intros Hc. unfold rstrip_by. simpl.
  rewrite lstrip_by_app_stop by exact Hc.
  rewrite rev_app_distr. reflexivity.
Qed.

Lemma rstrip_by_idem t : rstrip_by p (rstrip_by p t) = rstrip_by p t.
Proof.
  unfold rstrip_by. rewrite rev_involutive, lstrip_by_idem. reflexivity.
Qed.

Lemma lstrip_by_head s :
  lstrip_by p s = [] \/ exists c t, lstrip_by p s = c :: t /\ p c = false.
Proof.
  induction s as [|c r IH]; simpl; [now left|].
  destruct (p c) eqn:Hc; [exact IH|]. right. now exists c, r.
Qed.

Lemma strip_by_idem s : strip_by p (strip_by p s) = strip_by p s.
Proof.
  unfold strip_by.
  destruct (lstrip_by_head s) as [->|(c & t & -> & Hc)]; [reflexivity|].
  rewrite rstrip_by_cons_stop by exact Hc. simpl. rewrite Hc.
  rewrite <- rstrip_by_cons_stop by exact Hc. apply rstrip_by_idem.
Qed.

Lemma lstrip_by_length s : (length (lstrip_by p s) <= length s)%nat.
Proof.
  induction s as [|c r IH]; simpl; [lia|]. destruct (p c); simpl; lia.
Qed.

Lemma strip_by_length s : (length (strip_by p s) <= length s)%nat.
Proof.
  unfold strip_by, rstrip_by. rewrite length_rev.
  etransitivity; [apply lstrip_by_length|]. rewrite length_rev.
  apply lstrip_by_length.
Qed.

End Strip.

(** ** [uniq] *)

Section UniqFacts.
Context {U : PyUnicode}.

Lemma uniq_loop_idem seq : forall seen,
  uniq_loop lower seen (uniq_loop lower seen seq) = uniq_loop lower seen seq.
Proof.
  induction seq as [|x rest IH]; intros seen; [reflexivity|].
  cbn [uniq_loop].
  destruct (nonempty (lower (strip x)) && negb (bool_decide (lower (strip x) ∈ seen)))
    eqn:Hk.
  - assert (Hst : strip (strip x) = strip x) by apply strip_by_idem.
    cbn [uniq_loop]. rewrite !Hst, Hk. f_equal. apply IH.
  - apply IH.
Qed.

Lemma uniq_loop_length_bound n seq : forall seen,
  Forall (fun s => (length s <= n)%nat) seq ->
  Forall (fun s => (length s <= n)%nat) (uniq_loop lower seen seq).
Proof.
  induction seq as [|x rest IH]; intros seen Hall; [constructor|].
  inversion Hall as [|? ? Hx Hrest]; subst. cbn [uniq_loop].
  destruct (nonempty _ && _).
  - constructor; [|now apply IH].
    etransitivity; [apply strip_by_length|exact Hx].
  - now apply IH.
Qed.

(** The keys of the entries kept are pairwise different and new. *)
Lemma uniq_loop_keys seq : forall seen,
  NoDup (map (fun y => lower (strip y)) (uniq_loop lower seen seq))
  /\ Forall (fun y => (lower (strip y) ∉ seen) /\ lower (strip y) <> [])
       (uniq_loop lower seen seq).
Proof.
  induction seq as [|x rest IH]; intros seen; [split; constructor|].
  cbn [uniq_loop].
  destruct (nonempty (lower (strip x))) eqn:Hne; cbn [andb]; [|apply IH].
  destruct (bool_decide (lower (strip x) ∈ seen)) eqn:Hin; cbn [negb]; [apply IH|].
  apply bool_decide_eq_false in Hin.
  destruct (IH ({[lower (strip x)]} ∪ seen)) as [Hnd Hall].
  assert (Hst : strip (strip x) = strip x) by apply strip_by_idem.
  split.
  - cbn [map]. rewrite Hst. constructor; [|exact Hnd].
    intros Hmem. apply list_elem_of_In, in_map_iff in Hmem as (y & Hy & Hyin).
    rewrite Forall_forall in Hall. destruct (Hall y) as [Hnot _].
    { now apply list_elem_of_In. }
    apply Hnot. rewrite Hy. apply elem_of_union. left. now apply elem_of_singleton.
  - constructor.
    + rewrite Hst. split; [exact Hin|]. intros Heq. now rewrite Heq in Hne.
    + eapply Forall_impl; [exact Hall|]. cbn. intros y [Hy1 Hy2].
      split; [|exact Hy2]. intros Hy. apply Hy1. apply elem_of_union. now right.
Qed.

End UniqFacts.

(** ** Claims on the field extractor *)

(** C8. [dedupe] (the [uniq] of [parse_resume_to_json]) is idempotent: on
    every sequence of strings, applying it twice gives what applying it once
    gives, whatever [str.lower] is. *)
Theorem uniq_idempotent {U : PyUnicode} (seq : list str) :
  uniq lower (uniq lower seq) = uniq lower seq.
Proof. apply uniq_loop_idem. Qed.

(** C2. On a text that contains no skills-section header, the skill
    extraction returns the empty sequence, and so does the [skills] entry of
    the parsed resume, whatever else the text holds. *)
Theorem no_header_no_skills {U : PyUnicode} (fp : field_patterns) (text : str) :
  ~ contains_skills_header text ->
  _extract_skills_from_text text = []
  /\ extractSkills text = []
  /\ exists d, parse_resume_to_json fp (VStr text) = ret d
               /\ d !! "skills" = Some (VList []).
Proof.
  intros Hno. apply skills_section_match_None in Hno.
  assert (He : _extract_skills_from_text text = []).
  { unfold _extract_skills_from_text. now rewrite Hno. }
  split; [exact He|]. split; [unfold extractSkills; now rewrite He|].
  unfold parse_resume_to_json.
  destruct (try_block fp (VStr text)) as [e|d] eqn:Ht; cbn [try_except].
  - eexists. split; [reflexivity|]. by simplify_map_eq.
  - exists d. split; [reflexivity|].
    cbn in Ht. rewrite He in Ht. cbn in Ht.
    repeat match type of Ht with
    | bind ?m _ = _ => destruct m; cbn [bind] in Ht; [discriminate Ht|]
    end.
    injection Ht as <-. by simplify_map_eq.
Qed.

Lemma no_header_no_skills_witness :
  ~ contains_skills_header keyword_text
  /\ _extract_skills_from_text keyword_text = []
  /\ @extractSkills ascii_unicode keyword_text = []
  /\ exists d, @parse_resume_to_json ascii_unicode blank_patterns (VStr keyword_text) = ret d
               /\ d !! "skills" = Some (VList []).
Proof.
  assert (H : ~ contains_skills_header keyword_text).
  { apply skills_section_match_None. vm_compute. reflexivity. }
  split; [exact H|].
  exact (@no_header_no_skills ascii_unicode blank_patterns keyword_text H).
Defined.

(** A text without any of the header words has no header. *)
Lemma lang_lit_ci w : forall x, lang (lit_ci w) x -> ci_eqb w x = true.
Proof.
  induction w as [|l w IH]; intros x; cbn [lit_ci lang].
  - now intros ->.
  - intros (a & b & -> & (c & -> & Hc) & Hb). cbn [app ci_eqb].
    now rewrite Hc, (IH _ Hb).
Qed.

Lemma header_has_stem h :
  lang header_re h -> exists stem, In stem header_stems /\ ci_occurs stem h.
Proof.
  unfold header_re, skills_re. cbn [lang].
  intros [H|[H|[H|[H|H]]]].
  - destruct H as (x & y & -> & Hx & _). exists (u "skill").
    split; [now left|]. exists [], x, y. split; [reflexivity|now apply lang_lit_ci].
  - destruct H as (x & y & -> & _ & (z & t & -> & _ & (a & b & -> & Ha & _))).
    exists (u "skill"). split; [now left|]. exists (x ++ z), a, b.
    split; [now rewrite <- !app_assoc|now apply lang_lit_ci].
  - destruct H as (x & y & -> & _ & (z & t & -> & _ & (a & b & -> & Ha & _))).
    exists (u "competenc"). split; [right; now left|]. exists (x ++ z), a, b.
    split; [now rewrite <- !app_assoc|now apply lang_lit_ci].
  - exists (u "expertise"). split; [right; right; now left|]. exists [], h, [].
    split; [now rewrite app_nil_r|now apply lang_lit_ci].
  - destruct H as (x & y & -> & Hx & _). exists (u "proficiencie").
    split; [right; right; right; now left|]. exists [], x, y.
    split; [reflexivity|now apply lang_lit_ci].
Qed.

Lemma no_stem_no_header text :
  (forall stem, In stem header_stems -> ~ ci_occurs stem text) ->
  ~ contains_skills_header text.
Proof.
  intros Hno (pre & w & post & -> & Hw). cbn [lead_re lang] in Hw.
  destruct Hw as (h & rest & -> & Hh & _).
  destruct (header_has_stem h Hh) as (stem & Hin & (a & x & b & -> & Hx)).
  apply (Hno stem Hin). exists (pre ++ a), x, (b ++ rest ++ post).
  split; [now rewrite <- !app_assoc|exact Hx].
Qed.

Lemma parse_resume_to_json_returns {U : PyUnicode} (fp : field_patterns) raw_text :
  exists d, parse_resume_to_json fp raw_text = ret d.
Proof.
  unfold parse_resume_to_json. destruct (try_block fp raw_text); cbn; eauto.
Qed.

(** C7. Whenever the extraction raises, [parse_resume_to_json] returns
    instead of raising, and what it returns has empty [skills], [education]
    and [experience] and the input itself as [raw_text]. *)
Theorem extraction_error_recovered {U : PyUnicode} (fp : field_patterns)
    (raw_text : pyval) (e : exn) :
  try_block fp raw_text = raise e ->
  exists d, parse_resume_to_json fp raw_text = ret d
    /\ d !! "skills" = Some (VList [])
    /\ d !! "education" = Some (VList [])
    /\ d !! "experience" = Some (VList [])
    /\ d !! "raw_text" = Some raw_text.
Proof.
  intros Herr. unfold parse_resume_to_json. rewrite Herr.
  eexists. split; [reflexivity|].
  repeat split; by simplify_map_eq.
Qed.

Lemma extraction_error_recovered_witness :
  @try_block ascii_unicode blank_patterns VNone
    = raise (TypeError "expected string or bytes-like object")
  /\ exists d, @parse_resume_to_json ascii_unicode blank_patterns VNone = ret d
    /\ d !! "skills" = Some (VList [])
    /\ d !! "education" = Some (VList [])
    /\ d !! "experience" = Some (VList [])
    /\ d !! "raw_text" = Some VNone.
Proof.
  split; [reflexivity|].
  apply (@extraction_error_recovered ascii_unicode blank_patterns VNone
           (TypeError "expected string or bytes-like object")).
  reflexivity.
Defined.

(** C10. On the error path the mapping returned has the keys [skills],
    [education], [experience] and [raw_text] and no other: reading [name],
    [email], [phone] or [location] from it raises [KeyError], while on the
    success path each of the four is present and holds a string. *)
Theorem error_path_keys {U : PyUnicode} (fp : field_patterns) (raw_text : pyval) :
  (forall e, try_block fp raw_text = raise e ->
     exists d, parse_resume_to_json fp raw_text = ret d
       /\ dom d = error_keys
       /\ Forall (fun k => getitem d k = raise (KeyError k)) contact_keys)
  /\ (forall d, try_block fp raw_text = ret d ->
       parse_resume_to_json fp raw_text = ret d
       /\ Forall (fun k => exists s, getitem d k = ret (VStr s)) contact_keys).
Proof.
  split.
  - intros e Herr. unfold parse_resume_to_json. rewrite Herr.
    eexists. split; [reflexivity|]. split.
    + rewrite !dom_insert_L, dom_empty_L. unfold error_keys. set_solver.
    + unfold contact_keys, getitem. repeat constructor; by simplify_map_eq.
  - intros d Hok. unfold parse_resume_to_json. rewrite Hok. split; [reflexivity|].
    destruct raw_text; try discriminate. cbn in Hok.
    repeat match type of Hok with
    | bind ?m _ = _ => destruct m; cbn [bind] in Hok; [discriminate Hok|]
    end.
    injection Hok as <-.
    unfold contact_keys, getitem. repeat constructor; eexists; by simplify_map_eq.
Qed.

(** ** The skills section of a text *)

Lemma ci_other l l' c :
  is_lower_letter l = true -> is_lower_letter l' = true ->
  ci l c = true -> ci l' c = (l' =? l).
Proof.
  unfold is_lower_letter, ci, ignorecase_fixes, sre_lower_unicode.
  intros Hl Hl' H.
  apply andb_prop in Hl as [Hl1 Hl2]. apply andb_prop in Hl' as [Hl1' Hl2'].
  apply N.leb_le in Hl1, Hl2, Hl1', Hl2'.
  destruct (l' =? l) eqn:E; [apply N.eqb_eq in E; subst; exact H|].
  apply N.eqb_neq in E.
  repeat match goal with
  | |- context [if ?b then _ else _] => destruct b eqn:?
  | H : context [if ?b then _ else _] |- _ => destruct b eqn:?
  end; cbn [existsb orb] in *;
  repeat match goal with
  | H : (_ || _) = true |- _ => apply orb_prop in H as [H|H]
  | H : (_ && _) = true |- _ => apply andb_prop in H as [? ?]
  | H : (_ =? _) = true |- _ => apply N.eqb_eq in H
  | H : (_ <=? _) = true |- _ => apply N.leb_le in H
  | H : false = true |- _ => discriminate H
  end;
  repeat match goal with
  | |- (_ || _) = false => apply orb_false_intro
  | |- (_ =? _) = false => apply N.eqb_neq
  end; try reflexivity; try lia.
Qed.

Lemma ci_not_space l c :
  is_lower_letter l = true -> ci l c = true -> is_space c = false.
Proof.
  unfold is_lower_letter, ci, ignorecase_fixes, sre_lower_unicode, is_space.
  intros Hl H. apply andb_prop in Hl as [Hl1 Hl2]. apply N.leb_le in Hl1, Hl2.
  repeat match goal with
  | H : context [if ?b then _ else _] |- _ => destruct b eqn:?
  end; cbn [existsb orb] in *;
  repeat match goal with
  | H : (_ || _) = true |- _ => apply orb_prop in H as [H|H]
  | H : (_ && _) = true |- _ => apply andb_prop in H as [? ?]
  | H : (_ =? _) = true |- _ => apply N.eqb_eq in H
  | H : (_ <=? _) = true |- _ => apply N.leb_le in H
  | H : (_ =? _) = false |- _ => apply N.eqb_neq in H
  | H : false = true |- _ => discriminate H
  end;
  repeat (apply orb_false_intro); try (apply andb_false_iff);
  rewrite ?N.eqb_neq, ?N.leb_gt; try lia.
Qed.

Lemma ci_space c : ci 32 c = true -> c = 32.
Proof.
  unfold ci, sre_lower_unicode. change (ignorecase_fixes 32) with (@nil char).
  cbn [existsb]. rewrite orb_false_r. intros H. apply N.eqb_eq in H.
  repeat match goal with
  | H : context [if ?b then _ else _] |- _ => destruct b eqn:?
  end;
  repeat match goal with
  | H : (_ && _) = true |- _ => apply andb_prop in H as [? ?]
  | H : (_ <=? _) = true |- _ => apply N.leb_le in H
  end; lia.
Qed.

Lemma first_rest_cat a b s Y X :
  first_rest a s Y -> first_rest b Y X -> first_rest (Cat a b) s X.
Proof.
  intros [e1 H1] [e2 H2]. unfold first_rest. cbn [rmatch]. rewrite H1.
  cbn [flat_map]. rewrite H2. eexists. reflexivity.
Qed.

Lemma first_rest_alt_l a b s X : first_rest a s X -> first_rest (Alt a b) s X.
Proof. intros [e H]. unfold first_rest. cbn [rmatch]. rewrite H. eexists. reflexivity. Qed.

Lemma first_rest_alt_r a b s X :
  rmatch a s = [] -> first_rest b s X -> first_rest (Alt a b) s X.
Proof. intros Ha [e H]. unfold first_rest. cbn [rmatch]. rewrite Ha, H. eexists. reflexivity. Qed.

Lemma first_rest_opt a s X : first_rest a s X -> first_rest (Opt a) s X.
Proof. intros [e H]. unfold first_rest. cbn [rmatch]. rewrite H. eexists. reflexivity. Qed.

Lemma first_rest_chr p c X : p c = true -> first_rest (Chr p) (c :: X) X.
Proof. intros H. unfold first_rest. cbn [rmatch]. rewrite H. eexists. reflexivity. Qed.

Lemma first_rest_lit w : forall h X,
  ci_eqb w h = true -> first_rest (lit_ci w) (h ++ X) X.
Proof.
  induction w as [|l w IH]; intros [|c h] X H; try discriminate H.
  - exists []. reflexivity.
  - cbn [ci_eqb] in H. apply andb_prop in H as [Hc Hh].
    cbn [lit_ci]. eapply first_rest_cat; [|apply IH, Hh].
    apply first_rest_chr, Hc.
Qed.

Lemma first_rest_plus_one p c c' Y :
  p c = true -> p c' = false -> first_rest (Plus p) (c :: c' :: Y) (c' :: Y).
Proof.
  intros H H'. unfold first_rest. cbn [rmatch star_rests]. rewrite H, H'.
  eexists. reflexivity.
Qed.

Lemma rmatch_cat_nil a b s : rmatch a s = [] -> rmatch (Cat a b) s = [].
Proof. intros H. cbn [rmatch]. now rewrite H. Qed.

Lemma rmatch_lit_head_fail l w c s :
  ci l c = false -> rmatch (lit_ci (l :: w)) (c :: s) = [].
Proof. intros H. cbn [lit_ci rmatch]. now rewrite H. Qed.

Lemma ci_eqb_app_inv w1 : forall w2 h,
  ci_eqb (w1 ++ w2) h = true ->
  exists h1 h2, h = h1 ++ h2 /\ ci_eqb w1 h1 = true /\ ci_eqb w2 h2 = true.
Proof.
  induction w1 as [|l w1 IH]; intros w2 h H.
  - exists [], h. auto.
  - destruct h as [|c h]; [discriminate H|]. cbn [app ci_eqb] in H.
    apply andb_prop in H as [Hc H]. destruct (IH _ _ H) as (h1 & h2 & -> & H1 & H2).
    exists (c :: h1), h2. repeat split; [|exact H2]. cbn [ci_eqb]. now rewrite Hc.
Qed.

Lemma ci_eqb_cons_inv l w h :
  ci_eqb (l :: w) h = true -> exists c h', h = c :: h' /\ ci l c = true /\ ci_eqb w h' = true.
Proof.
  destruct h as [|c h]; [discriminate|]. cbn [ci_eqb]. intros H.
  apply andb_prop in H as [? ?]. eauto.
Qed.

Lemma ci_eqb_nil_inv h : ci_eqb [] h = true -> h = [].
Proof. destruct h; [reflexivity|discriminate]. Qed.

Ltac letter := vm_compute; reflexivity.

Lemma skills_first h X :
  ci_eqb (u "skills") h = true -> first_rest skills_re (h ++ X) X.
Proof.
  change (u "skills") with (u "skill" ++ [115]). intros H.
  apply ci_eqb_app_inv in H as (h1 & h2 & -> & H1 & H2).
  apply ci_eqb_cons_inv in H2 as (c & h' & -> & Hc & H2).
  apply ci_eqb_nil_inv in H2 as ->. rewrite <- app_assoc. cbn [app].
  eapply first_rest_cat; [apply first_rest_lit, H1|].
  apply first_rest_opt, first_rest_chr, Hc.
Qed.

(** A word that starts with another letter than the alternative. *)
Lemma lit_other_head l l' w0 w h s :
  is_lower_letter l = true -> is_lower_letter l' = true -> (l' =? l) = false ->
  ci_eqb (l :: w0) h = true -> rmatch (lit_ci (l' :: w)) (h ++ s) = [].
Proof.
  intros Hl Hl' Hne H. apply ci_eqb_cons_inv in H as (c & h' & -> & Hc & _).
  apply rmatch_lit_head_fail. now rewrite (ci_other l l' c Hl Hl' Hc).
Qed.

Lemma first_rest_one_space l w0 h Y :
  is_lower_letter l = true -> ci_eqb (l :: w0) h = true ->
  first_rest (Plus is_space) (32 :: h ++ Y) (h ++ Y).
Proof.
  intros Hl H. apply ci_eqb_cons_inv in H as (c & h' & -> & Hc & _).
  unfold first_rest. cbn [rmatch star_rests app].
  rewrite (ci_not_space l c Hl Hc). change (is_space 32) with true.
  eexists. reflexivity.
Qed.

Ltac other_head l H :=
  rewrite <- ?app_assoc;
  eapply (lit_other_head l); [letter|letter|letter|exact H].

Ltac cat_other_head l H := apply rmatch_cat_nil; other_head l H.

Lemma header_first hdr X :
  is_header_name hdr = true -> first_rest header_re (hdr ++ X) X.
Proof.
  unfold is_header_name, header_names. cbn [existsb]. rewrite orb_false_r.
  intros H. repeat (apply orb_prop in H as [H|H]).
  - apply first_rest_alt_l. now apply skills_first.
  - change (u "technical skills") with (u "technical" ++ 32 :: u "skills") in H.
    apply ci_eqb_app_inv in H as (h1 & h2 & -> & H1 & H2).
    apply ci_eqb_cons_inv in H2 as (sp & h3 & -> & Hsp & H3).
    apply ci_space in Hsp as ->.
    apply first_rest_alt_r; [unfold skills_re; cat_other_head 116 H1|].
    apply first_rest_alt_l. rewrite <- app_assoc.
    eapply first_rest_cat; [apply first_rest_lit, H1|].
    eapply first_rest_cat; [|apply skills_first, H3].
    cbn [app]. eapply (first_rest_one_space 115); [letter|exact H3].
  - change (u "core competencies") with (u "core" ++ 32 :: u "competenc" ++ u "ies") in H.
    apply ci_eqb_app_inv in H as (h1 & h2 & -> & H1 & H2).
    apply ci_eqb_cons_inv in H2 as (sp & h3 & -> & Hsp & H3).
    apply ci_space in Hsp as ->.
    apply ci_eqb_app_inv in H3 as (h4 & h5 & -> & H4 & H5).
    apply first_rest_alt_r; [unfold skills_re; cat_other_head 99 H1|].
    apply first_rest_alt_r; [cat_other_head 99 H1|].
    apply first_rest_alt_l. rewrite <- app_assoc.
    eapply first_rest_cat; [apply first_rest_lit, H1|].
    eapply first_rest_cat.
    { cbn [app]. rewrite <- app_assoc.
      eapply (first_rest_one_space 99); [letter|exact H4]. }
    eapply first_rest_cat; [apply first_rest_lit, H4|].
    apply first_rest_alt_r; [other_head 105 H5|].
    apply first_rest_lit, H5.
  - apply first_rest_alt_r; [unfold skills_re; cat_other_head 101 H|].
    apply first_rest_alt_r; [cat_other_head 101 H|].
    apply first_rest_alt_r; [cat_other_head 101 H|].
    apply first_rest_alt_l. apply first_rest_lit, H.
  - change (u "proficiencies") with (u "proficiencie" ++ [115]) in H.
    apply ci_eqb_app_inv in H as (h1 & h2 & -> & H1 & H2).
    apply ci_eqb_cons_inv in H2 as (c2 & h2' & -> & Hc2 & H2).
    apply ci_eqb_nil_inv in H2 as ->.
    apply first_rest_alt_r; [unfold skills_re; cat_other_head 112 H1|].
    apply first_rest_alt_r; [cat_other_head 112 H1|].
    apply first_rest_alt_r; [cat_other_head 112 H1|].
    apply first_rest_alt_r; [other_head 112 H1|].
    rewrite <- app_assoc. cbn [app].
    eapply first_rest_cat; [apply first_rest_lit, H1|].
    apply first_rest_opt, first_rest_chr, Hc2.
Qed.

Lemma nl_after_run_nil body tail :
  newline_free body -> blank body = false \/ tail = [] ->
  nl_after_run (body ++ tail) = [].
Proof.
  unfold nl_after_run. induction 1 as [|c b Hc Hb IH]; intros Hbl.
  - destruct Hbl as [Hbl| ->]; [discriminate Hbl|]. reflexivity.
  - cbn [app star_rests]. destruct (space_or_colon c) eqn:Hsc.
    + rewrite flat_map_app, IH.
      * cbn [flat_map rmatch app]. apply N.eqb_neq in Hc. rewrite N.eqb_sym, Hc. reflexivity.
      * destruct Hbl as [Hbl|Ht]; [left|now right].
        cbn [blank forallb] in Hbl. now rewrite Hsc in Hbl.
    + cbn [flat_map rmatch app]. apply N.eqb_neq in Hc. rewrite N.eqb_sym, Hc. reflexivity.
Qed.

Lemma run_then_newline sep : forall B,
  blank sep = true -> nl_after_run B = [] ->
  first_rest (Cat (Star space_or_colon) (Chr (N.eqb nl))) (sep ++ nl :: B) B.
Proof.
  unfold first_rest, nl_after_run. cbn [rmatch].
  induction sep as [|c sep IH]; intros B Hsep HB.
  - cbn [app star_rests].
    assert (Hnl : space_or_colon nl = true) by reflexivity. rewrite Hnl.
    rewrite flat_map_app, HB. cbn [flat_map rmatch app]. rewrite N.eqb_refl.
    eexists. reflexivity.
  - cbn [blank forallb] in Hsep. apply andb_prop in Hsep as [Hc Hsep].
    cbn [app star_rests]. rewrite Hc, flat_map_app.
    destruct (IH B Hsep HB) as [e He]. rewrite He. eexists. reflexivity.
Qed.

Lemma section_end_inside c s : c <> nl -> section_end (c :: s) = false.
Proof.
  intros Hc. unfold section_end, ahead_re. cbn [rmatch].
  apply N.eqb_neq in Hc. rewrite N.eqb_sym, Hc. reflexivity.
Qed.

Lemma section_end_tail tail : ends_section tail -> section_end tail = true.
Proof.
  intros [->|[rest ->]]; [reflexivity|].
  unfold section_end, ahead_re. cbn [rmatch flat_map]. rewrite N.eqb_refl.
  cbn [flat_map]. rewrite N.eqb_refl. reflexivity.
Qed.

Lemma lazy_section body tail :
  newline_free body -> ends_section tail ->
  lazy_until section_end (body ++ tail) = Some body.
Proof.
  intros Hb Ht. apply lazy_until_app; [now apply section_end_tail|].
  intros b1 c b2 ->. apply section_end_inside.
  apply Forall_app in Hb as [_ Hb]. now inversion Hb.
Qed.

Lemma match_here s g : match_at s = Some g -> skills_section_match s = Some g.
Proof. intros H. destruct s; cbn [skills_section_match]; now rewrite H. Qed.

Lemma delimiter_free_newline_free item :
  delimiter_free item = true -> newline_free item.
Proof.
  unfold delimiter_free, newline_free. rewrite forallb_forall, Forall_forall.
  intros H c Hc ->. apply list_elem_of_In in Hc. specialize (H _ Hc). discriminate H.
Qed.

Lemma join_newline_free items :
  Forall (fun it => delimiter_free it = true) items ->
  newline_free (join [comma] items).
Proof.
  induction 1 as [|x l Hx Hl IH]; [constructor|].
  cbn [join]. destruct l as [|y l].
  - now apply delimiter_free_newline_free.
  - apply Forall_app. split; [now apply delimiter_free_newline_free|].
    constructor; [discriminate|exact IH].
Qed.

Lemma split_on_free p x :
  forallb (fun c => negb (p c)) x = true -> split_on p x = [x].
Proof.
  induction x as [|c x IH]; cbn [forallb split_on]; [reflexivity|].
  intros H. apply andb_prop in H as [Hc Hx]. apply negb_true_iff in Hc.
  rewrite Hc, (IH Hx). reflexivity.
Qed.

Lemma split_on_free_app p x d r :
  forallb (fun c => negb (p c)) x = true -> p d = true ->
  split_on p (x ++ d :: r) = x :: split_on p r.
Proof.
  intros Hx Hd. induction x as [|c x IH]; cbn [app split_on forallb] in *.
  - now rewrite Hd.
  - apply andb_prop in Hx as [Hc Hx]. apply negb_true_iff in Hc.
    rewrite Hc, (IH Hx). reflexivity.
Qed.

Lemma split_join items :
  items <> [] -> Forall (fun it => delimiter_free it = true) items ->
  split_on (mem_char skill_delims) (join [comma] items) = items.
Proof.
  intros Hne Hall. induction Hall as [|x l Hx Hl IH]; [congruence|].
  cbn [join]. destruct l as [|y l].
  - now apply split_on_free.
  - cbn [app]. rewrite split_on_free_app; [|exact Hx|reflexivity].
    f_equal. apply IH. discriminate.
Qed.

Lemma extract_lengths text :
  Forall (fun s => (2 <= length s <= 50)%nat) (_extract_skills_from_text text).
Proof.
  unfold _extract_skills_from_text. apply Forall_take.
  destruct (skills_section_match text); [|constructor].
  apply Forall_forall. intros sk Hs.
  apply list_elem_of_In, filter_In in Hs as [_ Hk]. unfold keep_skill in Hk.
  repeat (apply andb_prop in Hk as [Hk ?]).
  split; now apply Nat.leb_le.
Qed.

Lemma search_skips pre : forall rest,
  no_header_within (length pre) (pre ++ rest) ->
  skills_section_match (pre ++ rest) = skills_section_match rest.
Proof.
  induction pre as [|c pre IH]; intros rest Hno; [reflexivity|].
  cbn [app skills_section_match].
  assert (Hm : match_at (c :: pre ++ rest) = None).
  { apply match_at_None. destruct (rmatch lead_re (c :: pre ++ rest)) as [|x l] eqn:Hr;
      [reflexivity|exfalso].
    destruct (rmatch_sound lead_re (c :: pre ++ rest) x) as (w & Heq & Hw);
      [rewrite Hr; now left|].
    specialize (Hno [] w x Heq Hw). cbn in Hno. lia. }
  rewrite Hm. apply IH. intros p w r Heq Hw.
  specialize (Hno (c :: p) w r). cbn [app length] in Hno.
  rewrite Heq in Hno. specialize (Hno eq_refl Hw). lia.
Qed.

Lemma no_match_within_spec n : forall text,
  no_match_within n text = true -> no_header_within n text.
Proof.
  induction n as [|n IH]; intros text H p w r Heq Hw; [lia|].
  cbn [no_match_within] in H.
  destruct (rmatch lead_re text) as [|x l] eqn:Hr; [|discriminate H].
  destruct p as [|c p].
  - exfalso. pose proof (rmatch_complete lead_re w r Hw) as Hin.
    cbn [app] in Heq. rewrite <- Heq, Hr in Hin. destruct Hin.
  - subst text. cbn [app] in H. specialize (IH _ H p w r eq_refl Hw).
    cbn [length]. lia.
Qed.

(** C1 (amended). On a text whose first skills-section header is a header
    name (any of the five, in any letter case), followed by whitespace or
    colons, a newline, a list of items joined by commas that is not blank
    and whose items hold no delimiter, and then the end of the text or a
    blank line, [_extract_skills_from_text] returns the first 100 of the
    items that, once trimmed of whitespace and then of bullet glyphs, have 2
    to 50 characters, hold an ASCII letter and are not a noise word, each in
    that cleaned form and in the order of the list; the [skills] entry is
    [uniq] of that sequence. The entries that [_extract_skills_from_text]
    returns have 2 to 50 characters, the entries of [skills] have at most 50
    and pairwise different lowered, trimmed forms. *)
Theorem skills_section_extracted {U : PyUnicode}
    (pre hdr sep : str) (items : list str) (tail : str) :
  let text := pre ++ skills_section_text hdr sep items tail in
  no_header_within (length pre) text ->
  is_header_name hdr = true ->
  blank sep = true ->
  Forall (fun it => delimiter_free it = true) items ->
  blank (join [comma] items) = false ->
  ends_section tail ->
  let kept := firstn 100 (List.filter keep_skill (map clean_item items)) in
  _extract_skills_from_text text = kept
  /\ extractSkills text = uniq lower kept
  /\ Forall (fun s => (2 <= length s <= 50)%nat) (_extract_skills_from_text text)
  /\ Forall (fun s => (length s <= 50)%nat) (extractSkills text)
  /\ NoDup (map (fun s => lower (strip s)) (extractSkills text)).
Proof.
  intros text Hpre Hh Hsep Hit Hbl Ht kept.
  assert (Hnl : newline_free (join [comma] items)) by now apply join_newline_free.
  assert (Hm : skills_section_match text = Some (join [comma] items)).
  { unfold text. rewrite search_skips by exact Hpre.
    apply match_here. unfold match_at, skills_section_text.
    assert (Hf : first_rest lead_re (hdr ++ sep ++ nl :: join [comma] items ++ tail)
                   (join [comma] items ++ tail)).
    { eapply first_rest_cat; [apply header_first, Hh|].
      apply run_then_newline; [exact Hsep|].
      apply nl_after_run_nil; [exact Hnl|now left]. }
    destruct Hf as [e ->]. apply first_some_cons. now apply lazy_section. }
  assert (He : _extract_skills_from_text text = kept).
  { unfold _extract_skills_from_text. rewrite Hm. unfold kept.
    rewrite split_join; [reflexivity| |exact Hit].
    intros ->. discriminate Hbl. }
  split; [exact He|].
  split; [unfold extractSkills; now rewrite He|].
  split; [apply extract_lengths|].
  split.
  - apply uniq_loop_length_bound. eapply Forall_impl; [apply extract_lengths|].
    cbn. intros; lia.
  - apply uniq_loop_keys.
Qed.

Lemma skills_section_extracted_witness :
  let text :=
    sample_preamble
    ++ skills_section_text (u "Technical Skills") [colon] sample_items sample_tail in
  _extract_skills_from_text text = [u "Python"; u "SQL"; u "python"; u " Go "]
  /\ @extractSkills ascii_unicode text = [u "Python"; u "SQL"; u "Go"].
Proof.
  destruct (@skills_section_extracted ascii_unicode sample_preamble
              (u "Technical Skills") [colon] sample_items sample_tail)
    as (He & Hs & _).
  - apply no_match_within_spec. vm_compute. reflexivity.
  - reflexivity.
  - reflexivity.
  - repeat constructor.
  - reflexivity.
  - right. eexists. reflexivity.
  - split; [rewrite He|rewrite Hs]; vm_compute; reflexivity.
Defined.

(** The claim as first stated fails: the one-letter item of
    ["Skills:\nC, Python"] is not returned. *)
Lemma short_item_dropped :
  is_header_name (u "Skills") = true
  /\ Forall (fun it => delimiter_free it = true) short_items
  /\ @extractSkills ascii_unicode
       (skills_section_text (u "Skills") [colon] short_items []) = [u "Python"]
  /\ @extractSkills ascii_unicode
       (skills_section_text (u "Skills") [colon] short_items [])
     <> uniq ascii_lower short_items.
Proof.
  split; [reflexivity|]. split; [repeat constructor|].
  split; [vm_compute; reflexivity|]. vm_compute. discriminate.
Qed.

Lemma error_path_keys_witness :
  exists d, @parse_resume_to_json ascii_unicode blank_patterns VNone = ret d
    /\ dom d = error_keys
    /\ Forall (fun k => getitem d k = raise (KeyError k)) contact_keys.
Proof.
  apply (proj1 (@error_path_keys ascii_unicode blank_patterns VNone)
           (TypeError "expected string or bytes-like object")).
  reflexivity.
Defined.

(** ** Numbers *)

#[global] Instance rnd_Proper {F : Float64} : Proper (Qeq ==> Qeq) rnd.
Proof. intros x y H. now apply rnd_proper. Qed.

Section NumFacts.
Context {F : Float64}.

Lemma rnd_small (z : Z) : (0 <= z <= 2 ^ 53)%Z -> (rnd (inject_Z z) == inject_Z z)%Q.
Proof. intros H. apply rnd_int. lia. Qed.

Lemma rnd_between (hi : Z) (q : Q) :
  (0 <= hi <= 2 ^ 53)%Z -> (0 <= q)%Q -> (q <= inject_Z hi)%Q ->
  (0 <= rnd q)%Q /\ (rnd q <= inject_Z hi)%Q.
Proof.
  intros Hhi H0 H1. split.
  - rewrite <- (rnd_small 0) by lia. now apply rnd_mono.
  - rewrite <- (rnd_small hi) by lia. now apply rnd_mono.
Qed.

Lemma in_range_weaken hi hi' n :
  (hi <= hi')%Z -> in_range 0 hi n -> in_range 0 hi' n.
Proof.
  intros Hle [H0 H1]. split; [exact H0|].
  eapply Qle_trans; [exact H1|]. now rewrite <- Zle_Qle.
Qed.

Lemma num_add_range hi k n :
  (0 <= k)%Z -> (0 <= hi)%Z -> (hi + k <= 2 ^ 53)%Z ->
  in_range 0 hi n -> in_range 0 (hi + k) (num_add n (PInt k)).
Proof.
  intros Hk Hhi Hsum [H0 H1].
  destruct n as [z|q]; unfold in_range; cbn [value num_add to_float] in *.
  - rewrite <- !Zle_Qle in *. lia.
  - rewrite rnd_small by lia. apply rnd_between; [lia| |].
    + rewrite <- (Qplus_0_r (inject_Z 0)). apply Qplus_le_compat; [exact H0|].
      rewrite Zle_Qle in Hk. exact Hk.
    + rewrite inject_Z_plus. apply Qplus_le_compat; [exact H1|apply Qle_refl].
Qed.

Lemma py_int_range hi n : in_range 0 hi n -> (0 <= py_int n <= hi)%Z.
Proof.
  intros [H0 H1]. destruct n as [z|[a b]]; cbn [value py_int Qnum Qden] in *.
  - rewrite <- !Zle_Qle in *. lia.
  - unfold Qle in *. cbn in *. rewrite Z.mul_1_r in *.
    assert (Ha : (0 <= a)%Z) by lia.
    rewrite Z.quot_div_nonneg by lia. split.
    + apply Z.div_pos; lia.
    + apply Z.div_le_upper_bound; lia.
Qed.

End NumFacts.

(** ** The match score *)

Section ScoreFacts.
Context {F : Float64} {U : PyUnicode} {D : DateLib}.

Lemma true_div_range (m n : Z) :
  (0 <= m <= n)%Z -> (0 < n)%Z -> in_range 0 1 (true_div m n).
Proof.
  intros Hm Hn. unfold in_range, true_div. cbn [value].
  assert (Hn' : (0 < inject_Z n)%Q) by (rewrite Zlt_Qlt in Hn; exact Hn).
  apply rnd_between; [lia| |].
  - apply Qle_shift_div_l; [exact Hn'|]. rewrite Qmult_0_l.
    destruct Hm as [Hm _]. rewrite Zle_Qle in Hm. exact Hm.
  - apply Qle_shift_div_r; [exact Hn'|]. rewrite Qmult_1_l.
    destruct Hm as [_ Hm]. rewrite Zle_Qle in Hm. exact Hm.
Qed.

Lemma num_mul_range k n :
  (0 <= k <= 2 ^ 53)%Z -> in_range 0 1 n -> in_range 0 k (num_mul n (PInt k)).
Proof.
  intros Hk [H0 H1].
  assert (Hk' : (0 <= inject_Z k)%Q) by (destruct Hk as [Hk _]; rewrite Zle_Qle in Hk; exact Hk).
  destruct n as [z|q]; unfold in_range; cbn [value num_mul to_float] in *.
  - rewrite <- !Zle_Qle in *. nia.
  - rewrite rnd_small by lia. apply rnd_between; [lia| |].
    + apply Qmult_le_0_compat; [exact H0|exact Hk'].
    + rewrite <- (Qmult_1_l (inject_Z k)) at 2.
      apply Qmult_le_compat_r; [exact H1|exact Hk'].
Qed.

Lemma num_min_range hi a b :
  in_range 0 hi b -> (0 <= value a)%Q -> in_range 0 hi (num_min a b).
Proof.
  intros Hb Ha. unfold num_min. destruct (Qlt_le_dec (value b) (value a)) as [Hlt|Hle].
  - exact Hb.
  - split; [exact Ha|]. eapply Qle_trans; [exact Hle|apply Hb].
Qed.

Lemma matched_length parsed_resume job :
  (length (matched parsed_resume job) <= length (map lower (skills parsed_resume)))%nat.
Proof. apply filter_length_le. Qed.

Lemma add_skills_range parsed_resume job :
  in_range 0 40 (add_skills parsed_resume job (PInt 0)).
Proof.
  unfold add_skills.
  destruct (map lower (skills parsed_resume)) as [|k ks] eqn:Hks; cbn [nonempty].
  - split; cbn; discriminate.
  - pose proof (matched_length parsed_resume job) as Hlen. rewrite Hks in Hlen.
    set (skill_score := num_mul _ _).
    assert (Hs : in_range 0 40 skill_score).
    { apply num_mul_range; [lia|]. apply true_div_range; cbn [length] in *; lia. }
    assert (Hm : in_range 0 40 (num_min skill_score (PInt 40))).
    { apply num_min_range; [split; cbn; discriminate|apply Hs]. }
    destruct (num_min skill_score (PInt 40)) as [z|q]; cbn [num_add to_float].
    + exact Hm.
    + destruct Hm as [H0 H1]. cbn [value] in *. unfold in_range. cbn [value].
      rewrite (rnd_small 0) by lia. apply rnd_between; [lia| |].
      * rewrite Qplus_0_l. exact H0.
      * rewrite Qplus_0_l. exact H1.
Qed.

Lemma add_seniority_range parsed_resume job n :
  in_range 0 40 n -> in_range 0 70 (add_seniority parsed_resume job n).
Proof.
  intros Hn. unfold add_seniority.
  destruct (any_in seniority_words (job_text job)).
  - destruct (any_in seniority_words (experience_text parsed_resume)).
    + apply (num_add_range 40 30); [lia|lia|lia|exact Hn].
    + apply (in_range_weaken 40); [lia|exact Hn].
  - apply (in_range_weaken 60); [lia|].
    apply (num_add_range 40 20); [lia|lia|lia|exact Hn].
Qed.

Lemma add_location_range parsed_resume job n :
  in_range 0 70 n -> in_range 0 90 (add_location parsed_resume job n).
Proof.
  intros Hn. unfold add_location.
  destruct (remote job); [apply (num_add_range 70 20); [lia|lia|lia|exact Hn]|].
  destruct (contains _ _).
  - apply (num_add_range 70 20); [lia|lia|lia|exact Hn].
  - apply (in_range_weaken 70); [lia|exact Hn].
Qed.

Lemma add_company_range job n :
  in_range 0 90 n -> in_range 0 100 (add_company job n).
Proof.
  intros Hn. unfold add_company. destruct (any_in _ _).
  - apply (num_add_range 90 10); [lia|lia|lia|exact Hn].
  - apply (in_range_weaken 90); [lia|exact Hn].
Qed.

Lemma job_score_range parsed_resume job :
  in_range 0 100 (job_score parsed_resume job).
Proof.
  unfold job_score.
  apply add_company_range, add_location_range, add_seniority_range, add_skills_range.
Qed.

End ScoreFacts.

(** ** The instance across calls *)

Section ServiceFacts.
Context {F : Float64} {U : PyUnicode} {D : DateLib}.
Context (query_hash : SearchQuery -> Z).

Lemma _search_adzuna_cache s env q n :
  cache (_search_adzuna s env q n).1.2 = cache s.
Proof.
  unfold _search_adzuna. destruct (has_adzuna s); cbn [negb]; [|reflexivity].
  destruct (_is_rate_limited _ _ _) as [limited rl]. destruct limited; [reflexivity|].
  destruct (adzuna_http env); reflexivity.
Qed.

Lemma _search_rapidapi_cache s env q n :
  cache (_search_rapidapi s env q n).1.2 = cache s.
Proof.
  unfold _search_rapidapi. destruct (has_rapidapi s); cbn [negb]; [|reflexivity].
  destruct (_is_rate_limited _ _ _) as [limited rl]. destruct limited; [reflexivity|].
  destruct (rapidapi_http env); reflexivity.
Qed.

Lemma with_score_in_range parsed_resume job :
  score_in_range (with_score parsed_resume job).
Proof.
  eexists. split; [reflexivity|].
  pose proof (py_int_range 100 _ (job_score_range parsed_resume job)). lia.
Qed.

Lemma _calculate_match_scores_in_range jobs parsed_resume :
  Forall score_in_range (_calculate_match_scores jobs parsed_resume).
Proof.
  unfold _calculate_match_scores. apply Forall_forall. intros j Hj.
  apply list_elem_of_In, in_map_iff in Hj as (j0 & <- & _). apply with_score_in_range.
Qed.

Lemma Forall_slice_to {A} (P : A -> Prop) n l :
  Forall P l -> Forall P (slice_to n l).
Proof. intros H. unfold slice_to. destruct (0 <=? n)%Z; now apply Forall_take. Qed.

Lemma fetch_jobs_cache s env parsed_resume search_query max_results :
  cache (fetch_jobs s env parsed_resume search_query max_results).1.2 = cache s.
Proof.
  unfold fetch_jobs.
  destruct (if has_adzuna s && _ then _ else _) as [[jobs1 s1] sent1] eqn:H1.
  assert (Hs1 : cache s1 = cache s).
  { destruct (has_adzuna s && _); [|now inversion H1].
    rewrite <- (_search_adzuna_cache s env search_query max_results). now rewrite H1. }
  destruct (has_rapidapi s1 && _); [|exact Hs1].
  destruct (_search_rapidapi _ _ _ _) as [[more s2] sent2] eqn:H2. cbn.
  rewrite <- Hs1, <- (_search_rapidapi_cache s1 env search_query
                       (max_results - Z.of_nat (length jobs1))).
  now rewrite H2.
Qed.

Lemma fetch_jobs_scored s env parsed_resume search_query max_results :
  Forall score_in_range (fetch_jobs s env parsed_resume search_query max_results).1.1.
Proof.
  unfold fetch_jobs.
  destruct (if has_adzuna s && _ then _ else _) as [[jobs1 s1] sent1].
  destruct (if has_rapidapi s1 && _ then _ else _) as [[jobs2 s2] sent2].
  apply _calculate_match_scores_in_range.
Qed.

Lemma cached_in_cache s env search_query max_results jobs :
  cached query_hash s env search_query max_results = Some jobs ->
  exists t, cache s !! (query_hash search_query, max_results) = Some (jobs, t).
Proof.
  unfold cached. destruct (cache s !! _) as [[c t]|]; [|discriminate].
  destruct (qlt _ _); [|discriminate]. intros [= ->]. now exists t.
Qed.

Lemma search_jobs_scored s env parsed_resume search_query max_results :
  cache_scored s ->
  Forall score_in_range
    (search_jobs query_hash s env parsed_resume search_query max_results).1.1
  /\ cache_scored
       (search_jobs query_hash s env parsed_resume search_query max_results).1.2.
Proof.
  intros Hc. unfold search_jobs.
  destruct (cached query_hash s env search_query max_results) as [jobs|] eqn:Hk.
  - apply cached_in_cache in Hk as [t Hk]. cbn. split; [eapply Hc; exact Hk|exact Hc].
  - pose proof (fetch_jobs_scored s env parsed_resume search_query max_results) as Hf.
    pose proof (fetch_jobs_cache s env parsed_resume search_query max_results) as Hfc.
    destruct (fetch_jobs s env parsed_resume search_query max_results)
      as [[jobs s'] sent]. cbn in *.
    split; [now apply Forall_slice_to|].
    intros key jobs0 t. cbn. rewrite lookup_insert. case_decide.
    + intros [= <- <-]. exact Hf.
    + rewrite Hfc. apply Hc.
Qed.

Lemma reachable_cache_scored s : reachable query_hash s -> cache_scored s.
Proof.
  induction 1 as [| s env r q n _ IH].
  - intros key jobs t. cbn. rewrite lookup_empty. discriminate.
  - now apply search_jobs_scored.
Qed.

End ServiceFacts.

(** ** Claims on the match score *)

(** C3. Every listing that the aggregator returns carries a [match_score]
    that is an integer from 0 to 100: the listings of [search_jobs], fresh
    or from the cache, on every instance that calls lead to, for every
    resume and query, and the fallback listing of the wrapper. *)
Theorem match_score_in_range {F : Float64} {U : PyUnicode} {D : DateLib}
    (query_hash : SearchQuery -> Z) (s : service) (env : call_env)
    (parsed_resume : ParsedResume) (search_query : SearchQuery) (max_results : Z) :
  reachable query_hash s ->
  let jobs := (search_jobs query_hash s env parsed_resume search_query max_results).1.1 in
  Forall score_in_range jobs
  /\ Forall score_in_range (scraper_search_jobs (ret jobs))
  /\ forall e, Forall score_in_range (scraper_search_jobs (raise e)).
Proof.
  intros Hr jobs.
  assert (Hj : Forall score_in_range jobs).
  { apply search_jobs_scored. now apply (reachable_cache_scored query_hash). }
  split; [exact Hj|]. split; [exact Hj|].
  intros e. cbn. constructor; [|constructor].
  exists 50%Z. split; [reflexivity|lia].
Qed.

Lemma match_score_in_range_witness :
  @reachable binary64 ascii_unicode date_only_lib sample_hash no_credentials
  /\ Forall score_in_range
       (@search_jobs binary64 ascii_unicode date_only_lib sample_hash
          no_credentials quiet_env sample_resume sample_query 3).1.1.
Proof.
  split; [constructor|].
  apply (@match_score_in_range binary64 ascii_unicode date_only_lib sample_hash
           no_credentials quiet_env sample_resume sample_query 3).
  constructor.
Defined.

(** The scenario of the specification: without credentials, three
    synthetic listings. *)
Example mock_scenario :
  map (fun j => (source j, match_score j, days_ago j))
    (@search_jobs binary64 ascii_unicode date_only_lib sample_hash
       no_credentials quiet_env sample_resume sample_query 3).1.1
  = [(u "Mock Data", Some 80%Z, 0%Z); (u "Mock Data", Some 70%Z, 1%Z);
     (u "Mock Data", Some 50%Z, 2%Z)].
Proof. vm_compute. reflexivity. Qed.

Lemma starts_with_spec p : forall s,
  starts_with p s = true <-> exists post, s = p ++ post.
Proof.
  induction p as [|a p IH]; intros s; cbn [starts_with].
  - split; [intros _; now exists s|reflexivity].
  - destruct s as [|b s].
    + split; [discriminate|]. intros [post H]. discriminate H.
    + rewrite andb_true_iff, N.eqb_eq, IH. split.
      * intros [-> [post ->]]. now exists post.
      * intros [post H]. injection H as -> ->. split; [reflexivity|now exists post].
Qed.

Lemma contains_spec needle : forall hay,
  contains needle hay = true <-> exists pre post, hay = pre ++ needle ++ post.
Proof.
  induction hay as [|c hay IH]; cbn [contains]; rewrite orb_true_iff, starts_with_spec.
  - split.
    + intros [[post H]|H]; [|discriminate]. now exists [], post.
    + intros (pre & post & H). left. destruct pre; [now exists post|discriminate].
  - rewrite IH. split.
    + intros [[post H]|(pre & post & ->)]; [now exists [], post|].
      now exists (c :: pre), post.
    + intros (pre & post & H). destruct pre as [|c' pre].
      * left. now exists post.
      * right. injection H as -> ->. now exists pre, post.
Qed.

Lemma any_in_spec words text :
  any_in words text = true <-> mentions words text.
Proof.
  unfold any_in, mentions. rewrite existsb_exists. split.
  - intros (w & Hw & Hc). apply contains_spec in Hc as (pre & post & ->).
    now exists w, pre, post.
  - intros (w & pre & post & Hw & ->). exists w. split; [exact Hw|].
    apply contains_spec. now exists pre, post.
Qed.

(** C4. The seniority part of the score adds 30 when the text of the
    listing (its title and description) and the text of the resume's
    experience both hold one of "senior", "lead", "principal"; it adds 20
    when the text of the listing holds none, whatever the resume; it adds
    nothing when the listing holds one and the resume none. It is the second
    of the four parts of which the score is made. *)
Theorem seniority_component {F : Float64} {U : PyUnicode}
    (parsed_resume : ParsedResume) (job : JobListing) (score : pynum) :
  let listing_senior := mentions seniority_words (job_text job) in
  let resume_senior := mentions seniority_words (experience_text parsed_resume) in
  (listing_senior -> resume_senior ->
     add_seniority parsed_resume job score = num_add score (PInt 30))
  /\ (~ listing_senior ->
       add_seniority parsed_resume job score = num_add score (PInt 20))
  /\ (listing_senior -> ~ resume_senior ->
       add_seniority parsed_resume job score = score)
  /\ job_score parsed_resume job
     = add_company job (add_location parsed_resume job
         (add_seniority parsed_resume job (add_skills parsed_resume job (PInt 0)))).
Proof.
  intros listing_senior resume_senior. subst listing_senior resume_senior.
  rewrite <- !any_in_spec.
  (split; [|split; [|split; [|reflexivity]]]); unfold add_seniority;
    destruct (any_in seniority_words (job_text job));
    destruct (any_in seniority_words (experience_text parsed_resume));
    intros; try reflexivity; try discriminate; exfalso; auto.
Qed.

Lemma seniority_component_witness :
  mentions seniority_words (@job_text ascii_unicode senior_listing)
  /\ mentions seniority_words (@experience_text ascii_unicode sample_resume)
  /\ @add_seniority binary64 ascii_unicode sample_resume senior_listing (PInt 0)
     = PInt 30.
Proof.
  assert (H1 : mentions seniority_words (@job_text ascii_unicode senior_listing)).
  { apply any_in_spec. vm_compute. reflexivity. }
  assert (H2 : mentions seniority_words (@experience_text ascii_unicode sample_resume)).
  { apply any_in_spec. vm_compute. reflexivity. }
  split; [exact H1|]. split; [exact H2|].
  exact (proj1 (@seniority_component binary64 ascii_unicode
                  sample_resume senior_listing (PInt 0)) H1 H2).
Defined.

(** ** Claims on the rate limits *)

Section RateFacts.
Context {F : Float64} {U : PyUnicode} {D : DateLib}.

Lemma qlt_false x y : (y <= x)%Q -> qlt x y = false.
Proof.
  intros H. unfold qlt. destruct (Qlt_le_dec x y) as [Hlt|_]; [|reflexivity].
  exfalso. exact (Qlt_not_le _ _ Hlt H).
Qed.

Lemma qlt_true x y : (x < y)%Q -> qlt x y = true.
Proof.
  intros H. unfold qlt. destruct (Qlt_le_dec x y) as [_|Hle]; [reflexivity|].
  exfalso. exact (Qlt_not_le _ _ H Hle).
Qed.

Lemma set_rate_limits_same s : set_rate_limits (rate_limits s) s = s.
Proof. now destruct s. Qed.

Lemma _is_rate_limited_in_window p rl rate now :
  rl !! api_name p = Some rate -> (now <= reset_time rate)%Q ->
  _is_rate_limited (api_name p) now rl = ((ceiling p <=? calls rate)%Z, rl).
Proof.
  intros Hrl Hnow. unfold _is_rate_limited. rewrite Hrl, (qlt_false _ _ Hnow).
  now destruct p.
Qed.

Lemma _is_rate_limited_after_window p rl rate now :
  rl !! api_name p = Some rate -> (reset_time rate < now)%Q ->
  _is_rate_limited (api_name p) now rl
  = (false, <[api_name p := fresh_window now]> rl).
Proof.
  intros Hrl Hnow. unfold _is_rate_limited. rewrite Hrl, (qlt_true _ _ Hnow).
  now destruct p.
Qed.

Lemma provider_search_skipped p s rate env q n :
  rate_limits s !! api_name p = Some rate ->
  (ceiling p <= calls rate)%Z ->
  (provider_time p env <= reset_time rate)%Q ->
  provider_search p s env q n = ([], s, []).
Proof.
  intros Hrl Hc Ht. apply Z.leb_le in Hc.
  destruct p; cbn [provider_search]; [unfold _search_adzuna|unfold _search_rapidapi].
  - destruct (has_adzuna s); [|reflexivity]. cbn [negb].
    rewrite (_is_rate_limited_in_window Adzuna _ rate) by assumption.
    rewrite Hc. now rewrite set_rate_limits_same.
  - destruct (has_rapidapi s); [|reflexivity]. cbn [negb].
    rewrite (_is_rate_limited_in_window RapidAPI _ rate) by assumption.
    rewrite Hc. now rewrite set_rate_limits_same.
Qed.

Lemma count_call_fresh p rl now :
  count_call (api_name p) (<[api_name p := fresh_window now]> rl) !! api_name p
  = Some {| calls := 1; reset_time := reset_time (fresh_window now) |}.
Proof.
  unfold count_call. rewrite lookup_insert_eq. cbn. now rewrite lookup_insert_eq.
Qed.

End RateFacts.

(** C6. For each provider, with its ceiling (100 for Adzuna, 50 for
    RapidAPI): once the counter is at the ceiling, every call made while the
    clock has not passed the reset time returns nothing, sends no request and
    leaves the instance as it is, however many such calls follow one another;
    at the first check after the reset time the counter is set to zero and
    the reset time to one hour after that check, and the call is not
    limited: with credentials it sends its request, and leaves the counter
    at 0 or 1 in the new window. *)
Theorem rate_limit_window {F : Float64} {U : PyUnicode} {D : DateLib}
    (p : provider) (s : service) (rate : rate_info) :
  rate_limits s !! api_name p = Some rate ->
  (ceiling p <= calls rate)%Z ->
  (forall cs : list (call_env * SearchQuery * Z),
     Forall (fun c => (provider_time p c.1.1 <= reset_time rate)%Q) cs ->
     provider_calls p s cs = (map (fun _ => ([], [])) cs, s))
  /\ (forall now, (reset_time rate < now)%Q ->
       _is_rate_limited (api_name p) now (rate_limits s)
       = (false, <[api_name p := fresh_window now]> (rate_limits s)))
  /\ (forall env q n,
       configured p s = true -> (reset_time rate < provider_time p env)%Q ->
       exists jobs s' req c,
         provider_search p s env q n = (jobs, s', [req])
         /\ rate_limits s' !! api_name p
            = Some {| calls := c;
                      reset_time := fadd (provider_time p env) (to_float (PInt 3600)) |}
         /\ (c = 0 \/ c = 1)%Z).
Proof.
  intros Hrl Hc. split; [|split].
  - induction 1 as [|[[env q] n] cs Hin _ IH]; [reflexivity|].
    cbn [provider_calls map]. cbn in Hin.
    rewrite (provider_search_skipped p s rate env q n Hrl Hc Hin), IH. reflexivity.
  - intros now Hnow. now apply _is_rate_limited_after_window with rate.
  - intros env q n Hcfg Hnow.
    pose proof (_is_rate_limited_after_window p _ rate _ Hrl Hnow) as Hlim.
    destruct p; cbn [provider_search configured provider_time api_name] in *.
    + unfold _search_adzuna. rewrite Hcfg. cbn [negb]. rewrite Hlim.
      destruct (adzuna_http env); do 4 eexists; (split; [reflexivity|]); cbn.
      * rewrite lookup_insert_eq. split; [reflexivity|now left].
      * rewrite (count_call_fresh Adzuna). split; [reflexivity|now right].
      * rewrite (count_call_fresh Adzuna). split; [reflexivity|now right].
    + unfold _search_rapidapi. rewrite Hcfg. cbn [negb]. rewrite Hlim.
      destruct (rapidapi_http env); do 4 eexists; (split; [reflexivity|]); cbn.
      * rewrite lookup_insert_eq. split; [reflexivity|now left].
      * rewrite (count_call_fresh RapidAPI). split; [reflexivity|now right].
      * rewrite (count_call_fresh RapidAPI). split; [reflexivity|now right].
Qed.

Lemma rate_limit_window_witness :
  rate_limits at_ceiling !! api_name Adzuna = Some {| calls := 100; reset_time := 5000 |}
  /\ @provider_calls binary64 ascii_unicode date_only_lib Adzuna at_ceiling
       [(env_at 4000 (HttpRecords []), sample_query, 5%Z);
        (env_at 5000 (HttpRecords []), sample_query, 5%Z)]
     = ([([], []); ([], [])], at_ceiling).
Proof.
  split; [reflexivity|].
  refine (proj1 (@rate_limit_window binary64 ascii_unicode date_only_lib
                   Adzuna at_ceiling {| calls := 100; reset_time := 5000 |}
                   eq_refl _) _ _).
  - cbn. lia.
  - repeat constructor; cbn; unfold Qle; cbn; lia.
Defined.

(** ** Claims on the cache *)

Section CacheFacts.
Context {F : Float64} {U : PyUnicode} {D : DateLib}.
Context (query_hash : SearchQuery -> Z).

(** A young entry is returned as it is, without a request and without a
    change of the instance. *)
Lemma search_jobs_hit s env parsed_resume search_query max_results jobs timestamp :
  cache s !! (query_hash search_query, max_results) = Some (jobs, timestamp) ->
  (fsub (t_check env) timestamp < 3600)%Q ->
  search_jobs query_hash s env parsed_resume search_query max_results = (jobs, s, []).
Proof.
  intros Hk Ht. unfold search_jobs, cached. rewrite Hk.
  rewrite qlt_true; [reflexivity|exact Ht].
Qed.

(** A call that misses the cache returns the first [max_results] of what it
    fetched and stores all of it; a call with the same query and count that
    comes less than an hour after the store returns all of it. *)
Lemma search_jobs_twice s env1 env2 resume1 resume2 search_query max_results :
  cached query_hash s env1 search_query max_results = None ->
  (fsub (t_check env2) (t_store env1) < 3600)%Q ->
  let fetched := fetch_jobs s env1 resume1 search_query max_results in
  let first := search_jobs query_hash s env1 resume1 search_query max_results in
  first.1.1 = slice_to max_results fetched.1.1
  /\ first.2 = fetched.2
  /\ search_jobs query_hash first.1.2 env2 resume2 search_query max_results
     = (fetched.1.1, first.1.2, []).
Proof.
  intros Hmiss Ht fetched first.
  assert (Hfirst : first =
    (slice_to max_results fetched.1.1,
     set_cache (<[(query_hash search_query, max_results)
                  := (fetched.1.1, t_store env1)]> (cache fetched.1.2)) fetched.1.2,
     fetched.2)).
  { subst first fetched. unfold search_jobs. rewrite Hmiss.
    now destruct (fetch_jobs s env1 resume1 search_query max_results) as [[jobs s'] sent]. }
  rewrite Hfirst. cbn [fst snd]. split; [reflexivity|]. split; [reflexivity|].
  eapply search_jobs_hit; [|exact Ht]. cbn. apply lookup_insert_eq.
Qed.

End CacheFacts.

(** C5, on a concrete pair of calls. JSearch is sent no count and answers
    with two records to a search for one result: the first call returns one
    listing and caches two, the second call, two seconds later, sends no
    request and changes nothing in the instance, but returns the two. *)
Theorem cache_hit_not_sliced :
  let first :=
    @search_jobs binary64 ascii_unicode date_only_lib sample_hash
      rapid_only first_call_env no_skills_resume sample_query 1 in
  let second :=
    @search_jobs binary64 ascii_unicode date_only_lib sample_hash
      first.1.2 second_call_env no_skills_resume sample_query 1 in
  length first.1.1 = 1%nat
  /\ length second.1.1 = 2%nat
  /\ first.1.1 <> second.1.1
  /\ second.2 = []
  /\ second.1.2 = first.1.2.
Proof.
  vm_compute. repeat split; try reflexivity. discriminate.
Qed.

(** ** Claims on [days_ago] *)

Section DaysFacts.
Context {F : Float64} {U : PyUnicode} {D : DateLib}.

Lemma mock_job_days templates i job :
  mock_job templates i = Some job -> (0 <= days_ago job <= 6)%Z.
Proof.
  unfold mock_job. destruct (templates !! _); [|discriminate].
  cbn. intros [= <-]. cbn [days_ago].
  pose proof (Z.mod_pos_bound (Z.of_nat i) 7). lia.
Qed.

Lemma mock_jobs_days search_query max_results parsed_resume :
  Forall (fun job => (0 <= days_ago job <= 6)%Z)
    (_generate_enhanced_mock_jobs search_query max_results parsed_resume).
Proof.
  unfold _generate_enhanced_mock_jobs. apply Forall_forall. intros job Hjob.
  apply list_elem_of_omap in Hjob as (i & _ & Hi). now apply mock_job_days in Hi.
Qed.

(** The date computation is negative exactly on a naive date later than
    the local clock. *)
Lemma _calculate_days_ago_negative now date_str :
  (_calculate_days_ago now date_str < 0)%Z <->
  exists s t, date_str = Some s /\ s <> []
    /\ (if contains (u "T") s
        then fromisoformat (replace_char 90 (u "+00:00") s)
        else option_map Naive (strptime_ymd s)) = Some (Naive t)
    /\ (now < t)%Z.
Proof.
  unfold _calculate_days_ago. split.
  - destruct date_str as [[|c s]|]; try lia.
    destruct (if contains _ _ then _ else _) as [[t|t]|] eqn:Hp; try lia.
    intros Hneg. exists (c :: s), t. repeat split; [discriminate|exact Hp|].
    destruct (Z_lt_le_dec now t) as [Hlt|Hle]; [exact Hlt|].
    exfalso. assert (0 <= (now - t) / us_per_day)%Z; [|lia].
    apply Z.div_pos; [lia|reflexivity].
  - intros (s & t & -> & Hne & Hp & Hlt). destruct s as [|c s]; [congruence|].
    rewrite Hp. apply Z.div_lt_upper_bound; [reflexivity|]. lia.
Qed.

End DaysFacts.

(** C9, on a concrete call. Adzuna answers with a record created on
    2026-11-04 while the local clock reads 2026-11-03 23:00: the listing
    returned has [days_ago] -1. *)
Theorem future_posting_negative_days :
  map days_ago
    (@search_jobs binary64 ascii_unicode date_only_lib sample_hash
       adzuna_only future_env no_skills_resume sample_query 5).1.1
  = [(-1)%Z].
Proof. vm_compute. reflexivity. Qed.

(** * Further properties *)

(** ** Parts of a text *)

Lemma contains_nil hay : contains [] hay = true.
Proof. now destruct hay. Qed.

Lemma part_of_refl s : part_of s s.
Proof. exists [], []. now rewrite app_nil_r. Qed.

Lemma part_of_trans x y z : part_of x y -> part_of y z -> part_of x z.
Proof.
  intros (a & b & ->) (c & d & ->). exists (c ++ a), (b ++ d).
  now rewrite <- !app_assoc.
Qed.

Lemma part_of_contains x s : part_of x s <-> contains x s = true.
Proof. symmetry. apply contains_spec. Qed.

Lemma part_of_Forall (P : char -> Prop) x s :
  part_of x s -> Forall P s -> Forall P x.
Proof.
  intros (a & b & ->) H. apply Forall_app in H as [_ H].
  now apply Forall_app in H as [H _].
Qed.

Section StripParts.
Context (p : char -> bool).

Lemma lstrip_by_suffix s : exists a, s = a ++ lstrip_by p s.
Proof.
  induction s as [|c s [a IH]]; [now exists []|]. cbn [lstrip_by].
  destruct (p c); [|now exists []]. exists (c :: a). cbn. now rewrite <- IH.
Qed.

Lemma rstrip_by_prefix s : exists b, s = rstrip_by p s ++ b.
Proof.
  unfold rstrip_by. destruct (lstrip_by_suffix (rev s)) as [a Ha].
  exists (rev a). rewrite <- rev_app_distr, <- Ha. now rewrite rev_involutive.
Qed.

Lemma strip_by_part s : part_of (strip_by p s) s.
Proof.
  unfold strip_by. destruct (lstrip_by_suffix s) as [a Ha].
  destruct (rstrip_by_prefix (lstrip_by p s)) as [b Hb].
  exists a, b. now rewrite <- Hb.
Qed.

End StripParts.

Lemma part_of_cons c x s : part_of x s -> part_of x (c :: s).
Proof. intros (a & b & ->). now exists (c :: a), b. Qed.

Lemma split_on_shape p s :
  exists h t, split_on p s = h :: t
    /\ (exists b, s = h ++ b)
    /\ Forall (fun piece => part_of piece s) t.
Proof.
  induction s as [|c s (h & t & Hsp & [b Hb] & Ht)]; cbn [split_on].
  - exists [], []. repeat split; [now exists []|constructor].
  - assert (Ht' : Forall (fun piece => part_of piece (c :: s)) t).
    { eapply Forall_impl; [exact Ht|]. intros x. apply part_of_cons. }
    rewrite Hsp. destruct (p c).
    + exists [], (h :: t). repeat split; [now exists (c :: s)|].
      constructor; [|exact Ht']. exists [c], b. now rewrite Hb.
    + exists (c :: h), t. repeat split; [|exact Ht']. exists b. now rewrite Hb.
Qed.

Lemma split_on_parts p s : Forall (fun piece => part_of piece s) (split_on p s).
Proof.
  destruct (split_on_shape p s) as (h & t & -> & [b Hb] & Ht).
  constructor; [|exact Ht]. now exists [], b.
Qed.

(** No piece of a split holds a character of the class. *)
Lemma split_on_pieces_free p s :
  Forall (fun piece => Forall (fun c => p c = false) piece) (split_on p s).
Proof.
  induction s as [|c s IH]; cbn [split_on]; [repeat constructor|].
  destruct (p c) eqn:Hc; [constructor; [constructor|exact IH]|].
  destruct (split_on p s) as [|h t]; [repeat constructor; exact Hc|].
  inversion IH as [|? ? Hh Ht]; subst. constructor; [|exact Ht].
  now constructor.
Qed.

Lemma lazy_until_prefix stop : forall s g,
  lazy_until stop s = Some g -> exists tail, s = g ++ tail.
Proof.
  induction s as [|c s IH]; intros g; cbn [lazy_until].
  - destruct (stop []); [|discriminate]. intros [= <-]. now exists [].
  - destruct (stop (c :: s)); [intros [= <-]; now exists (c :: s)|].
    destruct (lazy_until stop s) as [g'|]; [|discriminate]. cbn.
    intros [= <-]. destruct (IH g' eq_refl) as [tail ->]. now exists tail.
Qed.

Lemma first_some_In {A B} (f : A -> option B) l y :
  first_some f l = Some y -> exists x, In x l /\ f x = Some y.
Proof.
  induction l as [|x l IH]; cbn [first_some]; [discriminate|].
  destruct (f x) as [y'|] eqn:Hx.
  - intros [= <-]. exists x. split; [now left|exact Hx].
  - intros H. destruct (IH H) as (x' & Hin & Hx'). exists x'. split; [now right|exact Hx'].
Qed.

Lemma match_at_part s g : match_at s = Some g -> part_of g s.
Proof.
  unfold match_at. intros H. apply first_some_In in H as (rest & Hin & Hl).
  apply rmatch_sound in Hin as (w & -> & _).
  apply lazy_until_prefix in Hl as [tail ->]. now exists w, tail.
Qed.

Lemma skills_section_match_part : forall s g,
  skills_section_match s = Some g -> part_of g s.
Proof.
  induction s as [|c s IH]; intros g; cbn [skills_section_match].
  - destruct (match_at []) eqn:Hm; [|discriminate]. intros [= <-].
    now apply match_at_part.
  - destruct (match_at (c :: s)) eqn:Hm.
    + intros [= <-]. now apply match_at_part.
    + intros H. apply part_of_cons. now apply IH.
Qed.

Lemma clean_item_part item : part_of (clean_item item) item.
Proof.
  unfold clean_item, strip_chars, strip.
  eapply part_of_trans; apply strip_by_part.
Qed.

(** Where the skills come from. *)
Lemma skills_from_section text :
  match skills_section_match text with
  | Some g =>
      Forall (fun s => exists piece, In piece (split_on (mem_char skill_delims) g)
                         /\ s = clean_item piece /\ keep_skill s = true)
        (_extract_skills_from_text text)
  | None => _extract_skills_from_text text = []
  end.
Proof.
  unfold _extract_skills_from_text.
  destruct (skills_section_match text) as [g|]; [|reflexivity].
  apply Forall_take, Forall_forall. intros sk Hs.
  apply list_elem_of_In, filter_In in Hs as [Hs Hk].
  apply in_map_iff in Hs as (piece & <- & Hp). now exists piece.
Qed.

(** X1. Every skill that [_extract_skills_from_text] returns, and every
    entry of the [skills] of the parsed resume, is written in the text as
    it is returned: no skill is made up. *)
Theorem extracted_skills_occur_in_text {U : PyUnicode} text :
  Forall (fun s => contains s text = true) (_extract_skills_from_text text)
  /\ Forall (fun s => contains s text = true) (extractSkills text).
Proof.
  assert (H : Forall (fun s => part_of s text) (_extract_skills_from_text text)).
  { pose proof (skills_from_section text) as H.
    destruct (skills_section_match text) as [g|] eqn:Hg; [|rewrite H; constructor].
    apply skills_section_match_part in Hg.
    eapply Forall_impl; [exact H|]. intros s (piece & Hp & -> & _).
    eapply part_of_trans; [apply clean_item_part|].
    eapply part_of_trans; [|exact Hg].
    pose proof (split_on_parts (mem_char skill_delims) g) as Hall.
    rewrite Forall_forall in Hall. now apply Hall, list_elem_of_In. }
  split.
  - eapply Forall_impl; [exact H|]. intros s. apply part_of_contains.
  - unfold extractSkills, uniq. generalize (∅ : gset str).
    induction H as [|x l Hx Hl IH]; intros seen; [constructor|].
    cbn [uniq_loop]. destruct (nonempty _ && _); [|apply IH].
    constructor; [|apply IH]. apply part_of_contains.
    eapply part_of_trans; [apply strip_by_part|exact Hx].
Qed.

(** X2. Whatever the text, [_extract_skills_from_text] returns at most 100
    skills, and each of them has 2 to 50 characters, holds an ASCII letter,
    is not a noise word and holds none of the delimiters of the split
    (comma, bar, the two bullets, line feed, semicolon). *)
Theorem extracted_skills_well_formed text :
  let skills := _extract_skills_from_text text in
  (length skills <= 100)%nat
  /\ Forall (fun s => (2 <= length s <= 50)%nat
                      /\ existsb is_ascii_letter s = true
                      /\ is_noise_word s = false
                      /\ Forall (fun c => mem_char skill_delims c = false) s) skills.
Proof.
  cbn zeta. split.
  { unfold _extract_skills_from_text. rewrite length_firstn. lia. }
  pose proof (skills_from_section text) as H.
  destruct (skills_section_match text) as [g|]; [|rewrite H; constructor].
  eapply Forall_impl; [exact H|]. intros s (piece & Hp & Hs & Hk).
  unfold keep_skill in Hk.
  apply andb_prop in Hk as [Hk Hnoise]. apply andb_prop in Hk as [Hk Hletter].
  apply andb_prop in Hk as [Hk Hmax]. apply andb_prop in Hk as [_ Hmin].
  split; [split; now apply Nat.leb_le|]. split; [exact Hletter|].
  split; [now apply negb_true_iff|].
  subst s. eapply part_of_Forall; [apply clean_item_part|].
  pose proof (split_on_pieces_free (mem_char skill_delims) g) as Hall.
  rewrite Forall_forall in Hall. now apply Hall, list_elem_of_In.
Qed.

(** ** [uniq] and the mapping returned *)

Section UniqMore.
Context {U : PyUnicode}.

Lemma uniq_loop_stripped seq : forall seen,
  Forall (fun y => strip y = y) (uniq_loop lower seen seq).
Proof.
  induction seq as [|x rest IH]; intros seen; [constructor|]. cbn [uniq_loop].
  destruct (nonempty _ && _); [|apply IH].
  constructor; [apply strip_by_idem|apply IH].
Qed.

Lemma uniq_loop_deduplicated seen seq : deduplicated (uniq_loop lower seen seq).
Proof.
  destruct (uniq_loop_keys seq seen) as [Hnd Hall].
  pose proof (uniq_loop_stripped seq seen) as Hst.
  assert (Hmap : map (fun y => lower (strip y)) (uniq_loop lower seen seq)
                 = map lower (uniq_loop lower seen seq)).
  { apply map_ext_in. intros y Hy. rewrite Forall_forall in Hst.
    now rewrite (Hst y) by now apply list_elem_of_In. }
  split; [now rewrite <- Hmap|].
  rewrite Forall_forall in *. intros y Hy. split; [now apply Hst|].
  destruct (Hall y Hy) as [_ Hne]. now rewrite (Hst y Hy) in Hne.
Qed.

Lemma uniq_loop_sublist seq : forall seen,
  uniq_loop lower seen seq `sublist_of` map strip seq.
Proof.
  induction seq as [|x rest IH]; intros seen; [constructor|]. cbn [uniq_loop map].
  destruct (nonempty _ && _); [apply sublist_skip|apply sublist_cons]; apply IH.
Qed.

Lemma uniq_loop_first pre : forall seen x post,
  lower (strip x) <> [] -> lower (strip x) ∉ seen ->
  Forall (fun z => lower (strip z) <> lower (strip x)) pre ->
  In (strip x) (uniq_loop lower seen (pre ++ x :: post)).
Proof.
  induction pre as [|z pre IH]; intros seen x post Hne Hseen Hpre; cbn [app uniq_loop].
  - assert (Hk : nonempty (lower (strip x)) = true)
      by (destruct (lower (strip x)); [congruence|reflexivity]).
    rewrite Hk, bool_decide_eq_false_2 by exact Hseen. now left.
  - inversion Hpre as [|? ? Hz Hpre']; subst.
    destruct (nonempty _ && _); [right|]; apply IH; try assumption.
    intros Hin. apply elem_of_union in Hin as [Hin|Hin]; [|contradiction].
    apply elem_of_singleton in Hin. congruence.
Qed.

(** X3. The entries that [uniq] returns are trimmed, their lowered forms
    are not empty and differ from one another, and no entry is returned
    twice. *)
Theorem uniq_distinct_trimmed seq :
  deduplicated (uniq lower seq) /\ NoDup (uniq lower seq).
Proof.
  pose proof (uniq_loop_deduplicated ∅ seq) as H. split; [exact H|].
  destruct H as [Hnd _]. exact (NoDup_fmap_1 _ _ Hnd).
Qed.

(** X4. [uniq] keeps the order of the sequence: what it returns is a
    subsequence of the trimmed entries; and an entry whose lowered, trimmed
    form is not empty and is that of no entry before it is kept, so that of
    the entries that differ by letter case or by the whitespace around
    them the first one is returned. *)
Theorem uniq_first_occurrences seq :
  uniq lower seq `sublist_of` map strip seq
  /\ forall pre x post,
       seq = pre ++ x :: post ->
       lower (strip x) <> [] ->
       Forall (fun z => lower (strip z) <> lower (strip x)) pre ->
       In (strip x) (uniq lower seq).
Proof.
  split; [apply uniq_loop_sublist|].
  intros pre x post -> Hne Hpre. apply uniq_loop_first; [exact Hne| |exact Hpre].
  apply not_elem_of_empty.
Qed.

End UniqMore.

(** X5. On every input, of whatever type, and whatever the field patterns
    do, [parse_resume_to_json] returns a mapping that holds the input
    itself as [raw_text] and, as [skills], [education] and [experience],
    three lists of trimmed entries whose lowered forms are not empty and
    differ from one another. *)
Theorem parse_resume_to_json_always {U : PyUnicode} (fp : field_patterns)
    (raw_text : pyval) :
  exists d, parse_resume_to_json fp raw_text = ret d
    /\ d !! "raw_text" = Some raw_text
    /\ Forall (fun k => exists l, d !! k = Some (VList l) /\ deduplicated l)
         sequence_keys.
Proof.
  unfold parse_resume_to_json.
  destruct (try_block fp raw_text) as [e|d] eqn:Ht; cbn [try_except].
  - eexists. split; [reflexivity|]. split; [by simplify_map_eq|].
    repeat constructor; exists []; (split; [by simplify_map_eq|]);
      split; constructor.
  - exists d. split; [reflexivity|].
    destruct raw_text; try discriminate. cbn in Ht.
    repeat match type of Ht with
    | bind ?m _ = _ => destruct m; cbn [bind] in Ht; [discriminate Ht|]
    end.
    injection Ht as <-. split; [by simplify_map_eq|].
    repeat constructor; eexists; (split; [by simplify_map_eq|]);
      apply uniq_loop_deduplicated.
Qed.

Lemma uniq_first_occurrences_witness :
  In (u "Python") (uniq ascii_lower case_variants)
  /\ In (u "SQL") (uniq ascii_lower case_variants).
Proof.
  destruct (@uniq_first_occurrences ascii_unicode case_variants) as [_ H]. split.
  - apply (H [] (u " Python ") [u "SQL"; u "python"; u "  "; u "sql "]);
      [reflexivity|discriminate|constructor].
  - apply (H [u " Python "] (u "SQL") [u "python"; u "  "; u "sql "]);
      [reflexivity|discriminate|].
    constructor; [discriminate|constructor].
Defined.

(** ** The education entries *)

Lemma rmatch_found r s rest :
  In rest (rmatch r s) ->
  lang r (firstn (length s - length rest) s)
  /\ s = firstn (length s - length rest) s ++ rest.
Proof.
  intros Hin. apply rmatch_sound in Hin as (w & -> & Hw).
  rewrite length_app, Nat.add_sub, firstn_app, Nat.sub_diag, firstn_all.
  cbn [firstn]. rewrite app_nil_r. now split.
Qed.

(** Every entry of [findall] is a word of the pattern, written in the
    text. *)
Lemma findall_from_entries r : forall s skip,
  Forall (fun e => lang r e /\ part_of e s) (findall_from r skip s).
Proof.
  induction s as [|c s IH]; intros skip.
  - destruct skip; cbn [findall_from]; [|constructor].
    destruct (rmatch r []) as [|rest l] eqn:Hr; constructor; [|constructor].
    destruct (rmatch_found r [] rest) as [Hl Heq]; [rewrite Hr; now left|].
    split; [exact Hl|apply part_of_refl].
  - assert (Htail : forall k, Forall (fun e => lang r e /\ part_of e (c :: s))
                                (findall_from r k s)).
    { intros k. eapply Forall_impl; [apply IH|]. intros e [He Hp].
      split; [exact He|now apply part_of_cons]. }
    destruct skip; cbn [findall_from]; [|apply Htail].
    destruct (rmatch r (c :: s)) as [|rest l] eqn:Hr; [apply Htail|].
    constructor; [|apply Htail].
    destruct (rmatch_found r (c :: s) rest) as [Hl Heq]; [rewrite Hr; now left|].
    split; [exact Hl|]. exists [], rest. exact Heq.
Qed.

(** [findall] finds nothing exactly when no part of the text is a word of
    the pattern. *)
Lemma findall_nil r : forall s,
  findall r s = [] <-> (forall e, part_of e s -> ~ lang r e).
Proof.
  unfold findall. induction s as [|c s IH]; cbn [findall_from].
  - destruct (rmatch r []) as [|rest l] eqn:Hr; split; try discriminate.
    + intros _ e (a & b & Heq) He.
      destruct a; [|discriminate]. destruct e; [|discriminate]. destruct b; [|discriminate].
      pose proof (rmatch_complete r [] [] He) as Hin. cbn in Hin. now rewrite Hr in Hin.
    + reflexivity.
    + intros Hno. exfalso.
      destruct (rmatch_found r [] rest) as [Hl _]; [rewrite Hr; now left|].
      exact (Hno _ (part_of_refl _) Hl).
  - destruct (rmatch r (c :: s)) as [|rest l] eqn:Hr.
    + rewrite IH. split.
      * intros Hno e (a & b & Heq) He. destruct a as [|a0 a].
        -- cbn in Heq. pose proof (rmatch_complete r e b He) as Hin.
           rewrite <- Heq, Hr in Hin. destruct Hin.
        -- injection Heq as _ Heq. apply (Hno e); [now exists a, b|exact He].
      * intros Hno e Hp. apply Hno. now apply part_of_cons.
    + split; [discriminate|]. intros Hno. exfalso.
      destruct (rmatch_found r (c :: s) rest) as [Hl Heq]; [rewrite Hr; now left|].
      apply (Hno _ (ex_intro _ [] (ex_intro _ rest Heq)) Hl).
Qed.

Lemma lit_ci_lang w : forall x, ci_eqb w x = true -> lang (lit_ci w) x.
Proof.
  induction w as [|l w IH]; intros [|c x]; cbn [ci_eqb lit_ci lang]; try discriminate.
  - reflexivity.
  - intros H. apply andb_prop in H as [Hc Hx].
    exists [c], x. split; [reflexivity|]. split; [now exists c|now apply IH].
Qed.

Lemma education_lang e :
  lang education_re e <-> exists name, In name degree_names /\ ci_eqb name e = true.
Proof.
  unfold education_re, degree_names. cbn [lang]. split.
  - intros H. repeat (destruct H as [H|H]; [apply lang_lit_ci in H; eexists;
      (split; [|exact H]); cbn; tauto|]).
    apply lang_lit_ci in H. eexists; (split; [|exact H]); cbn; tauto.
  - intros (name & Hin & He). apply lit_ci_lang in He. cbn [In] in Hin.
    repeat (destruct Hin as [<-|Hin]; [tauto|]). destruct Hin.
Qed.

(** X6. Every entry that [re.findall] returns for the education pattern is
    one of the nine degree names in some letter case, written in the text;
    and it returns nothing exactly when the text holds none of the nine
    names in any letter case. No word boundary is asked for: the name may
    be a part of a longer word. *)
Theorem education_entries text :
  Forall (fun e => (exists name, In name degree_names /\ ci_eqb name e = true)
                   /\ contains e text = true)
    (findall education_re text)
  /\ (findall education_re text = [] <->
      forall name, In name degree_names -> ~ ci_occurs name text).
Proof.
  split.
  - eapply Forall_impl; [apply findall_from_entries|]. intros e [He Hp].
    split; [now apply education_lang|now apply part_of_contains].
  - rewrite findall_nil. split.
    + intros Hno name Hin (pre & h & post & -> & Hh).
      apply (Hno h); [now exists pre, post|]. apply education_lang. now exists name.
    + intros Hno e (a & b & ->) He. apply education_lang in He as (name & Hin & He).
      apply (Hno name Hin). now exists a, e, b.
Qed.

(** ** The e-mail address and the telephone number *)

Lemma search_sound r : forall s e,
  search r s = Some e -> lang r e /\ part_of e s.
Proof.
  induction s as [|c s IH]; intros e; cbn [search].
  - destruct (rmatch r []) as [|rest l] eqn:Hr; [discriminate|]. intros [= <-].
    destruct (rmatch_found r [] rest) as [Hl Heq]; [rewrite Hr; now left|].
    split; [exact Hl|now exists [], rest].
  - destruct (rmatch r (c :: s)) as [|rest l] eqn:Hr.
    + intros H. destruct (IH e H) as [Hl Hp]. split; [exact Hl|now apply part_of_cons].
    + intros [= <-].
      destruct (rmatch_found r (c :: s) rest) as [Hl Heq]; [rewrite Hr; now left|].
      split; [exact Hl|now exists [], rest].
Qed.

Lemma search_None r : forall s,
  search r s = None <-> (forall e, part_of e s -> ~ lang r e).
Proof.
  induction s as [|c s IH]; cbn [search].
  - destruct (rmatch r []) as [|rest l] eqn:Hr; split; try discriminate.
    + intros _ e (a & b & Heq) He.
      destruct a; [|discriminate]. destruct e; [|discriminate]. destruct b; [|discriminate].
      pose proof (rmatch_complete r [] [] He) as Hin. cbn in Hin. now rewrite Hr in Hin.
    + reflexivity.
    + intros Hno. exfalso.
      destruct (rmatch_found r [] rest) as [Hl _]; [rewrite Hr; now left|].
      exact (Hno _ (part_of_refl _) Hl).
  - destruct (rmatch r (c :: s)) as [|rest l] eqn:Hr.
    + rewrite IH. split.
      * intros Hno e (a & b & Heq) He. destruct a as [|a0 a].
        -- cbn in Heq. pose proof (rmatch_complete r e b He) as Hin.
           rewrite <- Heq, Hr in Hin. destruct Hin.
        -- injection Heq as _ Heq. apply (Hno e); [now exists a, b|exact He].
      * intros Hno e Hp. apply Hno. now apply part_of_cons.
    + split; [discriminate|]. intros Hno. exfalso.
      destruct (rmatch_found r (c :: s) rest) as [Hl Heq]; [rewrite Hr; now left|].
      apply (Hno _ (ex_intro _ [] (ex_intro _ rest Heq)) Hl).
Qed.

Section ContactFacts.
Context {R : PyRe}.

(** X7. The e-mail address is empty exactly when no part of the text is a
    word of the e-mail pattern; when it is not empty it is written in the
    text and is made of a local part, an at sign, a domain, a dot and a
    last label, none of them empty, the two first of word characters, dots
    and hyphens and the last of word characters. *)
Theorem email_shape text :
  let email := find_email text in
  (email = [] <-> forall e, part_of e text -> ~ lang email_re e)
  /\ (email <> [] ->
      contains email text = true
      /\ exists local_ domain tld,
           email = local_ ++ u "@" ++ domain ++ u "." ++ tld
           /\ local_ <> [] /\ domain <> [] /\ tld <> []
           /\ Forall (fun c => email_char c = true) (local_ ++ domain)
           /\ Forall (fun c => is_word c = true) tld).
Proof.
  cbn zeta. unfold find_email.
  destruct (search email_re text) as [e|] eqn:Hs.
  - apply search_sound in Hs as [Hl Hp].
    cbn [email_re lang] in Hl.
    destruct Hl as (l & r1 & -> & [Hl1 Hl2] & (at_ & r2 & -> & (c1 & -> & Hc1)
      & (dm & r3 & -> & [Hd1 Hd2] & (dot & tld & -> & (c2 & -> & Hc2) & [Ht1 Ht2])))).
    apply N.eqb_eq in Hc1, Hc2. subst c1 c2. split.
    + split; [intros He; now destruct l|].
      intros Hno. exfalso. apply (Hno _ Hp). cbn [email_re lang].
      exists l, ([64] ++ dm ++ [46] ++ tld). split; [reflexivity|]. split; [now split|].
      exists [64], (dm ++ [46] ++ tld). split; [reflexivity|].
      split; [exists 64; now split|].
      exists dm, ([46] ++ tld). split; [reflexivity|]. split; [now split|].
      exists [46], tld. split; [reflexivity|]. split; [exists 46; now split|now split].
    + intros _. split; [now apply part_of_contains|].
      exists l, dm, tld. repeat split; try assumption. now apply Forall_app.
  - split; [|congruence]. split; [intros _; now apply search_None|reflexivity].
Qed.

Lemma lang_digits3 w :
  lang digits3 w ->
  length w = 3%nat /\ Forall (fun c => is_decimal c = true) w.
Proof.
  intros (a & r & -> & (c1 & -> & H1) & (b & c & -> & (c2 & -> & H2) & (c3 & -> & H3))).
  split; [reflexivity|]. repeat constructor; assumption.
Qed.

Lemma lang_phone_sep w :
  lang phone_sep w ->
  (length w <= 1)%nat /\ Forall (fun c => phone_sep_char c = true) w.
Proof.
  intros [->|(c & -> & Hc)]; cbn; split; try lia; repeat constructor; exact Hc.
Qed.

Lemma lang_opt_chr k w :
  lang (Opt (Chr (N.eqb k))) w -> (length w <= 1)%nat /\ Forall (fun c => c = k) w.
Proof.
  intros [->|(c & -> & Hc)]; cbn; split; try lia; repeat constructor.
  apply N.eqb_eq in Hc. now subst.
Qed.

Lemma phone_char_decimal c : is_decimal c = true -> phone_char c = true.
Proof. unfold phone_char. intros ->. now rewrite orb_true_r. Qed.

Lemma phone_char_sep c : phone_sep_char c = true -> phone_char c = true.
Proof. unfold phone_char. intros ->. now rewrite orb_true_r. Qed.

Lemma phone_lang p :
  lang phone_re p ->
  (7 <= length p <= 19)%nat
  /\ (7 <= length (List.filter is_decimal p))%nat
  /\ Forall (fun c => phone_char c = true) p.
Proof.
  unfold phone_re. cbn [lang].
  intros (g1 & r1 & -> & Hg1 & (g2 & tl & -> & Hg2 & Htl)).
  assert (H1 : (length g1 <= 5)%nat /\ Forall (fun c => phone_char c = true) g1).
  { destruct Hg1 as [->|(pl & r & -> & Hpl & (ds & sp & -> & Hds & Hsp))];
      [split; [cbn; lia|constructor]|].
    apply lang_opt_chr in Hpl as [Lpl Fpl]. apply lang_phone_sep in Hsp as [Lsp Fsp].
    destruct Hds as (d1 & r & -> & (c1 & -> & Hc1) & Hr).
    assert (Hr' : (length r <= 2)%nat /\ Forall (fun c => is_decimal c = true) r).
    { destruct Hr as [->|(d2 & r' & -> & (c2 & -> & Hc2) & Hr')]; [split; [cbn; lia|constructor]|].
      destruct Hr' as [->|(c3 & -> & Hc3)]; cbn; split; try lia; repeat constructor; assumption. }
    destruct Hr' as [Lr Fr]. split.
    - rewrite !length_app. cbn [length]. lia.
    - repeat (apply Forall_app; split).
      + eapply Forall_impl; [exact Fpl|]. intros c ->. reflexivity.
      + constructor; [now apply phone_char_decimal|constructor].
      + eapply Forall_impl; [exact Fr|]. intros c. apply phone_char_decimal.
      + eapply Forall_impl; [exact Fsp|]. intros c. apply phone_char_sep. }
  assert (H2 : (length g2 <= 6)%nat /\ Forall (fun c => phone_char c = true) g2).
  { destruct Hg2 as [->|(op & r & -> & Hop & (ds & r' & -> & Hds & (cl & sp & -> & Hcl & Hsp)))];
      [split; [cbn; lia|constructor]|].
    apply lang_opt_chr in Hop as [Lop Fop]. apply lang_opt_chr in Hcl as [Lcl Fcl].
    apply lang_phone_sep in Hsp as [Lsp Fsp]. apply lang_digits3 in Hds as [Lds Fds].
    split.
    - rewrite !length_app. lia.
    - repeat (apply Forall_app; split).
      + eapply Forall_impl; [exact Fop|]. intros c ->. reflexivity.
      + eapply Forall_impl; [exact Fds|]. intros c. apply phone_char_decimal.
      + eapply Forall_impl; [exact Fcl|]. intros c ->. reflexivity.
      + eapply Forall_impl; [exact Fsp|]. intros c. apply phone_char_sep. }
  destruct Htl as (d3 & r & -> & Hd3 & (sp & d4 & -> & Hsp & Hd4)).
  apply lang_digits3 in Hd3 as [L3 F3]. apply lang_phone_sep in Hsp as [Lsp Fsp].
  destruct Hd4 as (d & r4 & -> & (c4 & -> & Hc4) & Hr4).
  apply lang_digits3 in Hr4 as [L4 F4].
  destruct H1 as [L1 F1], H2 as [L2 F2]. split; [|split].
  - rewrite !length_app. cbn [length]. lia.
  - rewrite !List.filter_app, !length_app.
    assert (Hall : forall w, Forall (fun c => is_decimal c = true) w ->
                     length (List.filter is_decimal w) = length w).
    { intros w Hw. rewrite forallb_filter_id; [reflexivity|].
      apply forallb_forall. rewrite Forall_forall in Hw.
      intros x Hx. now apply Hw, list_elem_of_In. }
    rewrite (Hall d3 F3), (Hall r4 F4). cbn [List.filter]. rewrite Hc4. cbn [length]. lia.
  - repeat (apply Forall_app; split); try assumption.
    + eapply Forall_impl; [exact F3|]. intros c. apply phone_char_decimal.
    + eapply Forall_impl; [exact Fsp|]. intros c. apply phone_char_sep.
    + constructor; [now apply phone_char_decimal|constructor].
    + eapply Forall_impl; [exact F4|]. intros c. apply phone_char_decimal.
Qed.

(** X8. The telephone number is empty exactly when no part of the text is
    a word of the telephone pattern; when it is not empty it is written in
    the text, has 7 to 19 characters, at least 7 of them decimal digits,
    and holds nothing but decimal digits, whitespace, hyphens, dots, a plus
    and parentheses. *)
Theorem phone_shape text :
  let phone := find_phone text in
  (phone = [] <-> forall p, part_of p text -> ~ lang phone_re p)
  /\ (phone <> [] ->
      contains phone text = true
      /\ (7 <= length phone <= 19)%nat
      /\ (7 <= length (List.filter is_decimal phone))%nat
      /\ Forall (fun c => phone_char c = true) phone).
Proof.
  cbn zeta. unfold find_phone.
  destruct (search phone_re text) as [p|] eqn:Hs.
  - apply search_sound in Hs as [Hl Hp].
    pose proof (phone_lang p Hl) as (Hlen & Hdig & Hch). split.
    + split; [intros ->; cbn in Hlen; lia|].
      intros Hno. exfalso. exact (Hno _ Hp Hl).
    + intros _. split; [now apply part_of_contains|]. now repeat split.
  - split; [|congruence]. split; [intros _; now apply search_None|reflexivity].
Qed.

End ContactFacts.

Lemma email_shape_witness :
  @find_email ascii_re test_resume_1 = u "john.doe@email.com"
  /\ contains (@find_email ascii_re test_resume_1) test_resume_1 = true.
Proof.
  split; [vm_compute; reflexivity|].
  apply (proj2 (@email_shape ascii_re test_resume_1)). vm_compute. discriminate.
Defined.

Lemma phone_shape_witness :
  @find_phone ascii_re test_resume_1 = u "(555) 123-4567"
  /\ (7 <= length (@find_phone ascii_re test_resume_1) <= 19)%nat.
Proof.
  split; [vm_compute; reflexivity|].
  apply (proj2 (@phone_shape ascii_re test_resume_1)). vm_compute. discriminate.
Defined.

(** ** The name *)











Section NameFacts.
Context {R : PyRe}.


End NameFacts.


(** ** The experience entries and the seniority part *)

Lemma pair_free_two a b r :
  pair_free (a :: b :: r) = negb (seniority_pair a b) && pair_free (b :: r).
Proof. reflexivity. Qed.

Lemma pair_free_cons a s : pair_free (a :: s) = true -> pair_free s = true.
Proof.
  destruct s as [|b s]; [reflexivity|]. rewrite pair_free_two.
  intros H. now apply andb_prop in H as [_ H].
Qed.

Lemma pair_free_prefix x : forall y, pair_free (x ++ y) = true -> pair_free x = true.
Proof.
  induction x as [|a x IH]; intros y; [reflexivity|].
  destruct x as [|b x]; [reflexivity|]. cbn [app]. rewrite !pair_free_two.
  intros H. apply andb_prop in H as [Hab H]. rewrite Hab. cbn [andb].
  exact (IH y H).
Qed.

Lemma pair_free_suffix x : forall y, pair_free (x ++ y) = true -> pair_free y = true.
Proof.
  induction x as [|a x IH]; intros y H; [exact H|].
  apply IH. cbn [app] in H. now apply pair_free_cons in H.
Qed.

Lemma pair_free_part w s : part_of w s -> pair_free s = true -> pair_free w = true.
Proof.
  intros (a & b & ->) H. apply pair_free_suffix in H. now apply pair_free_prefix in H.
Qed.

Lemma seniority_pair_neutral_l c b : neutral c = true -> seniority_pair c b = false.
Proof.
  unfold neutral, seniority_pair. intros H. apply negb_true_iff in H.
  repeat (apply orb_false_elim in H as [H ?]).
  now repeat match goal with Hx : (c =? _) = false |- _ => rewrite Hx; clear Hx end.
Qed.

Lemma seniority_pair_neutral_r a c : neutral c = true -> seniority_pair a c = false.
Proof.
  unfold neutral, seniority_pair. intros H. apply negb_true_iff in H.
  repeat (apply orb_false_elim in H as [H ?]).
  repeat match goal with Hx : (c =? _) = false |- _ => rewrite Hx; clear Hx end.
  now rewrite !andb_false_r.
Qed.

Lemma pair_free_neutral c y : neutral c = true -> pair_free (c :: y) = pair_free y.
Proof.
  intros Hc. destruct y as [|b y]; [reflexivity|]. rewrite pair_free_two.
  now rewrite seniority_pair_neutral_l.
Qed.

Lemma pair_free_run n y :
  forallb neutral n = true -> pair_free (n ++ y) = pair_free y.
Proof.
  induction n as [|c n IH]; [reflexivity|]. cbn [forallb app].
  intros H. apply andb_prop in H as [Hc Hn].
  now rewrite pair_free_neutral, IH.
Qed.

Lemma pair_free_around c x : forall y,
  neutral c = true ->
  pair_free x = true -> pair_free y = true -> pair_free (x ++ c :: y) = true.
Proof.
  intros y Hc. induction x as [|a x IH]; intros Hx Hy; cbn [app].
  - now rewrite pair_free_neutral.
  - destruct x as [|b x].
    + cbn [app]. rewrite pair_free_two, seniority_pair_neutral_r by exact Hc.
      cbn [negb andb]. now rewrite pair_free_neutral.
    + cbn [app] in *. rewrite pair_free_two in Hx |- *.
      apply andb_prop in Hx as [Hab Hx].
      rewrite Hab. cbn [andb]. now apply IH.
Qed.

Lemma pair_free_join zs :
  Forall (fun z => pair_free z = true) zs -> pair_free (join (u " ") zs) = true.
Proof.
  induction 1 as [|z zs Hz Hzs IH]; [reflexivity|]. cbn [join].
  destruct zs as [|z' zs]; [exact Hz|].
  change (z ++ u " " ++ join (u " ") (z' :: zs))
    with (z ++ 32 :: join (u " ") (z' :: zs)).
  now apply pair_free_around.
Qed.

Lemma pair_free_no_seniority s :
  pair_free s = true -> any_in seniority_words s = false.
Proof.
  intros H. unfold any_in, seniority_words. cbn [existsb].
  assert (Hw : forall w, pair_free w = false -> contains w s = false).
  { intros w Hw. destruct (contains w s) eqn:Hc; [|reflexivity].
    apply part_of_contains in Hc. rewrite (pair_free_part w s Hc H) in Hw.
    discriminate. }
  now rewrite !Hw by reflexivity.
Qed.

(** Lowering an ASCII text. *)
Lemma ascii_lower_app a b : ascii_lower (a ++ b) = ascii_lower a ++ ascii_lower b.
Proof. apply map_app. Qed.

Lemma ascii_lower_part w s : part_of w s -> part_of (ascii_lower w) (ascii_lower s).
Proof.
  intros (a & b & ->). exists (ascii_lower a), (ascii_lower b).
  now rewrite !ascii_lower_app.
Qed.

Lemma ascii_lower_join sep l :
  ascii_lower (join sep l) = join (ascii_lower sep) (map ascii_lower l).
Proof.
  induction l as [|x l IH]; [reflexivity|]. cbn [join map].
  destruct l as [|y l]; [reflexivity|].
  rewrite !ascii_lower_app, IH. reflexivity.
Qed.

Lemma ci_ascii l c :
  ci l c = true -> c < 128 ->
  (if (65 <=? c) && (c <=? 90) then c + 32 else c) = l.
Proof.
  unfold ci, sre_lower_unicode, ignorecase_fixes. intros H Hc.
  assert (H1 : (c =? 0x130) = false) by (apply N.eqb_neq; lia).
  assert (H2 : (c =? 0x212a) = false) by (apply N.eqb_neq; lia).
  destruct ((65 <=? c) && (c <=? 90)) eqn:Hup.
  - apply andb_prop in Hup as [Hlo Hhi]. apply N.leb_le in Hlo, Hhi.
    cbn [existsb] in H. apply orb_prop in H as [H|H]; [now apply N.eqb_eq in H|].
    exfalso. destruct (l =? 105); [|destruct (l =? 115)]; cbn [existsb] in H;
      rewrite ?orb_false_r in H; try discriminate; apply N.eqb_eq in H; lia.
  - rewrite H1, H2 in H. cbn [existsb] in H.
    apply orb_prop in H as [H|H]; [now apply N.eqb_eq in H|].
    exfalso. destruct (l =? 105); [|destruct (l =? 115)]; cbn [existsb] in H;
      rewrite ?orb_false_r in H; try discriminate; apply N.eqb_eq in H; lia.
Qed.

Lemma ci_eqb_ascii_lower w : forall x,
  ci_eqb w x = true -> ascii_text x -> ascii_lower x = w.
Proof.
  induction w as [|l w IH]; intros [|c x]; cbn [ci_eqb]; try discriminate;
    [reflexivity|].
  intros H Hx. apply andb_prop in H as [Hc Hw]. inversion Hx as [|? ? Hc' Hx']; subst.
  cbn [ascii_lower map]. f_equal; [now apply ci_ascii|]. now apply IH.
Qed.

Lemma ascii_text_app a b : ascii_text (a ++ b) <-> ascii_text a /\ ascii_text b.
Proof. apply Forall_app. Qed.

Lemma low_run_neutral n :
  Forall (fun c => c < 65) n ->
  forallb neutral (ascii_lower n) = true.
Proof.
  induction 1 as [|c n Hc Hn IH]; [reflexivity|]. cbn [ascii_lower map forallb].
  fold (ascii_lower n). rewrite IH, andb_true_r.
  assert (Hup : (65 <=? c) = false) by (apply N.leb_gt; lia).
  rewrite Hup. cbn [andb]. unfold neutral.
  repeat match goal with
  | |- context [c =? ?k] => replace (c =? k) with false by (symmetry; apply N.eqb_neq; lia)
  end.
  reflexivity.
Qed.

Lemma is_space_ascii c : is_space c = true -> c < 128 -> c < 65.
Proof.
  unfold is_space. intros H Hc.
  repeat (apply orb_prop in H as [H|H]);
    try (apply andb_prop in H as [H1 H2]; apply N.leb_le in H1, H2; lia);
    apply N.eqb_eq in H; lia.
Qed.

Section ExperienceTokens.
Context {R : PyRe}.

Lemma is_decimal_low c : is_decimal c = true -> c < 128 -> c < 65.
Proof.
  intros H Hc. rewrite (is_decimal_ascii c Hc) in H.
  apply andb_prop in H as [_ H]. apply N.leb_le in H. lia.
Qed.

Lemma experience_token_pair_free t :
  lang experience_re t -> ascii_text t -> pair_free (ascii_lower t) = true.
Proof.
  unfold experience_re. cbn [lang].
  assert (Hword : forall w, lang (lit_ci w) t -> ascii_text t -> ascii_lower t = w).
  { intros w Hw Ht. apply ci_eqb_ascii_lower; [now apply lang_lit_ci|exact Ht]. }
  intros [H|[H|[H|[H|H]]]] Ht;
    try (rewrite (Hword _ H Ht); reflexivity).
  destruct H as (d & r1 & -> & [_ Hd] & (p & r2 & -> & Hp & (w & yrs & -> & Hw & Hy))).
  apply ascii_text_app in Ht as [Htd Ht]. apply ascii_text_app in Ht as [Htp Ht].
  apply ascii_text_app in Ht as [Htw Hty].
  rewrite !ascii_lower_app.
  rewrite (ci_eqb_ascii_lower _ _ (lang_lit_ci _ _ Hy) Hty).
  rewrite !pair_free_run; [reflexivity| | |].
  - apply low_run_neutral. destruct Hw as [->|(c & -> & Hc)]; [constructor|].
    constructor; [|constructor]. inversion Htw; subst. now apply is_space_ascii.
  - apply low_run_neutral. destruct Hp as [->|(c & -> & Hc)]; [constructor|].
    constructor; [|constructor]. apply N.eqb_eq in Hc. subst c. reflexivity.
  - apply low_run_neutral. unfold ascii_text in Htd. rewrite Forall_forall in *.
    intros c Hc. apply is_decimal_low; [now apply Hd|now apply Htd].
Qed.

End ExperienceTokens.

Lemma uniq_loop_from {U : PyUnicode} seq : forall seen,
  Forall (fun y => exists x, In x seq /\ y = strip x) (uniq_loop lower seen seq).
Proof.
  induction seq as [|x rest IH]; intros seen; [constructor|]. cbn [uniq_loop].
  assert (Hrest : forall seen', Forall (fun y => exists x0, In x0 (x :: rest) /\ y = strip x0)
                                  (uniq_loop lower seen' rest)).
  { intros seen'. eapply Forall_impl; [apply IH|]. intros y (x0 & Hin & ->).
    exists x0. split; [now right|reflexivity]. }
  destruct (nonempty _ && _); [|apply Hrest].
  constructor; [|apply Hrest]. exists x. split; [now left|reflexivity].
Qed.

Lemma join_ascii l :
  Forall ascii_text l -> ascii_text (join (u " ") l).
Proof.
  induction 1 as [|x l Hx Hl IH]; [constructor|]. cbn [join].
  destruct l as [|y l]; [exact Hx|].
  apply ascii_text_app. split; [exact Hx|]. apply ascii_text_app. split; [|exact IH].
  repeat constructor.
Qed.

Lemma uniq_tokens_never_senior {U : PyUnicode} {R : PyRe} text r :
  (forall s, ascii_text s -> lower s = ascii_lower s) ->
  ascii_text text ->
  experience r = uniq lower (findall experience_re text) ->
  any_in seniority_words (experience_text r) = false.
Proof.
  intros Hlow Htext Hexp. unfold experience_text. rewrite Hexp.
  assert (Hys : Forall (fun y => ascii_text y /\ pair_free (ascii_lower y) = true)
                  (uniq lower (findall experience_re text))).
  { eapply Forall_impl; [apply uniq_loop_from|]. intros y (x & Hx & ->).
    pose proof (findall_from_entries experience_re text 0) as Hall.
    rewrite Forall_forall in Hall. destruct (Hall x) as [Hlang Hpart].
    { now apply list_elem_of_In. }
    assert (Hax : ascii_text x) by exact (part_of_Forall _ _ _ Hpart Htext).
    pose proof (strip_by_part is_space x) as Hst. fold (strip x) in Hst. split.
    - exact (part_of_Forall _ _ _ Hst Hax).
    - eapply pair_free_part; [apply ascii_lower_part, Hst|].
      now apply experience_token_pair_free. }
  rewrite Hlow.
  - apply pair_free_no_seniority. rewrite ascii_lower_join.
    apply pair_free_join. apply Forall_fmap.
    eapply Forall_impl; [exact Hys|]. now intros y [_ Hy].
  - apply join_ascii. eapply Forall_impl; [exact Hys|]. now intros y [Hy _].
Qed.

(** X10. For an ASCII text, which [str.lower] lowers letter by letter, the
    [experience] that [parse_resume_to_json] returns never holds "senior",
    "lead" or "principal" once joined and lowered, whatever the text says:
    its entries are the matches of the experience pattern only. Scored
    against a resume read by this parser, a listing that mentions a
    seniority word earns nothing in the seniority part, and any other
    listing 20: the 30 points are out of reach. *)
Theorem parsed_experience_never_senior {F : Float64} {U : PyUnicode} {R : PyRe}
    (location_of : str -> result str) (text : str) (d : gmap string pyval) :
  (forall s, ascii_text s -> lower s = ascii_lower s) ->
  ascii_text text ->
  parse_resume_to_json (parser_patterns location_of) (VStr text) = ret d ->
  any_in seniority_words (experience_text (resume_of d)) = false
  /\ forall job score,
       add_seniority (resume_of d) job score
       = if any_in seniority_words (job_text job) then score
         else num_add score (PInt 20).
Proof.
  intros Hlow Htext Hparse.
  assert (H : any_in seniority_words (experience_text (resume_of d)) = false).
  { unfold parse_resume_to_json in Hparse.
    destruct (try_block (parser_patterns location_of) (VStr text)) as [e|d'] eqn:Ht;
      cbn [try_except on_error ret] in Hparse; injection Hparse as <-.
    - unfold experience_text, resume_of. cbn [experience].
      replace (_ !! "experience") with (Some (VList [])) by (by simplify_map_eq).
      cbn [join]. now rewrite Hlow by constructor.
    - cbn [try_block as_text bind ret parser_patterns findall_education
             findall_experience search_email search_phone name_heuristic
             location_heuristic] in Ht.
      destruct (location_of text); cbn [bind] in Ht; [discriminate Ht|].
      injection Ht as <-. apply (uniq_tokens_never_senior text); [exact Hlow|exact Htext|].
      unfold resume_of. cbn [experience]. by simplify_map_eq. }
  split; [exact H|]. intros job score. unfold add_seniority. now rewrite H.
Qed.

Lemma ascii_text_test_resume_1 : ascii_text test_resume_1.
Proof.
  apply Forall_forall. intros c Hc. apply list_elem_of_In in Hc.
  assert (H : forallb (fun c => c <? 128) test_resume_1 = true) by (vm_compute; reflexivity).
  rewrite forallb_forall in H. now apply N.ltb_lt, H.
Qed.

Lemma parsed_experience_never_senior_witness :
  exists d,
    @parse_resume_to_json ascii_unicode (@parser_patterns ascii_re (fun _ => ret []))
      (VStr test_resume_1) = ret d
    /\ experience (resume_of d) = [u "EXPERIENCE"; u "5 years"]
    /\ any_in seniority_words (@experience_text ascii_unicode (resume_of d)) = false.
Proof.
  eexists. split; [reflexivity|]. split; [vm_compute; reflexivity|].
  refine (proj1 (@parsed_experience_never_senior binary64 ascii_unicode ascii_re
                   (fun _ => ret []) test_resume_1 _ _ ascii_text_test_resume_1 eq_refl)).
  intros s _. reflexivity.
Defined.

(** ** The providers *)

Section Counters.
Context {F : Float64} {U : PyUnicode} {D : DateLib}.
Context (query_hash : SearchQuery -> Z).

Lemma api_name_other p : api_name (other_provider p) <> api_name p.
Proof. destruct p; discriminate. Qed.

(** The two provider functions, as one. *)
Lemma provider_search_eq p s env q n :
  provider_search p s env q n =
  if negb (configured p s) then ([], s, [])
  else
    let '(limited, rl) :=
      _is_rate_limited (api_name p) (provider_time p env) (rate_limits s) in
    let s1 := set_rate_limits rl s in
    if limited then ([], s1, [])
    else match provider_answer p env with
         | None => ([], s1, [provider_request p q n])
         | Some jobs =>
             (jobs, set_rate_limits (count_call (api_name p) rl) s1,
              [provider_request p q n])
         end.
Proof.
  destruct p; cbn [provider_search configured api_name provider_time
                   provider_answer provider_request];
    [unfold _search_adzuna; destruct (has_adzuna s)
    |unfold _search_rapidapi; destruct (has_rapidapi s)];
    cbn [negb]; try reflexivity;
    destruct (_is_rate_limited _ _ _) as [[] rl]; try reflexivity.
  - now destruct (adzuna_http env).
  - now destruct (rapidapi_http env).
Qed.

(** The check of one provider: the window it leaves and its verdict. *)
Lemma _is_rate_limited_eq p now rl rate :
  rl !! api_name p = Some rate ->
  let rate' := if qlt (reset_time rate) now then fresh_window now else rate in
  _is_rate_limited (api_name p) now rl
  = ((ceiling p <=? calls rate')%Z,
     if qlt (reset_time rate) now then <[api_name p := rate']> rl else rl).
Proof.
  intros Hrl. cbn zeta. unfold _is_rate_limited. rewrite Hrl.
  destruct (qlt (reset_time rate) now); now destruct p.
Qed.

Lemma _is_rate_limited_unknown api now rl :
  rl !! api = None -> _is_rate_limited api now rl = (false, rl).
Proof. intros H. unfold _is_rate_limited. now rewrite H. Qed.

Lemma provider_search_frame p s env q n :
  let s' := (provider_search p s env q n).1.2 in
  cache s' = cache s
  /\ has_adzuna s' = has_adzuna s
  /\ has_rapidapi s' = has_rapidapi s
  /\ rate_limits s' !! api_name (other_provider p) = rate_limits s !! api_name (other_provider p).
Proof.
  cbn zeta. rewrite provider_search_eq.
  destruct (configured p s); cbn [negb]; [|repeat split].
  pose proof (api_name_other p) as Hne.
  destruct (rate_limits s !! api_name p) as [rate|] eqn:Hrl.
  - rewrite (_is_rate_limited_eq p _ _ rate Hrl).
    set (rate' := if qlt _ _ then _ else _).
    destruct (ceiling p <=? calls rate')%Z;
      [|destruct (provider_answer p env)]; cbn; repeat split;
      unfold count_call;
      destruct (qlt (reset_time rate) (provider_time p env));
      rewrite ?lookup_insert_eq, ?Hrl; cbn;
      rewrite ?lookup_insert_ne by congruence; reflexivity.
  - rewrite (_is_rate_limited_unknown _ _ _ Hrl).
    destruct (provider_answer p env); cbn; unfold count_call; rewrite ?Hrl;
      repeat split.
Qed.

Lemma provider_search_bounded p s env q n :
  counter_bounded p s ->
  counter_bounded p (provider_search p s env q n).1.2.
Proof.
  intros (rate & Hrl & Hb). rewrite provider_search_eq.
  destruct (configured p s); cbn [negb]; [|now exists rate].
  rewrite (_is_rate_limited_eq p _ _ rate Hrl).
  set (rate' := if qlt _ _ then _ else _).
  assert (Hb' : (0 <= calls rate' <= ceiling p)%Z).
  { subst rate'. destruct (qlt _ _); [|exact Hb]. cbn. destruct p; cbn; lia. }
  assert (Hrl' : (if qlt (reset_time rate) (provider_time p env)
                  then <[api_name p := rate']> (rate_limits s) else rate_limits s)
                 !! api_name p = Some rate').
  { subst rate'. destruct (qlt _ _); [apply lookup_insert_eq|exact Hrl]. }
  destruct (ceiling p <=? calls rate')%Z eqn:Hc.
  - exists rate'. now split.
  - apply Z.leb_gt in Hc. destruct (provider_answer p env).
    + cbn. unfold count_call. rewrite Hrl'.
      eexists. split; [apply lookup_insert_eq|]. cbn. lia.
    + exists rate'. now split.
Qed.


(** [fetch_jobs], by the two provider calls that it makes. *)
Lemma fetch_jobs_eq s env r q n :
  let a := if has_adzuna s && (0 <? n)%Z
           then provider_search Adzuna s env q n else ([], s, []) in
  let b := if has_rapidapi a.1.2 && (Z.of_nat (length a.1.1) <? n)%Z
           then provider_search RapidAPI a.1.2 env q (n - Z.of_nat (length a.1.1))
           else ([], a.1.2, []) in
  let raw := a.1.1 ++ b.1.1 in
  fetch_jobs s env r q n
  = (_calculate_match_scores
       (if nonempty raw then raw else _generate_enhanced_mock_jobs q n r) r,
     b.1.2, a.2 ++ b.2).
Proof.
  cbn zeta. unfold fetch_jobs. cbn [provider_search].
  destruct (if has_adzuna s && _ then _ else _) as [[jobs1 s1] sent1]. cbn [fst snd].
  destruct (has_rapidapi s1 && _).
  - now destruct (_search_rapidapi _ _ _ _) as [[more s2] sent2].
  - cbn [fst snd]. now rewrite !app_nil_r.
Qed.

Lemma fetch_jobs_bounded p s env r q n :
  counter_bounded p s -> counter_bounded p (fetch_jobs s env r q n).1.2.
Proof.
  intros Hb. rewrite fetch_jobs_eq. cbn [fst snd].
  set (a := if has_adzuna s && _ then _ else _).
  assert (Ha : counter_bounded p a.1.2).
  { subst a. destruct (has_adzuna s && _); [|exact Hb].
    destruct p; [now apply provider_search_bounded|].
    destruct Hb as (rate & Hrl & Hb). exists rate. split; [|exact Hb].
    rewrite <- Hrl. apply (provider_search_frame Adzuna). }
  destruct (has_rapidapi a.1.2 && _); [|exact Ha].
  destruct p; [|now apply provider_search_bounded].
  destruct Ha as (rate & Hrl & Ha). exists rate. split; [|exact Ha].
  rewrite <- Hrl. apply (provider_search_frame RapidAPI).
Qed.

Lemma search_jobs_rate_limits s env r q n :
  rate_limits (search_jobs query_hash s env r q n).1.2
  = match cached query_hash s env q n with
    | Some _ => rate_limits s
    | None => rate_limits (fetch_jobs s env r q n).1.2
    end.
Proof.
  unfold search_jobs. destruct (cached _ _ _ _ _); [reflexivity|].
  now destruct (fetch_jobs s env r q n) as [[jobs s'] sent].
Qed.

Lemma search_jobs_bounded p s env r q n :
  counter_bounded p s -> counter_bounded p (search_jobs query_hash s env r q n).1.2.
Proof.
  intros Hb. unfold counter_bounded. rewrite search_jobs_rate_limits.
  destruct (cached _ _ _ _ _); [exact Hb|]. now apply fetch_jobs_bounded.
Qed.

(** X11. On every instance that calls lead to, the counter of each provider
    is present and lies between 0 and the ceiling of the provider (100 for
    Adzuna, 50 for RapidAPI). *)
Theorem reachable_counters_bounded s p :
  reachable query_hash s -> counter_bounded p s.
Proof.
  induction 1 as [| s env r q n _ IH].
  - destruct p; eexists; (split; [cbn; by simplify_map_eq|cbn; lia]).
  - now apply search_jobs_bounded.
Qed.

End Counters.

Lemma reachable_counters_bounded_witness :
  counter_bounded RapidAPI after_first_call /\ counter_bounded Adzuna after_first_call.
Proof.
  assert (H : @reachable binary64 ascii_unicode date_only_lib sample_hash after_first_call).
  { unfold after_first_call. apply reach_search. constructor. }
  split; apply (@reachable_counters_bounded binary64 ascii_unicode date_only_lib
                  sample_hash after_first_call _ H).
Defined.

Section Requests.
Context {F : Float64} {U : PyUnicode} {D : DateLib}.
Context (query_hash : SearchQuery -> Z).

Lemma provider_failed_answer p env :
  provider_failed p env -> provider_answer p env = None.
Proof. destruct p; cbn; now intros ->. Qed.

Lemma provider_search_failed p s rate env q n :
  rate_limits s !! api_name p = Some rate ->
  configured p s = true ->
  (calls rate < ceiling p)%Z ->
  (provider_time p env <= reset_time rate)%Q ->
  provider_failed p env ->
  provider_search p s env q n = ([], s, [provider_request p q n]).
Proof.
  intros Hrl Hcfg Hc Ht Hf. rewrite provider_search_eq, Hcfg. cbn [negb].
  rewrite (_is_rate_limited_in_window p _ rate) by assumption.
  apply Z.leb_gt in Hc. rewrite Hc, set_rate_limits_same.
  now rewrite (provider_failed_answer _ _ Hf).
Qed.

(** X12. A request that fails is sent but not counted: below the ceiling
    and within the window, any number of calls whose request fails send
    their request each and leave the instance as it was. *)
Theorem failed_requests_not_counted p s rate :
  rate_limits s !! api_name p = Some rate ->
  configured p s = true ->
  (calls rate < ceiling p)%Z ->
  forall cs : list (call_env * SearchQuery * Z),
    Forall (fun c => (provider_time p c.1.1 <= reset_time rate)%Q
                     /\ provider_failed p c.1.1) cs ->
    provider_calls p s cs
    = (map (fun c => ([], [provider_request p c.1.2 c.2])) cs, s).
Proof.
  intros Hrl Hcfg Hc cs.
  induction 1 as [|[[env q] n] cs [Ht Hf] _ IH]; [reflexivity|].
  cbn [provider_calls map fst snd]. cbn [fst snd] in Ht, Hf.
  rewrite (provider_search_failed p s rate env q n Hrl Hcfg Hc Ht Hf), IH.
  reflexivity.
Qed.

End Requests.

Lemma failed_requests_not_counted_witness :
  @provider_calls binary64 ascii_unicode date_only_lib Adzuna adzuna_only failing_calls
  = (map (fun c => ([], [provider_request Adzuna c.1.2 c.2])) failing_calls, adzuna_only).
Proof.
  eapply (@failed_requests_not_counted binary64 ascii_unicode date_only_lib
            Adzuna adzuna_only).
  - vm_compute. reflexivity.
  - reflexivity.
  - cbn. lia.
  - repeat constructor; cbn; unfold Qle; cbn; lia.
Defined.

(** ** The synthetic listings *)

Lemma u_inj a b : u a = u b -> a = b.
Proof.
  revert b. induction a as [|c a IH]; intros [|d b]; cbn; try discriminate;
    [reflexivity|].
  intros [= Hc Hr]. f_equal; [|now apply IH].
  rewrite <- (ascii_N_embedding c), <- (ascii_N_embedding d). now rewrite Hc.
Qed.

Lemma str_of_Z_inj a b : str_of_Z a = str_of_Z b -> a = b.
Proof.
  unfold str_of_Z. intros H. apply u_inj in H. apply to_int_inj.
  assert (Hn : forall z, Z.to_int z <> Decimal.Pos Decimal.Nil
                         /\ Z.to_int z <> Decimal.Neg Decimal.Nil).
  { intros [|p|p]; cbn; split; try discriminate; intros [= Hp];
      now apply Unsigned.to_uint_nonnil in Hp. }
  pose proof (NilZero.isi _ (proj1 (Hn a)) (proj2 (Hn a))) as Ha.
  pose proof (NilZero.isi _ (proj1 (Hn b)) (proj2 (Hn b))) as Hb.
  rewrite H in Ha. congruence.
Qed.

Section MockFacts.
Context {F : Float64} {U : PyUnicode} {D : DateLib}.

Lemma mock_job_Some q i :
  exists tp, mock_job (job_templates q) i
  = Some {| title_ := (if (2 <? i)%nat
                       then tp_title tp ++ u " " ++ str_of_Z (Z.of_nat i + 1)
                       else tp_title tp);
            company := (if (2 <? i)%nat
                        then tp_company tp ++ u " " ++ str_of_Z (Z.of_nat i + 1)
                        else tp_company tp);
            location := tp_location tp;
            description := tp_description tp;
            url := u "https://example.com/job/" ++ str_of_Z (Z.of_nat i + 1);
            salary := tp_salary tp;
            remote := tp_remote tp;
            hybrid := tp_hybrid tp;
            days_ago := Z.of_nat i mod 7;
            source := u "Mock Data";
            match_score := None;
            matched_skills := None |}.
Proof.
  unfold mock_job.
  destruct (lookup_lt_is_Some_2 (job_templates q) (i mod length (job_templates q))) as [tp Htp].
  { change (length (job_templates q)) with 3%nat. apply Nat.mod_upper_bound. lia. }
  exists tp. now rewrite Htp.
Qed.

Lemma map_omap_mock {B} (g : JobListing -> B) (h : nat -> B) q l :
  (forall i job, mock_job (job_templates q) i = Some job -> g job = h i) ->
  map g (omap (mock_job (job_templates q)) l) = map h l.
Proof.
  intros Hg. induction l as [|i l IH]; [reflexivity|].
  cbn [omap list_omap map]. destruct (mock_job_Some q i) as [tp Hi].
  rewrite Hi. cbn [map]. now rewrite (Hg _ _ Hi), <- IH.
Qed.

Lemma mock_jobs_length q n r :
  length (_generate_enhanced_mock_jobs q n r) = Z.to_nat n.
Proof.
  unfold _generate_enhanced_mock_jobs.
  rewrite <- (length_map (fun _ => tt)),
    (map_omap_mock _ (fun _ => tt)) by reflexivity.
  now rewrite length_map, length_seq.
Qed.

Lemma mock_jobs_is_mock q n r :
  Forall is_mock (_generate_enhanced_mock_jobs q n r).
Proof.
  apply Forall_forall. intros job Hjob.
  apply list_elem_of_omap in Hjob as (i & _ & Hi).
  destruct (mock_job_Some q i) as [tp Htp]. rewrite Htp in Hi.
  now injection Hi as <-.
Qed.

(** X13. [_generate_enhanced_mock_jobs] returns as many listings as were
    asked for (none for a negative count), each with an address of its
    own, each "Mock Data", each with a [days_ago] from 0 to 6. *)
Theorem mock_jobs_count_and_urls q n r :
  let jobs := _generate_enhanced_mock_jobs q n r in
  length jobs = Z.to_nat n
  /\ NoDup (map url jobs)
  /\ Forall is_mock jobs
  /\ Forall (fun job => (0 <= days_ago job <= 6)%Z) jobs.
Proof.
  cbn zeta. split; [apply mock_jobs_length|].
  split; [|split; [apply mock_jobs_is_mock|apply mock_jobs_days]].
  unfold _generate_enhanced_mock_jobs.
  rewrite (map_omap_mock url
             (fun i => u "https://example.com/job/" ++ str_of_Z (Z.of_nat i + 1))).
  - apply NoDup_fmap_2_strong; [|apply NoDup_seq].
    intros i j _ _ Hij. apply app_inv_head, str_of_Z_inj in Hij. lia.
  - intros i job Hi. destruct (mock_job_Some q i) as [tp Htp].
    rewrite Htp in Hi. now injection Hi as <-.
Qed.

End MockFacts.

(** ** What a search returns *)

Section Shape.
Context {F : Float64} {U : PyUnicode} {D : DateLib}.
Context (query_hash : SearchQuery -> Z).

Lemma search_jobs_eq s env r q n :
  search_jobs query_hash s env r q n
  = match cached query_hash s env q n with
    | Some cached_data => (cached_data, s, [])
    | None =>
        let f := fetch_jobs s env r q n in
        (slice_to n f.1.1,
         set_cache (<[(query_hash q, n) := (f.1.1, t_store env)]> (cache f.1.2)) f.1.2,
         f.2)
    end.
Proof.
  unfold search_jobs. destruct (cached _ _ _ _ _); [reflexivity|].
  now destruct (fetch_jobs s env r q n) as [[jobs s'] sent].
Qed.

(** What holds of everything fetched holds of every entry of the cache. *)
Lemma reachable_cache_inv (P : Z -> list JobListing -> Prop) :
  (forall s env r q n, P n (fetch_jobs s env r q n).1.1) ->
  forall s, reachable query_hash s ->
  forall h n jobs t, cache s !! (h, n) = Some (jobs, t) -> P n jobs.
Proof.
  intros HP s. induction 1 as [| s env r q n' _ IH]; intros h n jobs t.
  - cbn. rewrite lookup_empty. discriminate.
  - rewrite search_jobs_eq. destruct (cached _ _ _ _ _); [apply IH|].
    cbn. rewrite lookup_insert. case_decide as Hk.
    + injection Hk as _ <-. intros [= <- _]. apply HP.
    + rewrite fetch_jobs_cache. apply IH.
Qed.

Lemma search_jobs_inv (P : Z -> list JobListing -> Prop) :
  (forall s env r q n, P n (fetch_jobs s env r q n).1.1) ->
  (forall n jobs, P n jobs -> P n (slice_to n jobs)) ->
  forall s env r q n, reachable query_hash s ->
  P n (search_jobs query_hash s env r q n).1.1.
Proof.
  intros HP Hslice s env r q n Hs. rewrite search_jobs_eq.
  destruct (cached _ _ _ _ _) as [c|] eqn:Hc.
  - apply cached_in_cache in Hc as [t Hc]. cbn.
    exact (reachable_cache_inv P HP s Hs _ _ _ _ Hc).
  - cbn. apply Hslice, HP.
Qed.

Lemma fetch_jobs_nonempty s env r q n :
  (1 <= n)%Z -> (fetch_jobs s env r q n).1.1 <> [].
Proof.
  intros Hn. rewrite fetch_jobs_eq. cbn [fst snd].
  set (raw := _ ++ _). unfold _calculate_match_scores.
  destruct raw as [|j raw]; cbn [nonempty]; [|discriminate].
  pose proof (mock_jobs_length q n r) as Hlen.
  destruct (_generate_enhanced_mock_jobs q n r); [cbn in Hlen; lia|discriminate].
Qed.

Lemma slice_to_nonempty {A} n (l : list A) :
  (1 <= n)%Z -> l <> [] -> slice_to n l <> [].
Proof.
  intros Hn Hl. unfold slice_to. destruct (0 <=? n)%Z eqn:H0; [|lia].
  destruct l; [congruence|]. destruct (Z.to_nat n) eqn:Hk; [lia|discriminate].
Qed.

Lemma slice_to_length {A} n (l : list A) :
  (0 <= n)%Z -> (length (slice_to n l) <= Z.to_nat n)%nat.
Proof.
  intros Hn. unfold slice_to. destruct (0 <=? n)%Z eqn:H0; [|lia].
  rewrite length_firstn. lia.
Qed.

(** X14. A search for at least one listing never comes back empty, from the
    cache or not, on every instance that calls lead to; and when it misses
    the cache it returns at most as many listings as were asked for. *)
Theorem search_jobs_count s env r q n :
  (1 <= n)%Z ->
  let jobs := (search_jobs query_hash s env r q n).1.1 in
  (reachable query_hash s -> jobs <> [])
  /\ (cached query_hash s env q n = None ->
      (1 <= length jobs <= Z.to_nat n)%nat).
Proof.
  intros Hn jobs. split.
  - intros Hs. subst jobs.
    apply (search_jobs_inv (fun n jobs => (1 <= n)%Z -> jobs <> [])); auto.
    + intros. now apply fetch_jobs_nonempty.
    + intros n0 l H H0. apply slice_to_nonempty; auto.
  - intros Hmiss. subst jobs. rewrite search_jobs_eq, Hmiss. cbn.
    pose proof (slice_to_length n (fetch_jobs s env r q n).1.1 ltac:(lia)).
    pose proof (slice_to_nonempty n _ Hn (fetch_jobs_nonempty s env r q n Hn)) as Hne.
    destruct (slice_to n _); [congruence|]. cbn [length] in *. lia.
Qed.


Lemma provider_search_sources p s env q n :
  Forall (from_provider p) (provider_search p s env q n).1.1.
Proof.
  rewrite provider_search_eq. destruct (configured p s); cbn [negb]; [|constructor].
  destruct (_is_rate_limited _ _ _) as [[] rl]; [constructor|].
  destruct (provider_answer p env) as [jobs|] eqn:Ha; [|constructor]. cbn [fst snd].
  destruct p; cbn [provider_answer] in Ha;
    [destruct (adzuna_http env)|destruct (rapidapi_http env)];
    try discriminate; injection Ha as <-; try constructor;
    apply Forall_forall; intros j Hj;
    apply list_elem_of_lookup in Hj as [i Hi];
    apply list_lookup_imap_Some in Hi as (y & _ & ->); reflexivity.
Qed.

Lemma scores_is_mock jobs r :
  Forall is_mock jobs -> Forall is_mock (_calculate_match_scores jobs r).
Proof.
  intros H. unfold _calculate_match_scores. apply Forall_fmap.
  eapply Forall_impl; [exact H|]. now intros j Hj.
Qed.

Lemma scores_from_provider p jobs r :
  Forall (from_provider p) jobs ->
  Forall (from_provider p) (_calculate_match_scores jobs r).
Proof.
  intros H. unfold _calculate_match_scores. apply Forall_fmap.
  eapply Forall_impl; [exact H|]. now intros j Hj.
Qed.

Lemma fetch_jobs_sources s env r q n :
  sources_in_order (fetch_jobs s env r q n).1.1.
Proof.
  rewrite fetch_jobs_eq. cbn [fst snd].
  set (a := if has_adzuna s && _ then _ else _).
  set (b := if has_rapidapi a.1.2 && _ then _ else _).
  assert (Ha : Forall (from_provider Adzuna) a.1.1).
  { subst a. destruct (has_adzuna s && _); [apply provider_search_sources|constructor]. }
  assert (Hb : Forall (from_provider RapidAPI) b.1.1).
  { subst b. destruct (has_rapidapi a.1.2 && _); [apply provider_search_sources|constructor]. }
  destruct (nonempty (a.1.1 ++ b.1.1)).
  - right. exists (_calculate_match_scores a.1.1 r), (_calculate_match_scores b.1.1 r).
    split; [unfold _calculate_match_scores; apply map_app|].
    split; now apply scores_from_provider.
  - left. apply scores_is_mock, mock_jobs_is_mock.
Qed.

Lemma sources_in_order_slice n jobs :
  sources_in_order jobs -> sources_in_order (slice_to n jobs).
Proof.
  intros [Hm|(a & j & -> & Ha & Hj)].
  - left. now apply Forall_slice_to.
  - right. unfold slice_to. destruct (0 <=? n)%Z.
    + rewrite firstn_app. eexists _, _. split; [reflexivity|].
      split; now apply Forall_take.
    + rewrite firstn_app. eexists _, _. split; [reflexivity|].
      split; now apply Forall_take.
Qed.

(** X15. Synthetic listings and listings of the providers never come
    together: on every instance that calls lead to, what a search returns
    is either all "Mock Data" or listings of Adzuna followed by listings of
    JSearch. *)
Theorem search_jobs_sources s env r q n :
  reachable query_hash s ->
  sources_in_order (search_jobs query_hash s env r q n).1.1.
Proof.
  intros Hs. apply (search_jobs_inv (fun _ => sources_in_order)); auto.
  - intros. apply fetch_jobs_sources.
  - intros. now apply sources_in_order_slice.
Qed.

Lemma slice_to_all {A} n (l : list A) :
  length l = Z.to_nat n -> slice_to n l = l.
Proof.
  intros Hl. unfold slice_to. destruct (0 <=? n)%Z eqn:H0.
  - rewrite <- Hl. apply firstn_all.
  - destruct l; [now rewrite firstn_nil|]. cbn in Hl. lia.
Qed.

(** X16. Without credentials, a search that misses the cache sends no
    request, leaves the rate limits as they are, and returns and stores
    exactly the synthetic listings, scored: as many as were asked for, all
    of them "Mock Data". *)
Theorem search_jobs_without_credentials s env r q n :
  has_adzuna s = false -> has_rapidapi s = false ->
  cached query_hash s env q n = None ->
  let jobs := _calculate_match_scores (_generate_enhanced_mock_jobs q n r) r in
  search_jobs query_hash s env r q n
  = (jobs, set_cache (<[(query_hash q, n) := (jobs, t_store env)]> (cache s)) s, [])
  /\ length jobs = Z.to_nat n
  /\ Forall is_mock jobs.
Proof.
  intros Ha Hr Hmiss jobs.
  pose proof (mock_jobs_length q n r) as Hlen.
  assert (Hl : length jobs = Z.to_nat n).
  { subst jobs. unfold _calculate_match_scores. now rewrite length_map. }
  split; [|split; [exact Hl|]].
  - rewrite search_jobs_eq, Hmiss, fetch_jobs_eq, Ha. cbn [andb fst snd app].
    rewrite Hr. cbn [andb fst snd app nonempty]. fold jobs.
    now rewrite slice_to_all.
  - apply scores_is_mock, mock_jobs_is_mock.
Qed.

(** X17. A search for zero listings, or for a negative number of them, that
    misses the cache calls no provider, returns the empty list and stores
    it. *)
Theorem search_jobs_for_nothing s env r q n :
  (n <= 0)%Z ->
  cached query_hash s env q n = None ->
  search_jobs query_hash s env r q n
  = ([], set_cache (<[(query_hash q, n) := ([], t_store env)]> (cache s)) s, []).
Proof.
  intros Hn Hmiss. rewrite search_jobs_eq, Hmiss, fetch_jobs_eq.
  assert (H0 : (0 <? n)%Z = false) by now apply Z.ltb_ge.
  rewrite H0, andb_false_r. cbn [fst snd].
  change (Z.of_nat (length (@nil JobListing))) with 0%Z.
  rewrite H0, andb_false_r. cbn [fst snd nonempty app].
  pose proof (mock_jobs_length q n r) as Hlen.
  destruct (_generate_enhanced_mock_jobs q n r); [|cbn in Hlen; lia].
  cbn. unfold slice_to. destruct (0 <=? n)%Z; now rewrite firstn_nil.
Qed.

End Shape.

Lemma search_jobs_count_witness :
  let jobs := (@search_jobs binary64 ascii_unicode date_only_lib sample_hash
                 no_credentials quiet_env sample_resume sample_query 3).1.1 in
  jobs <> [] /\ (1 <= length jobs <= 3)%nat.
Proof.
  destruct (@search_jobs_count binary64 ascii_unicode date_only_lib sample_hash
              no_credentials quiet_env sample_resume sample_query 3 ltac:(lia))
    as [H1 H2].
  split; [apply H1; constructor|apply H2; reflexivity].
Defined.

Lemma search_jobs_sources_witness :
  sources_in_order
    (@search_jobs binary64 ascii_unicode date_only_lib sample_hash
       after_first_call second_call_env no_skills_resume sample_query 1).1.1.
Proof.
  apply (@search_jobs_sources binary64 ascii_unicode date_only_lib sample_hash).
  unfold after_first_call. apply reach_search. constructor.
Defined.

Lemma search_jobs_without_credentials_witness :
  let jobs := @_calculate_match_scores binary64 ascii_unicode
                (@_generate_enhanced_mock_jobs ascii_unicode sample_query 3 sample_resume)
                sample_resume in
  @search_jobs binary64 ascii_unicode date_only_lib sample_hash
    no_credentials quiet_env sample_resume sample_query 3
  = (jobs, set_cache (<[(sample_hash sample_query, 3%Z) := (jobs, t_store quiet_env)]>
                        (cache no_credentials)) no_credentials, [])
  /\ length jobs = 3%nat
  /\ Forall is_mock jobs.
Proof.
  apply (@search_jobs_without_credentials binary64 ascii_unicode date_only_lib
           sample_hash no_credentials quiet_env sample_resume sample_query 3);
    reflexivity.
Defined.

Lemma search_jobs_for_nothing_witness :
  @search_jobs binary64 ascii_unicode date_only_lib sample_hash
    both_configured quiet_env sample_resume sample_query 0
  = ([], set_cache (<[(sample_hash sample_query, 0%Z) := ([], t_store quiet_env)]>
                      (cache both_configured)) both_configured, []).
Proof.
  apply (@search_jobs_for_nothing binary64 ascii_unicode date_only_lib sample_hash
           both_configured quiet_env sample_resume sample_query 0); [lia|reflexivity].
Defined.

(** ** The cache and the order of the providers *)

Section CacheMore.
Context {F : Float64} {U : PyUnicode} {D : DateLib}.
Context (query_hash : SearchQuery -> Z).


(** X19. A search changes no entry of the cache but that of its own query
    and count, removes no entry, and leaves the two flags of the instance
    as they are. *)
Theorem search_jobs_cache_frame s env r q n :
  let s' := (search_jobs query_hash s env r q n).1.2 in
  (forall key, key <> (query_hash q, n) -> cache s' !! key = cache s !! key)
  /\ dom (cache s) ⊆ dom (cache s')
  /\ has_adzuna s' = has_adzuna s
  /\ has_rapidapi s' = has_rapidapi s.
Proof.
  cbn zeta. rewrite search_jobs_eq.
  destruct (cached _ _ _ _ _); cbn [fst snd]; [repeat split; set_solver|].
  pose proof (fetch_jobs_cache s env r q n) as Hc.
  assert (Hf : has_adzuna (fetch_jobs s env r q n).1.2 = has_adzuna s
               /\ has_rapidapi (fetch_jobs s env r q n).1.2 = has_rapidapi s).
  { rewrite fetch_jobs_eq. cbn [fst snd].
    set (a := if has_adzuna s && _ then _ else _).
    assert (Ha : has_adzuna a.1.2 = has_adzuna s /\ has_rapidapi a.1.2 = has_rapidapi s).
    { subst a. destruct (has_adzuna s && _); [|now split].
      pose proof (provider_search_frame Adzuna s env q n) as (_ & H1 & H2 & _).
      now split. }
    destruct (has_rapidapi a.1.2 && _); [|exact Ha].
    pose proof (provider_search_frame RapidAPI a.1.2 env q
                  (n - Z.of_nat (length a.1.1))) as (_ & H1 & H2 & _).
    cbn zeta in H1, H2. rewrite H1, H2. exact Ha. }
  cbn. rewrite Hc. split; [|split; [|exact Hf]].
  - intros key Hk. now rewrite lookup_insert_ne.
  - rewrite dom_insert_L. apply union_subseteq_r.
Qed.

Lemma search_jobs_young s env r q n jobs timestamp :
  cache s !! (query_hash q, n) = Some (jobs, timestamp) ->
  (t_check env - timestamp <= 3599)%Q ->
  search_jobs query_hash s env r q n = (jobs, s, []).
Proof.
  intros Hk Hage. eapply search_jobs_hit; [exact Hk|].
  unfold fsub. eapply Qle_lt_trans; [apply rnd_mono, Hage|].
  rewrite (rnd_small 3599) by (split; [lia|now apply Z.leb_le]).
  reflexivity.
Qed.

(** X20. An entry of the cache stored at most 3599 seconds before the check
    is returned as it is, with no request and no change of the instance; an
    entry stored 3600 seconds before or earlier is not served: the search
    fetches again and replaces it. The rounding of the subtraction does not
    move either bound. *)
Theorem cache_expiry s env r q n jobs timestamp :
  cache s !! (query_hash q, n) = Some (jobs, timestamp) ->
  ((t_check env - timestamp <= 3599)%Q ->
     search_jobs query_hash s env r q n = (jobs, s, []))
  /\ ((3600 <= t_check env - timestamp)%Q ->
        let res := search_jobs query_hash s env r q n in
        res.1.1 = slice_to n (fetch_jobs s env r q n).1.1
        /\ cache res.1.2 !! (query_hash q, n)
           = Some ((fetch_jobs s env r q n).1.1, t_store env)).
Proof.
  intros Hk. split; [now apply search_jobs_young|].
  intros Hage res. subst res. rewrite search_jobs_eq.
  assert (Hmiss : cached query_hash s env q n = None).
  { unfold cached. rewrite Hk. rewrite qlt_false; [reflexivity|].
    unfold fsub. cbn [cache_duration value].
    rewrite <- (rnd_small 3600) by (split; [lia|now apply Z.leb_le]).
    apply rnd_mono, Hage. }
  rewrite Hmiss. cbn. split; [reflexivity|apply lookup_insert_eq].
Qed.

(** X21. The key of the cache does not hold the resume: a search that comes
    at most 3599 seconds after the store of a search with the same query
    and count, for another resume, sends no request and returns listings
    that carry the scores of the first resume. *)
Theorem cache_hit_keeps_first_scores s env1 env2 resume1 resume2 q n :
  cached query_hash s env1 q n = None ->
  (t_check env2 - t_store env1 <= 3599)%Q ->
  let first := search_jobs query_hash s env1 resume1 q n in
  let second := search_jobs query_hash first.1.2 env2 resume2 q n in
  second.2 = []
  /\ exists unscored, second.1.1 = _calculate_match_scores unscored resume1.
Proof.
  intros Hmiss Hage first second.
  assert (Hs : second = ((fetch_jobs s env1 resume1 q n).1.1, first.1.2, [])).
  { subst second. apply (search_jobs_young first.1.2 env2 resume2 q n _ (t_store env1));
      [|exact Hage].
    subst first. rewrite search_jobs_eq, Hmiss. cbn. apply lookup_insert_eq. }
  rewrite Hs. split; [reflexivity|]. cbn [fst snd].
  rewrite fetch_jobs_eq. cbn [fst snd]. eexists. reflexivity.
Qed.

End CacheMore.


Lemma search_jobs_cache_frame_witness :
  cache (@search_jobs binary64 ascii_unicode date_only_lib sample_hash
           after_first_call second_call_env sample_resume sample_query 2).1.2
    !! (sample_hash sample_query, 1%Z)
  = cache after_first_call !! (sample_hash sample_query, 1%Z).
Proof.
  apply (@search_jobs_cache_frame binary64 ascii_unicode date_only_lib sample_hash
           after_first_call second_call_env sample_resume sample_query 2).
  discriminate.
Defined.

Lemma cache_expiry_witness :
  cache after_first_call !! (sample_hash sample_query, 1%Z) = Some (first_fetch, 1001%Q)
  /\ @search_jobs binary64 ascii_unicode date_only_lib sample_hash
       after_first_call second_call_env no_skills_resume sample_query 1
     = (first_fetch, after_first_call, []).
Proof.
  assert (Hk : cache after_first_call !! (sample_hash sample_query, 1%Z)
               = Some (first_fetch, 1001%Q)) by (vm_compute; reflexivity).
  split; [exact Hk|].
  apply (@cache_expiry binary64 ascii_unicode date_only_lib sample_hash
           after_first_call second_call_env no_skills_resume sample_query 1 _ _ Hk).
  unfold Qle. cbn. lia.
Defined.

Lemma cache_hit_keeps_first_scores_witness :
  let first := @search_jobs binary64 ascii_unicode date_only_lib sample_hash
                 rapid_only first_call_env sample_resume sample_query 1 in
  let second := @search_jobs binary64 ascii_unicode date_only_lib sample_hash
                  first.1.2 second_call_env no_skills_resume sample_query 1 in
  second.2 = []
  /\ exists unscored,
       second.1.1 = @_calculate_match_scores binary64 ascii_unicode unscored sample_resume.
Proof.
  apply (@cache_hit_keeps_first_scores binary64 ascii_unicode date_only_lib sample_hash
           rapid_only first_call_env second_call_env sample_resume no_skills_resume
           sample_query 1); [reflexivity|].
  cbn. unfold Qle. cbn. lia.
Defined.

(** ** The scores *)

Lemma filter_sublist {A} (f : A -> bool) (l : list A) : List.filter f l `sublist_of` l.
Proof.
  induction l as [|x l IH]; cbn [List.filter]; [constructor|].
  destruct (f x); [now apply sublist_skip|now apply sublist_cons].
Qed.

Section ScoreMore.
Context {F : Float64} {U : PyUnicode} {D : DateLib}.
Context (query_hash : SearchQuery -> Z).

(** X22. [_calculate_match_scores] returns the listings it was given, in
    their order and with their ten fields as they were, and adds to each
    [matched_skills]: at most five skills, taken in their order from the
    lowered skills of the resume, each of them written in the lowered title
    and description of the listing. *)
Theorem scoring_keeps_listings jobs r :
  Forall2 (fun job job' =>
      same_listing job job'
      /\ exists ms, matched_skills job' = Some ms
           /\ (length ms <= 5)%nat
           /\ ms `sublist_of` map lower (skills r)
           /\ Forall (fun m => contains m (job_text job) = true) ms)
    jobs (_calculate_match_scores jobs r).
Proof.
  unfold _calculate_match_scores. induction jobs as [|job jobs IH]; constructor;
    [|exact IH].
  split; [repeat split|]. eexists. split; [reflexivity|]. split; [|split].
  - rewrite length_firstn. lia.
  - etransitivity; [apply sublist_take|]. apply filter_sublist.
  - apply Forall_take, Forall_forall. intros m Hm.
    now apply list_elem_of_In, filter_In in Hm as [_ Hm].
Qed.

Lemma add_location_empty r job score :
  lower [] = [] -> resume_location r = [] ->
  add_location r job score = num_add score (PInt 20).
Proof.
  intros Hl Hr. unfold add_location. rewrite Hr, Hl, contains_nil.
  now destruct (remote job).
Qed.

Lemma bare_score_range job : (20 <= bare_score job <= 50)%Z.
Proof.
  unfold bare_score. destruct (any_in seniority_words _), (any_in company_words _); lia.
Qed.

Lemma empty_resume_with_score r job :
  lower [] = [] ->
  skills r = [] -> experience r = [] -> resume_location r = [] ->
  job_score r job = PInt (bare_score job)
  /\ match_score (with_score r job) = Some (bare_score job)
  /\ matched_skills (with_score r job) = Some [].
Proof.
  intros Hl Hs He Hr.
  assert (Hj : job_score r job = PInt (bare_score job)).
  { unfold job_score, bare_score. rewrite add_location_empty by assumption.
    unfold add_skills, add_seniority, add_company, experience_text.
    rewrite Hs, He. cbn [map nonempty join]. rewrite Hl.
    change (any_in seniority_words []) with false.
    destruct (any_in seniority_words (job_text job)),
             (any_in company_words (lower (company job))); reflexivity. }
  split; [exact Hj|]. cbn [with_score match_score matched_skills]. rewrite Hj.
  unfold matched. rewrite Hs. cbn [map List.filter firstn py_int].
  split; [|reflexivity]. f_equal. pose proof (bare_score_range job). lia.
Qed.

(** X23. For a resume with no skill, no experience and no location (the
    lowered empty string being empty), the score of a listing is an [int]
    throughout: 20 unless the listing mentions a seniority word, plus 20,
    plus 10 if the company holds "startup", "tech" or "software"; it lies
    between 20 and 50, and [matched_skills] is empty. *)
Theorem empty_resume_score r job :
  lower [] = [] ->
  skills r = [] -> experience r = [] -> resume_location r = [] ->
  job_score r job = PInt (bare_score job)
  /\ match_score (with_score r job) = Some (bare_score job)
  /\ matched_skills (with_score r job) = Some []
  /\ (20 <= bare_score job <= 50)%Z.
Proof.
  intros Hl Hs He Hr.
  destruct (empty_resume_with_score r job Hl Hs He Hr) as (H1 & H2 & H3).
  repeat split; try assumption; apply bare_score_range.
Qed.

(** X24. [search_jobs_legacy] of the agent, on a search that misses the
    cache (the lowered empty string being empty): it returns 1 to 20
    listings, each with a score from 20 to 50 and no matched skill, and
    every request it sends carries at most 100 characters of keywords, the
    first of the job description. *)
Theorem legacy_search_scores s env jd_text :
  lower [] = [] ->
  cached query_hash s env (legacy_query jd_text) 20 = None ->
  let res := search_jobs_legacy query_hash s env jd_text in
  (1 <= length res.1.1 <= 20)%nat
  /\ Forall (fun job => exists z, match_score job = Some z /\ (20 <= z <= 50)%Z
                                  /\ matched_skills job = Some []) res.1.1
  /\ Forall (fun req => match req with
                        | GetAdzuna _ what _ _ => (length what <= 100)%nat
                        | GetJSearch query _ => (length query <= 100)%nat
                        end) res.2.
Proof.
  intros Hl Hmiss res. subst res. unfold search_jobs_legacy.
  rewrite search_jobs_eq, Hmiss. cbn [fst snd scraper_search_jobs ret].
  set (q := legacy_query jd_text).
  split; [|split].
  - pose proof (slice_to_length 20 (fetch_jobs s env legacy_resume q 20).1.1 ltac:(lia)).
    pose proof (slice_to_nonempty 20 _ ltac:(lia)
                  (fetch_jobs_nonempty s env legacy_resume q 20 ltac:(lia))) as Hne.
    destruct (slice_to 20 _); [congruence|]. cbn [length] in *. lia.
  - apply Forall_slice_to. rewrite fetch_jobs_eq. cbn [fst snd].
    unfold _calculate_match_scores. apply Forall_fmap, Forall_forall. intros job _.
    destruct (empty_resume_with_score legacy_resume job Hl eq_refl eq_refl eq_refl)
      as (_ & H2 & H3).
    exists (bare_score job). cbn [compose]. split; [exact H2|].
    split; [apply bare_score_range|exact H3].
  - assert (Hk : (length (keywords q) <= 100)%nat).
    { cbn. unfold slice_to. cbn. rewrite length_firstn. lia. }
    rewrite fetch_jobs_eq. cbn [fst snd]. apply Forall_app. split.
    + destruct (has_adzuna s && _); [|constructor].
      rewrite provider_search_eq. destruct (configured _ _); cbn [negb]; [|constructor].
      destruct (_is_rate_limited _ _ _) as [[] rl]; [constructor|].
      destruct (provider_answer _ _); (constructor; [exact Hk|constructor]).
    + destruct (has_rapidapi _ && _); [|constructor].
      rewrite provider_search_eq. destruct (configured _ _); cbn [negb]; [|constructor].
      destruct (_is_rate_limited _ _ _) as [[] rl]; [constructor|].
      destruct (provider_answer _ _); (constructor; [exact Hk|constructor]).
Qed.

End ScoreMore.

(** X25. A resume without a location, be it that the mapping has no
    [location] (as on the error path of the parser) or an empty one, earns
    the 20 points of the location part on every listing, remote or not:
    the lowered empty string, being empty, is in every string. *)
Theorem missing_location_matches_everywhere {F : Float64} {U : PyUnicode}
    (d : gmap string pyval) (job : JobListing) (score : pynum) :
  lower [] = [] ->
  d !! "location" = None \/ d !! "location" = Some (VStr []) ->
  add_location (resume_of d) job score = num_add score (PInt 20).
Proof.
  intros Hl Hd. apply add_location_empty; [exact Hl|].
  unfold resume_of. cbn [resume_location]. now destruct Hd as [-> | ->].
Qed.

Lemma missing_location_matches_everywhere_witness :
  exists d,
    @parse_resume_to_json ascii_unicode (@parser_patterns ascii_re (fun _ => ret []))
      VNone = ret d
    /\ @add_location binary64 ascii_unicode (resume_of d) senior_listing (PInt 40)
       = PInt 60.
Proof.
  eexists. split; [reflexivity|].
  apply (@missing_location_matches_everywhere binary64 ascii_unicode _
           senior_listing (PInt 40)); [reflexivity|].
  left. reflexivity.
Defined.

Lemma empty_resume_score_witness :
  @bare_score ascii_unicode senior_listing = 30%Z
  /\ @job_score binary64 ascii_unicode no_skills_resume senior_listing
     = PInt (@bare_score ascii_unicode senior_listing)
  /\ match_score (@with_score binary64 ascii_unicode no_skills_resume senior_listing)
     = Some (@bare_score ascii_unicode senior_listing).
Proof.
  split; [vm_compute; reflexivity|].
  destruct (@empty_resume_score binary64 ascii_unicode no_skills_resume senior_listing
              eq_refl eq_refl eq_refl eq_refl) as (H1 & H2 & _).
  split; [exact H1|exact H2].
Defined.

Lemma legacy_search_scores_witness :
  let res := @search_jobs_legacy binary64 ascii_unicode date_only_lib sample_hash
               no_credentials quiet_env (u "python developer") in
  (1 <= length res.1.1 <= 20)%nat
  /\ Forall (fun job => exists z, match_score job = Some z /\ (20 <= z <= 50)%Z
                                  /\ matched_skills job = Some []) res.1.1.
Proof.
  destruct (@legacy_search_scores binary64 ascii_unicode date_only_lib sample_hash
              no_credentials quiet_env (u "python developer") eq_refl eq_refl)
    as (H1 & H2 & _).
  split; [exact H1|exact H2].
Defined.

Section Bands.
Context {F : Float64} {U : PyUnicode} {D : DateLib}.

Lemma rnd_within (lo hi : Z) (q : Q) :
  (0 <= lo)%Z -> (hi <= 2 ^ 53)%Z -> (lo <= hi)%Z ->
  (inject_Z lo <= q)%Q -> (q <= inject_Z hi)%Q ->
  (inject_Z lo <= rnd q)%Q /\ (rnd q <= inject_Z hi)%Q.
Proof.
  intros Hlo Hhi Hle H0 H1. split.
  - rewrite <- (rnd_small lo) by lia. now apply rnd_mono.
  - rewrite <- (rnd_small hi) by lia. now apply rnd_mono.
Qed.

Lemma in_range_widen lo lo' hi hi' n :
  (lo' <= lo)%Z -> (hi <= hi')%Z -> in_range lo hi n -> in_range lo' hi' n.
Proof.
  intros Hlo Hhi [H0 H1]. split.
  - eapply Qle_trans; [|exact H0]. now rewrite <- Zle_Qle.
  - eapply Qle_trans; [exact H1|]. now rewrite <- Zle_Qle.
Qed.

Lemma num_add_within lo hi k n :
  (0 <= k)%Z -> (0 <= lo <= hi)%Z -> (hi + k <= 2 ^ 53)%Z ->
  in_range lo hi n -> in_range (lo + k) (hi + k) (num_add n (PInt k)).
Proof.
  intros Hk Hlo Hsum [H0 H1].
  destruct n as [z|q]; unfold in_range; cbn [value num_add to_float] in *.
  - rewrite <- !Zle_Qle in *. lia.
  - rewrite rnd_small by lia. apply rnd_within; [lia|lia|lia| |].
    + rewrite inject_Z_plus. apply Qplus_le_compat; [exact H0|apply Qle_refl].
    + rewrite inject_Z_plus. apply Qplus_le_compat; [exact H1|apply Qle_refl].
Qed.

Lemma py_int_within lo hi n :
  (0 <= lo)%Z -> in_range lo hi n -> (lo <= py_int n <= hi)%Z.
Proof.
  intros Hlo [H0 H1]. destruct n as [z|[a b]]; cbn [value py_int Qnum Qden] in *.
  - rewrite <- !Zle_Qle in *. lia.
  - unfold Qle in *. cbn in *. rewrite Z.mul_1_r in *.
    assert (Ha : (0 <= a)%Z) by nia.
    rewrite Z.quot_div_nonneg by lia. split.
    + apply Z.div_le_lower_bound; lia.
    + apply Z.div_le_upper_bound; lia.
Qed.

Lemma add_location_within lo hi r job n :
  (0 <= lo <= hi)%Z -> (hi + 20 <= 2 ^ 53)%Z ->
  in_range lo hi n -> in_range lo (hi + 20) (add_location r job n).
Proof.
  intros Hlo Hhi Hn. unfold add_location.
  assert (Hadd : in_range lo (hi + 20) (num_add n (PInt 20))).
  { apply (in_range_widen (lo + 20) _ (hi + 20)); [lia|lia|].
    apply num_add_within; [lia|lia|lia|exact Hn]. }
  destruct (remote job); [exact Hadd|]. destruct (contains _ _); [exact Hadd|].
  apply (in_range_widen lo _ hi); [lia|lia|exact Hn].
Qed.

Lemma add_company_within lo hi job n :
  (0 <= lo <= hi)%Z -> (hi + 10 <= 2 ^ 53)%Z ->
  in_range lo hi n -> in_range lo (hi + 10) (add_company job n).
Proof.
  intros Hlo Hhi Hn. unfold add_company.
  destruct (any_in _ _).
  - apply (in_range_widen (lo + 10) _ (hi + 10)); [lia|lia|].
    apply num_add_within; [lia|lia|lia|exact Hn].
  - apply (in_range_widen lo _ hi); [lia|lia|exact Hn].
Qed.

Lemma job_score_band lo hi r job :
  (0 <= lo <= hi)%Z -> (hi <= 70)%Z ->
  in_range lo hi (add_seniority r job (add_skills r job (PInt 0))) ->
  match_score (with_score r job)
  = Some (py_int (job_score r job))
  /\ (lo <= py_int (job_score r job) <= hi + 30)%Z.
Proof.
  intros Hlo Hhi Hs.
  assert (Hj : in_range lo (hi + 30) (job_score r job)).
  { unfold job_score. replace (hi + 30)%Z with (hi + 20 + 10)%Z by lia.
    apply add_company_within; [lia|lia|].
    apply add_location_within; [lia|lia|exact Hs]. }
  pose proof (py_int_within lo (hi + 30) _ ltac:(lia) Hj) as Hp.
  split; [|exact Hp]. cbn [with_score match_score]. f_equal. lia.
Qed.

(** X26. The score by what the listing and the resume say of seniority: a
    listing that mentions no seniority word scores from 20 to 90; one that
    does, for a resume that does not, from 0 to 70; one that does, for a
    resume that does too, from 30 to 100. *)
Theorem score_bands_by_seniority r job :
  let listing_senior := any_in seniority_words (job_text job) in
  let resume_senior := any_in seniority_words (experience_text r) in
  exists z, match_score (with_score r job) = Some z
    /\ (listing_senior = false -> (20 <= z <= 90)%Z)
    /\ (listing_senior = true -> resume_senior = false -> (0 <= z <= 70)%Z)
    /\ (listing_senior = true -> resume_senior = true -> (30 <= z <= 100)%Z).
Proof.
  cbn zeta. pose proof (add_skills_range r job) as Hk.
  exists (py_int (job_score r job)).
  destruct (any_in seniority_words (job_text job)) eqn:Hl;
    [destruct (any_in seniority_words (experience_text r)) eqn:Hr|].
  - destruct (job_score_band 30 70 r job ltac:(lia) ltac:(lia)) as [Hm Hz].
    { unfold add_seniority. rewrite Hl, Hr.
      apply (num_add_within 0 40 30); [lia|lia|lia|exact Hk]. }
    split; [exact Hm|]. repeat split; try discriminate; lia.
  - destruct (job_score_band 0 40 r job ltac:(lia) ltac:(lia)) as [Hm Hz].
    { unfold add_seniority. now rewrite Hl, Hr. }
    split; [exact Hm|]. repeat split; try discriminate; lia.
  - destruct (job_score_band 20 60 r job ltac:(lia) ltac:(lia)) as [Hm Hz].
    { unfold add_seniority. rewrite Hl.
      apply (num_add_within 0 40 20); [lia|lia|lia|exact Hk]. }
    split; [exact Hm|]. repeat split; try discriminate; lia.
Qed.

End Bands.

Lemma score_bands_by_seniority_witness :
  exists z,
    match_score (@with_score binary64 ascii_unicode no_skills_resume senior_listing)
    = Some z /\ (0 <= z <= 70)%Z.
Proof.
  destruct (@score_bands_by_seniority binary64 ascii_unicode no_skills_resume
              senior_listing) as (z & Hz & _ & H & _).
  exists z. split; [exact Hz|]. apply H; reflexivity.
Defined.

(** ** The salary *)

(** X27. [_format_salary] returns "Not specified" exactly when each bound is
    absent or zero; with a lower bound that is neither, the text starts
    with a dollar sign, and with only an upper bound it is "Up to $" and
    the bound. A bound of zero is treated as absent. *)
Theorem salary_not_specified min_sal max_sal :
  (_format_salary min_sal max_sal = u "Not specified"
   <-> (min_sal = None \/ min_sal = Some 0%Z) /\ (max_sal = None \/ max_sal = Some 0%Z))
  /\ (falsy min_sal = false -> starts_with (u "$") (_format_salary min_sal max_sal) = true)
  /\ (falsy min_sal = true -> falsy max_sal = false ->
      _format_salary min_sal max_sal
      = u "Up to $" ++ format_commas (default 0%Z max_sal)).
Proof.
  assert (Hf : forall v, falsy v = true <-> v = None \/ v = Some 0%Z).
  { intros [[|p|p]|]; cbn; split; try tauto; try discriminate;
      intros [H|H]; discriminate. }
  unfold _format_salary. split; [|split].
  - rewrite <- !Hf.
    destruct (falsy min_sal), (falsy max_sal); cbn [andb negb]; split;
      try tauto; try discriminate; intros [H1 H2]; discriminate.
  - intros ->. cbn [andb negb]. now destruct (falsy max_sal).
  - intros -> ->. reflexivity.
Qed.


Lemma salary_not_specified_witness :
  starts_with (u "$") (_format_salary (Some 90000%Z) (Some 120000%Z)) = true
  /\ _format_salary (Some 0%Z) (Some 120000%Z) = u "Up to $120,000".
Proof.
  destruct (salary_not_specified (Some 90000%Z) (Some 120000%Z)) as (_ & H1 & _).
  destruct (salary_not_specified (Some 0%Z) (Some 120000%Z)) as (_ & _ & H2).
  split; [apply H1; reflexivity|apply H2; reflexivity].
Defined.

(** ** The days since a posting *)

Example ascii_fromisoformat_ex :
  ascii_fromisoformat (u "1970-01-02T00:00:01") = Some (Naive 86401000000)
  /\ ascii_fromisoformat (u "1970-01-02T00:00:01+01:00") = Some (Aware 82801000000)
  /\ ascii_fromisoformat (u "1970-01-02T00:00:01Z") = None.
Proof. vm_compute. repeat split. Qed.

Section DaysMore.
Context {F : Float64} {U : PyUnicode} {D : DateLib}.

(** X28. For a posting date that is read as a naive date-time not later
    than the local clock, [_calculate_days_ago] is the number of whole days
    between the two: it is not negative, and the time since the posting is
    at least that many days and less than one more. *)
Theorem days_ago_whole_days now date_str t :
  date_str <> [] ->
  job_date date_str = Some (Naive t) ->
  (t <= now)%Z ->
  let d := _calculate_days_ago now (Some date_str) in
  (0 <= d)%Z /\ (d * us_per_day <= now - t < (d + 1) * us_per_day)%Z.
Proof.
  intros Hne Hp Hle d. subst d. unfold job_date in Hp. unfold _calculate_days_ago.
  destruct date_str as [|c s]; [congruence|]. rewrite Hp.
  assert (Hd : (0 < us_per_day)%Z) by reflexivity.
  pose proof (Z.div_mod (now - t) us_per_day ltac:(lia)) as Hdm.
  pose proof (Z.mod_pos_bound (now - t) us_per_day Hd) as Hm.
  split; [apply Z.div_pos; lia|]. lia.
Qed.

Lemma replace_char_app c by_ a b :
  replace_char c by_ (a ++ b) = replace_char c by_ a ++ replace_char c by_ b.
Proof. unfold replace_char. apply flat_map_app. Qed.

Lemma replace_char_keeps_T s :
  contains (u "T") s = true ->
  contains (u "T") (replace_char 90 (u "+00:00") s) = true.
Proof.
  intros HT. apply contains_spec in HT as (pre & post & ->). apply contains_spec.
  exists (replace_char 90 (u "+00:00") pre), (replace_char 90 (u "+00:00") post).
  now rewrite !replace_char_app.
Qed.

(** X29. For a timestamp that holds a [T] and ends in [Z], as the providers
    send them, [_calculate_days_ago] is 0 whatever the date: the [Z] is
    replaced by an offset, and provided that [datetime.fromisoformat] reads
    a text that holds a [T] and ends in that offset as an aware date-time
    or rejects it, the subtraction from the naive clock fails and 0 is
    returned. *)
Theorem utc_timestamp_days_ago_zero now s :
  (forall x d, contains (u "T") x = true ->
     fromisoformat (x ++ u "+00:00") = Some d -> exists us, d = Aware us) ->
  contains (u "T") s = true ->
  _calculate_days_ago now (Some (s ++ u "Z")) = 0%Z.
Proof.
  intros Hlib HT. unfold _calculate_days_ago.
  assert (HT' : contains (u "T") (s ++ u "Z") = true).
  { apply contains_spec in HT as (pre & post & ->). apply contains_spec.
    exists pre, (post ++ u "Z"). now rewrite <- !app_assoc. }
  destruct (s ++ u "Z") as [|c r] eqn:Hs; [now destruct s|].
  rewrite HT', <- Hs, replace_char_app.
  change (replace_char 90 (u "+00:00") (u "Z")) with (u "+00:00").
  destruct (fromisoformat _) as [d|] eqn:Hd; [|reflexivity].
  now destruct (Hlib _ _ (replace_char_keeps_T _ HT) Hd) as [us ->].
Qed.

End DaysMore.

(** The library of this file reads an offset as an aware date-time. *)
Lemma split_on_colon_word x r :
  forallb (fun c => negb (colon =? c)) x = true ->
  split_on (N.eqb colon) (x ++ colon :: r) = x :: split_on (N.eqb colon) r.
Proof. intros Hx. now apply split_on_free_app. Qed.

Lemma ascii_time_offset y :
  (length y <= 2)%nat -> ascii_time (y ++ u "+00:00") = None.
Proof.
  intros Hy. destruct y as [|a [|b [|c y]]]; [| | |cbn in Hy; lia].
  - reflexivity.
  - destruct (N.eqb_spec colon a) as [<-|Ha]; [reflexivity|].
    apply N.eqb_neq in Ha. unfold ascii_time.
    change ([a] ++ u "+00:00") with ([a; 43; 48; 48] ++ colon :: [48; 48]).
    rewrite split_on_colon_word; [reflexivity|].
    cbn [forallb]. now rewrite Ha.
  - destruct (N.eqb_spec colon a) as [<-|Ha], (N.eqb_spec colon b) as [<-|Hb];
      try reflexivity.
    + apply N.eqb_neq in Hb. unfold ascii_time.
      change ([colon; b] ++ u "+00:00")
        with ([] ++ colon :: ([b; 43; 48; 48] ++ colon :: [48; 48])).
      rewrite split_on_colon_word by reflexivity.
      rewrite split_on_colon_word; [reflexivity|].
      cbn [forallb]. now rewrite Hb.
    + apply N.eqb_neq in Ha. unfold ascii_time.
      change ([a; colon] ++ u "+00:00")
        with ([a] ++ colon :: ([43; 48; 48] ++ colon :: [48; 48])).
      rewrite split_on_colon_word by (cbn [forallb]; now rewrite Ha).
      rewrite split_on_colon_word by reflexivity. reflexivity.
    + apply N.eqb_neq in Ha. apply N.eqb_neq in Hb. unfold ascii_time.
      change ([a; b] ++ u "+00:00") with ([a; b; 43; 48; 48] ++ colon :: [48; 48]).
      rewrite split_on_colon_word; [reflexivity|].
      cbn [forallb]. now rewrite Ha, Hb.
Qed.

Lemma iso_lib_offset_aware x d :
  ascii_fromisoformat (x ++ u "+00:00") = Some d -> exists us, d = Aware us.
Proof.
  unfold ascii_fromisoformat. rewrite skipn_app.
  destruct (ascii_strptime_ymd _) as [day|]; [|now destruct (_ ++ _)].
  destruct (le_lt_dec 11 (length x)) as [Hlong|Hshort].
  - replace (10 - length x)%nat with 0%nat by lia.
    rewrite drop_0. destruct (skipn 10 x) as [|c y] eqn:Hx.
    { apply (f_equal (@length _)) in Hx. rewrite length_skipn in Hx. cbn in Hx. lia. }
    cbn [app]. destruct (ascii_time _) as [t|] eqn:Ht; [|discriminate].
    destruct (skipn 8 (y ++ u "+00:00")) as [|o off] eqn:Hoff.
    + exfalso. apply (f_equal (@length _)) in Hoff.
      rewrite length_skipn, length_app in Hoff. cbn in Hoff.
      rewrite firstn_all2 in Ht by (rewrite length_app; cbn; lia).
      rewrite ascii_time_offset in Ht by lia. discriminate.
    + destruct (ascii_offset (o :: off)); [|discriminate]. cbn. intros [= <-]. eauto.
  - rewrite skipn_all2 by lia. cbn [app].
    destruct (10 - length x)%nat as [|[|[|[|[|[|k]]]]]]; try (vm_compute; discriminate).
    change (skipn (S (S (S (S (S (S k)))))) (u "+00:00")) with (skipn k (@nil char)).
    rewrite drop_nil. discriminate.
Qed.

Lemma days_ago_whole_days_witness :
  @_calculate_days_ago date_only_lib late_evening (Some (u "2026-11-01")) = 2%Z.
Proof.
  destruct (@days_ago_whole_days date_only_lib late_evening (u "2026-11-01")
              (days_from_civil 2026 11 1 * us_per_day)%Z) as [H0 H1].
  - discriminate.
  - reflexivity.
  - vm_compute. discriminate.
  - reflexivity.
Defined.

Lemma utc_timestamp_days_ago_zero_witness :
  ascii_fromisoformat (u "2026-11-01T10:00:00+00:00")
  = Some (Aware ((days_from_civil 2026 11 1 * 86400 + 36000) * 1000000)%Z)
  /\ @_calculate_days_ago iso_lib late_evening (Some (u "2026-11-01T10:00:00" ++ u "Z"))
     = 0%Z.
Proof.
  split; [vm_compute; reflexivity|].
  apply (@utc_timestamp_days_ago_zero iso_lib late_evening (u "2026-11-01T10:00:00")).
  - intros x d _. apply iso_lib_offset_aware.
  - reflexivity.
Defined.

